(** * Portfolio: chat widget, date utilities and form validation

    A shallow embedding of the logic of the portfolio site:
    - [src/utils/validation.ts]: [required], [isValidEmail], [minLength],
      [maxLength], [validateName], [validateEmail], [validateMessage];
    - [src/utils/sorting.ts]: [sortExperienceByDate], [formatDate],
      [formatDuration];
    - [src/components/ChatWidget/ChatWidget.tsx]: [getAutoReply],
      [handleSendMessage], [sendAutoReply], [toggleChat].

    JavaScript strings are sequences of UTF-16 code units and are modelled as
    lists of integers.  The parts of the JavaScript runtime whose behaviour is
    left to the engine or to the host (date parsing beyond the ISO format, the
    local time zone, Unicode lower-casing, the procedure by which [sort]
    orders an array) are parameters; concrete instances are given for closed
    examples. *)

From Stdlib Require Import ZArith String Ascii Bool Lia.
From Stdlib Require Import DecimalString DecimalPos DecimalZ.
From Stdlib Require Import Sorting.Sorted.
From stdpp Require Import base list gmap sorting.

Local Open Scope Z_scope.

(* ================================================================= *)
(** * Part I: definitions *)
(* ================================================================= *)

(* ----------------------------------------------------------------- *)
(** ** JavaScript strings *)

(** A code unit is an integer in [0, 65535]. *)
Abbreviation jsstring := (list Z).

(** Literals of the source that are plain ASCII are written as Rocq strings. *)
Definition lit (s : string) : jsstring :=
  map (fun a => Z.of_N (N_of_ascii a)) (list_ascii_of_string s).
Arguments lit _%_string.

(** WhiteSpace and LineTerminator code points of ECMAScript: what
    [String.prototype.trim] strips and what [\s] matches in a regular
    expression without the [u] flag. *)
Definition isWhiteSpace (c : Z) : bool :=
  (9 <=? c) && (c <=? 13)
  || (c =? 32) || (c =? 160) || (c =? 5760)
  || (8192 <=? c) && (c <=? 8202)
  || (c =? 8232) || (c =? 8233) || (c =? 8239) || (c =? 8287)
  || (c =? 12288) || (c =? 65279).

Fixpoint trimStart (s : jsstring) : jsstring :=
  match s with
  | [] => []
  | c :: s' => if isWhiteSpace c then trimStart s' else s
  end.

Definition trimEnd (s : jsstring) : jsstring := rev (trimStart (rev s)).

(** [String.prototype.trim] *)
Definition trim (s : jsstring) : jsstring := trimEnd (trimStart s).

(** [s.length] *)
Definition jslength (s : jsstring) : Z := Z.of_nat (length s).

(** JavaScript truthiness of a string: only the empty string is falsy. *)
Definition truthy (s : jsstring) : bool :=
  match s with [] => false | _ :: _ => true end.

Fixpoint startsWith (p s : jsstring) : bool :=
  match p, s with
  | [], _ => true
  | _ :: _, [] => false
  | a :: p', b :: s' => (a =? b) && startsWith p' s'
  end.

(** [s.includes(p)] *)
Fixpoint includes (s p : jsstring) : bool :=
  startsWith p s ||
  match s with
  | [] => false
  | _ :: s' => includes s' p
  end.

(** Number of positions of [s] at which [p] occurs. *)
Fixpoint occurrences (p s : jsstring) : nat :=
  ((if startsWith p s then 1 else 0) +
   match s with
   | [] => 0
   | _ :: s' => occurrences p s'
   end)%nat.

(** Conversion of an integer-valued number to a string, as a template
    literal does it (decimal digits, a leading minus sign for negative
    numbers; integers below 10^21 in absolute value). *)
Definition numberToString (n : Z) : jsstring :=
  lit (NilZero.string_of_int (Z.to_int n)).

(* ----------------------------------------------------------------- *)
(** ** Regular expressions *)

(** The fragment of the pattern language that the source uses. *)
Inductive class_item : Type :=
| CSpace                (* \s *)
| CChar (c : Z).        (* a literal character *)

Inductive regex : Type :=
| REmpty                                   (* matches nothing *)
| REps                                     (* matches the empty string *)
| RChar (c : Z)                            (* a literal character, e.g. \. *)
| RClass (negated : bool) (items : list class_item)   (* [...] and [^...] *)
| RCat (r1 r2 : regex)
| RAlt (r1 r2 : regex)
| RStar (r : regex).

(** [r+] *)
Definition RPlus (r : regex) : regex := RCat r (RStar r).

Definition item_matches (c : Z) (i : class_item) : bool :=
  match i with
  | CSpace => isWhiteSpace c
  | CChar d => c =? d
  end.

Definition class_matches (negated : bool) (items : list class_item) (c : Z) : bool :=
  xorb negated (existsb (item_matches c) items).

Fixpoint nullable (r : regex) : bool :=
  match r with
  | REmpty => false
  | REps => true
  | RChar _ => false
  | RClass _ _ => false
  | RCat r1 r2 => nullable r1 && nullable r2
  | RAlt r1 r2 => nullable r1 || nullable r2
  | RStar _ => true
  end.

(** Derivative of [r] by the character [c]. *)
Fixpoint deriv (c : Z) (r : regex) : regex :=
  match r with
  | REmpty => REmpty
  | REps => REmpty
  | RChar d => if c =? d then REps else REmpty
  | RClass n items => if class_matches n items c then REps else REmpty
  | RCat r1 r2 =>
      if nullable r1
      then RAlt (RCat (deriv c r1) r2) (deriv c r2)
      else RCat (deriv c r1) r2
  | RAlt r1 r2 => RAlt (deriv c r1) (deriv c r2)
  | RStar r1 => RCat (deriv c r1) (RStar r1)
  end.

(** [/^r$/.test(s)]: the pattern is anchored at both ends, so the test
    succeeds exactly when the whole string matches. *)
Fixpoint test_anchored (r : regex) (s : jsstring) : bool :=
  match s with
  | [] => nullable r
  | c :: s' => test_anchored (deriv c r) s'
  end.

(* ----------------------------------------------------------------- *)
(** ** Form validation ([src/utils/validation.ts]) *)

Record ValidationResult : Type := {
  isValid : bool;
  error : option jsstring
}.

Definition required (value fieldName : jsstring) : ValidationResult :=
  let trimmed := trim value in
  if negb (truthy trimmed)
  then {| isValid := false; error := Some (fieldName ++ lit " is required") |}
  else {| isValid := true; error := None |}.

(** [[^\s@]] *)
Definition notSpaceNorAt : regex := RClass true [CSpace; CChar 64].

(** [/^[^\s@]+@[^\s@]+\.[^\s@]+$/] *)
Definition emailRegex : regex :=
  RCat (RPlus notSpaceNorAt)
 (RCat (RChar 64)
 (RCat (RPlus notSpaceNorAt)
 (RCat (RChar 46)
       (RPlus notSpaceNorAt)))).

Definition isValidEmail (value : jsstring) : ValidationResult :=
  let trimmed := trim value in
  if negb (truthy trimmed)
  then {| isValid := false; error := Some (lit "Email is required") |}
  else if negb (test_anchored emailRegex trimmed)
  then {| isValid := false; error := Some (lit "Please enter a valid email address") |}
  else {| isValid := true; error := None |}.

Definition minLength (value : jsstring) (min : Z) (fieldName : jsstring) : ValidationResult :=
  let trimmed := trim value in
  if jslength trimmed <? min
  then {| isValid := false;
          error := Some (fieldName ++ lit " must be at least " ++ numberToString min
                           ++ lit " characters") |}
  else {| isValid := true; error := None |}.

Definition maxLength (value : jsstring) (max : Z) (fieldName : jsstring) : ValidationResult :=
  let trimmed := trim value in
  if max <? jslength trimmed
  then {| isValid := false;
          error := Some (fieldName ++ lit " must be no more than " ++ numberToString max
                           ++ lit " characters") |}
  else {| isValid := true; error := None |}.

Definition validateName (value : jsstring) : ValidationResult :=
  let requiredCheck := required value (lit "Name") in
  if negb (isValid requiredCheck) then requiredCheck else
  let minCheck := minLength value 2 (lit "Name") in
  if negb (isValid minCheck) then minCheck else
  let maxCheck := maxLength value 100 (lit "Name") in
  if negb (isValid maxCheck) then maxCheck else
  {| isValid := true; error := None |}.

Definition validateEmail (value : jsstring) : ValidationResult :=
  isValidEmail value.

Definition validateMessage (value : jsstring) : ValidationResult :=
  let requiredCheck := required value (lit "Message") in
  if negb (isValid requiredCheck) then requiredCheck else
  let minCheck := minLength value 10 (lit "Message") in
  if negb (isValid minCheck) then minCheck else
  let maxCheck := maxLength value 1000 (lit "Message") in
  if negb (isValid maxCheck) then maxCheck else
  {| isValid := true; error := None |}.

Record ContactFormErrors : Type := {
  name_error : option jsstring;
  email_error : option jsstring;
  message_error : option jsstring
}.

Record ContactFormData : Type := {
  form_name : jsstring;
  form_email : jsstring;
  form_message : jsstring
}.

Definition validateContactForm (data : ContactFormData) : bool * ContactFormErrors :=
  let nameResult := validateName (form_name data) in
  let emailResult := validateEmail (form_email data) in
  let messageResult := validateMessage (form_message data) in
  (isValid nameResult && isValid emailResult && isValid messageResult,
   {| name_error := error nameResult;
      email_error := error emailResult;
      message_error := error messageResult |}).

(* ----------------------------------------------------------------- *)
(** ** Numbers and dates of the JavaScript runtime *)

(** A time value, or the result of an arithmetic operation on time values:
    an integer number of milliseconds, or [None] for [NaN].  Time values are
    integers below 2^53 in absolute value, so their differences keep their
    sign when computed in double precision. *)
Definition number : Type := option Z.

(** [a - b] *)
Definition number_sub (a b : number) : number :=
  match a, b with
  | Some x, Some y => Some (x - y)
  | _, _ => None
  end.

(** [a >= b]; a comparison with [NaN] is false. *)
Definition number_ge (a b : number) : bool :=
  match a, b with
  | Some x, Some y => y <=? x
  | _, _ => false
  end.

(** Day number and year arithmetic of ECMAScript (section "Time Values and
    Time Range"). *)
Definition msPerDay : Z := 86400000.
Definition msPerHour : Z := 3600000.

Definition Day (t : Z) : Z := t / msPerDay.

Definition isLeapYear (y : Z) : bool :=
  if negb (y mod 4 =? 0) then false
  else if negb (y mod 100 =? 0) then true
  else if negb (y mod 400 =? 0) then false
  else true.

Definition DaysInYear (y : Z) : Z := if isLeapYear y then 366 else 365.

Definition DayFromYear (y : Z) : Z :=
  365 * (y - 1970) + (y - 1969) / 4 - (y - 1901) / 100 + (y - 1601) / 400.

(** The largest year [y] with [DayFromYear y <= d], found from the estimate
    given by the mean length of the Gregorian year (146097 days in 400
    years); see [YearFromDay_spec]. *)
Definition YearFromDay (d : Z) : Z :=
  let c := 1970 + (400 * d) / 146097 in
  if DayFromYear (c + 1) <=? d then c + 1
  else if DayFromYear c <=? d then c
  else c - 1.

Definition YearFromTime (t : Z) : Z := YearFromDay (Day t).

Definition DayWithinYear (t : Z) : Z := Day t - DayFromYear (YearFromTime t).

Definition InLeapYear (t : Z) : Z := if isLeapYear (YearFromTime t) then 1 else 0.

(** Month number, 0 for January to 11 for December. *)
Definition MonthFromTime (t : Z) : Z :=
  let d := DayWithinYear t in
  let leap := InLeapYear t in
  if d <? 31 then 0
  else if d <? 59 + leap then 1
  else if d <? 90 + leap then 2
  else if d <? 120 + leap then 3
  else if d <? 151 + leap then 4
  else if d <? 181 + leap then 5
  else if d <? 212 + leap then 6
  else if d <? 243 + leap then 7
  else if d <? 273 + leap then 8
  else if d <? 304 + leap then 9
  else if d <? 334 + leap then 10
  else 11.

(** Number of days of the year before the first day of month [m] (0-based). *)
Definition daysBeforeMonth (leap : bool) (m : Z) : Z :=
  let l := if leap then 1 else 0 in
  match m with
  | 0 => 0
  | 1 => 31
  | 2 => 59 + l
  | 3 => 90 + l
  | 4 => 120 + l
  | 5 => 151 + l
  | 6 => 181 + l
  | 7 => 212 + l
  | 8 => 243 + l
  | 9 => 273 + l
  | 10 => 304 + l
  | _ => 334 + l
  end.

Definition DaysInMonth (y m : Z) : Z :=
  match m with
  | 1 => if isLeapYear y then 29 else 28
  | 3 | 5 | 8 | 10 => 30
  | _ => 31
  end.

(** [MakeDay (year, month, date)] for a month in 0..11, and the time value
    of midnight UTC on that day. *)
Definition MakeDay (year month date : Z) : Z :=
  DayFromYear year + daysBeforeMonth (isLeapYear year) month + (date - 1).

Definition utcMidnight (year month date : Z) : Z :=
  MakeDay year month date * msPerDay.

(** Short month names of the [en-US] locale. *)
Definition monthShort (m : Z) : jsstring :=
  match m with
  | 0 => lit "Jan" | 1 => lit "Feb" | 2 => lit "Mar" | 3 => lit "Apr"
  | 4 => lit "May" | 5 => lit "Jun" | 6 => lit "Jul" | 7 => lit "Aug"
  | 8 => lit "Sep" | 9 => lit "Oct" | 10 => lit "Nov" | _ => lit "Dec"
  end.

(** The year as [year: 'numeric'] prints it: the year of the era, which for
    years before 1 CE is [1 - y]. *)
Definition yearNumeric (y : Z) : jsstring :=
  numberToString (if 1 <=? y then y else 1 - y).

(** The calendar date [YYYY-MM-DD] written in the ISO date-only form
    (month 1..12). *)
Definition digit (n : Z) : Z := 48 + n mod 10.

Definition pad2 (n : Z) : jsstring := [digit (n / 10); digit n].

Definition pad4 (n : Z) : jsstring :=
  [digit (n / 1000); digit (n / 100); digit (n / 10); digit n].

Definition isoDate (y m d : Z) : jsstring :=
  pad4 y ++ [45] ++ pad2 m ++ [45] ++ pad2 d.

Definition validYMD (y m d : Z) : Prop :=
  0 <= y <= 9999 /\ 1 <= m <= 12 /\ 1 <= d <= DaysInMonth y (m - 1).

(** A reference date parser: the date-only form [YYYY-MM-DD] of the
    ECMAScript date-time string format, read as midnight UTC; every other
    string is an invalid date here.  (Engines accept further formats, which
    is why the development is parametric in the parser.) *)
Definition digitValue (c : Z) : option Z :=
  if (48 <=? c) && (c <=? 57) then Some (c - 48) else None.

Definition isoDateParse (s : jsstring) : number :=
  match s with
  | [y1; y2; y3; y4; 45; m1; m2; 45; d1; d2] =>
      a ← digitValue y1; b ← digitValue y2; c ← digitValue y3; e ← digitValue y4;
      f ← digitValue m1; g ← digitValue m2; h ← digitValue d1; i ← digitValue d2;
      let y := 1000 * a + 100 * b + 10 * c + e in
      let m := 10 * f + g in
      let d := 10 * h + i in
      if (1 <=? m) && (m <=? 12) && (1 <=? d) && (d <=? DaysInMonth y (m - 1))
      then Some (utcMidnight y (m - 1) d)
      else None
  | _ => None
  end.

(** Two local time zones: UTC, and a zone five hours behind UTC (US Eastern
    standard time). *)
Definition utcZone : Z -> Z := fun _ => 0.
Definition fiveHoursBehind : Z -> Z := fun _ => - (5 * msPerHour).

Section Dates.
(** [new Date(s).getTime()]: the time value of the date that the engine
    reads from the string [s], [None] for an invalid date. *)
Variable Date_parse : jsstring -> number.

(** The local time zone adjustment, in milliseconds, at the UTC time [t]. *)
Variable LocalTZA : Z -> Z.

Definition LocalTime (t : Z) : Z := t + LocalTZA t.

(** [date.toLocaleDateString('en-US', { month: 'short', year: 'numeric' })]
    for the date with time value [tv]. *)
Definition toLocaleDateString (tv : number) : jsstring :=
  match tv with
  | None => lit "Invalid Date"
  | Some t =>
      monthShort (MonthFromTime (LocalTime t)) ++ lit " "
        ++ yearNumeric (YearFromTime (LocalTime t))
  end.

(* --------------------------------------------------------------- *)
(** ** Sorting and formatting ([src/utils/sorting.ts]) *)

Record Experience : Type := {
  role : jsstring;
  organization : jsstring;
  startDate : jsstring;
  endDate : option jsstring;
  description : jsstring
}.

(** The comparison function passed to [sort]. *)
Definition compareByStartDate (a b : Experience) : number :=
  let dateA := Date_parse (startDate a) in
  let dateB := Date_parse (startDate b) in
  number_sub dateB dateA.

Definition formatDate (dateString : option jsstring) : jsstring :=
  match dateString with
  | None => lit "Present"
  | Some s =>
      if negb (truthy s) then lit "Present"
      else toLocaleDateString (Date_parse s)
  end.

Definition formatDuration (startDate : jsstring) (endDate : option jsstring) : jsstring :=
  formatDate (Some startDate) ++ lit " - " ++ formatDate endDate.
End Dates.

(** [Array.prototype.sort]: the comparison function returns a number and a
    [NaN] result counts as [+0]. *)
Definition SortCompare {A : Type} (comparefn : A -> A -> number) (x y : A) : Z :=
  match comparefn x y with
  | Some v => v
  | None => 0
  end.

(** How the elements are rearranged is the engine's: ECMAScript has it sort
    "using an implementation-defined sequence of calls to SortCompare".  A
    sorting procedure takes the comparison function and the elements and
    returns the elements in the order in which it leaves them.  What
    ECMAScript requires of every procedure is [conforming] below. *)
Definition SortProcedure : Type := forall A : Type, (A -> A -> number) -> list A -> list A.

(** Two procedures.  The first is insertion from the right: an element
    moves behind a later one only when the comparison says it must. *)
Fixpoint sort_insert {A : Type} (comparefn : A -> A -> number) (x : A) (l : list A) : list A :=
  match l with
  | [] => [x]
  | y :: l' =>
      if 0 <? SortCompare comparefn x y
      then y :: sort_insert comparefn x l'
      else x :: y :: l'
  end.

Fixpoint sorted_copy {A : Type} (comparefn : A -> A -> number) (l : list A) : list A :=
  match l with
  | [] => []
  | x :: l' => sort_insert comparefn x (sorted_copy comparefn l')
  end.

Definition insertionSort : SortProcedure := fun A comparefn l => sorted_copy comparefn l.

(** The second is the procedure of V8 (the engine of Node.js and Chrome)
    for arrays of fewer than 64 elements, where its merge sort is made of
    two steps only ([third_party/v8/builtins/array-sort.tq]):
    [CountAndMakeRun] finds the run at the start of the array, reversing it
    when it is strictly descending, and [BinaryInsertionSort] inserts every
    further element into the sorted part at the place found by binary
    search.  (From 64 elements on V8 cuts the array into several such runs
    and merges them; the two steps alone, as here, still sort.) *)
Section TimSort.
Context {A : Type} (comparefn : A -> A -> number).

(** The search loop of [BinaryInsertionSort], [while (left < right)]; the
    interval shrinks at every turn, so [right - left] turns are enough
    (see [binarySearch_fuel]). *)
Fixpoint binarySearch (fuel : nat) (pivot : A) (workArray : list A) (left right : nat) : nat :=
  match fuel with
  | O => left
  | S fuel' =>
      if (left <? right)%nat
      then
        let mid := (left + (right - left) / 2)%nat in
        match workArray !! mid with
        | Some element =>
            let order := SortCompare comparefn pivot element in
            if order <? 0
            then binarySearch fuel' pivot workArray left mid
            else binarySearch fuel' pivot workArray (mid + 1)%nat right
        | None => left
        end
      else left
  end.

(** One turn of the outer loop: the pivot is put at [left] and the elements
    from there on move up by one. *)
Definition binaryInsert (workArray : list A) (pivot : A) : list A :=
  let left := binarySearch (length workArray) pivot workArray 0 (length workArray) in
  take left workArray ++ pivot :: drop left workArray.

Definition BinaryInsertionSort (run others : list A) : list A :=
  fold_left binaryInsert others run.

(** The loop of [CountAndMakeRun]: the elements that continue the run after
    [previousElement], and the elements from the first one that breaks it. *)
Fixpoint runFrom (isDescending : bool) (previousElement : A) (l : list A) : list A * list A :=
  match l with
  | [] => ([], [])
  | currentElement :: l' =>
      let order := SortCompare comparefn currentElement previousElement in
      if (if isDescending then 0 <=? order else order <? 0)
      then ([], l)
      else
        let '(run, others) := runFrom isDescending currentElement l' in
        (currentElement :: run, others)
  end.

Definition CountAndMakeRun (l : list A) : list A * list A :=
  match l with
  | elementHigh :: elementLow :: l' =>
      let order := SortCompare comparefn elementLow elementHigh in
      let isDescending := order <? 0 in
      let '(run, others) := runFrom isDescending elementLow l' in
      let run := elementHigh :: elementLow :: run in
      (if isDescending then reverse run else run, others)
  | _ => (l, [])
  end.

Definition timSortRuns (l : list A) : list A :=
  let '(run, others) := CountAndMakeRun l in
  BinaryInsertionSort run others.
End TimSort.

Definition timSortShort : SortProcedure := fun A comparefn l => timSortRuns comparefn l.

(** Arrays are mutable objects: the store maps references to contents. *)
Abbreviation ref := nat.
Abbreviation store A := (gmap ref (list A)).

(** [[...a]]: a fresh array with the elements of [a]. *)
Definition spread {A : Type} (a : ref) (h : store A) : option (ref * store A) :=
  elems ← h !! a;
  let r := fresh (dom h) in
  Some (r, <[r := elems]> h).

(** [a.sort(comparefn)]: sorts [a] in place, by the procedure of the engine,
    and returns [a]. *)
Definition Array_sort {A : Type} (sort : SortProcedure) (comparefn : A -> A -> number)
    (a : ref) (h : store A) : option (ref * store A) :=
  elems ← h !! a;
  Some (a, <[a := sort A comparefn elems]> h).

Definition sortExperienceByDate (sort : SortProcedure) (Date_parse : jsstring -> number)
    (experiences : ref) (h : store Experience) : option (ref * store Experience) :=
  '(copy, h1) ← spread experiences h;
  Array_sort sort (compareByStartDate Date_parse) copy h1.

(* ----------------------------------------------------------------- *)
(** ** The canned-response matcher ([ChatWidget.tsx], [getAutoReply]) *)

(** The fields of [src/data/profile.json] that the replies use. *)
Record Profile : Type := {
  name : jsstring;
  title : jsstring;
  location : jsstring;
  email : jsstring
}.

(** A rule of the matcher as the specification describes it: a set of
    lower-case keywords and the reply they select. *)
Record CannedReplyRule : Type := {
  keywords : list jsstring;
  reply : jsstring
}.

(** Lower-casing of the ASCII letters, the part of
    [String.prototype.toLowerCase] that does not depend on Unicode tables. *)
Definition asciiLower (c : Z) : Z :=
  if (65 <=? c) && (c <=? 90) then c + 32 else c.

Definition asciiToLowerCase (s : jsstring) : jsstring := map asciiLower s.

Definition isAscii (s : jsstring) : Prop := Forall (fun c => 0 <= c < 128) s.

Section Matcher.
Variable profile : Profile.

(** [String.prototype.toLowerCase] of the engine. *)
Variable toLowerCase : jsstring -> jsstring.

Definition getAutoReply (userMessage : jsstring) : jsstring :=
  let lowerMessage := toLowerCase userMessage in
  (* Greetings *)
  if includes lowerMessage (lit "hi")
     || includes lowerMessage (lit "hello")
     || includes lowerMessage (lit "hey")
     || includes lowerMessage (lit "good morning")
     || includes lowerMessage (lit "good afternoon")
     || includes lowerMessage (lit "good evening")
  then lit "Hi there! Thanks for reaching out. I'm currently away, but feel free to leave a message or email me at " ++ email profile ++ lit ". I'll get back to you soon!"
  else
  (* Farewells *)
  if includes lowerMessage (lit "bye")
     || includes lowerMessage (lit "goodbye")
     || includes lowerMessage (lit "see you")
     || includes lowerMessage (lit "take care")
  then lit "Thanks for chatting! Feel free to come back anytime. Have a great day! " ++ [55357; 56395]
  else
  (* Thanks *)
  if includes lowerMessage (lit "thank")
     || includes lowerMessage (lit "thanks")
     || includes lowerMessage (lit "appreciate")
  then lit "You're welcome! Let me know if there's anything else I can help with. " ++ [55357; 56842]
  else
  (* Need a website *)
  if includes lowerMessage (lit "need a website")
     || includes lowerMessage (lit "want a website")
     || includes lowerMessage (lit "build me a website")
     || includes lowerMessage (lit "create a website")
     || includes lowerMessage (lit "make a website")
     || includes lowerMessage (lit "looking for a website")
  then lit "I'd love to help you build a website! Please tell me more about your business and what kind of website you're looking for. I'll get back to you with ideas and a quote. " ++ [55357; 56960]
  else
  (* Business website *)
  if includes lowerMessage (lit "business")
     || includes lowerMessage (lit "company")
     || includes lowerMessage (lit "startup")
     || includes lowerMessage (lit "enterprise")
  then lit "I specialize in creating professional websites for businesses! Whether you need a landing page, company website, or e-commerce store, I can help. Tell me more about your business!"
  else
  (* Online store / E-commerce *)
  if includes lowerMessage (lit "online store")
     || includes lowerMessage (lit "e-commerce")
     || includes lowerMessage (lit "ecommerce")
     || includes lowerMessage (lit "sell online")
     || includes lowerMessage (lit "shop")
     || includes lowerMessage (lit "selling products")
  then lit "I can build you an online store to sell your products! I work with modern e-commerce solutions. Let me know what products you're selling and I'll help you get started."
  else
  (* Landing page *)
  if includes lowerMessage (lit "landing page")
     || includes lowerMessage (lit "one page")
     || includes lowerMessage (lit "single page")
     || includes lowerMessage (lit "simple website")
  then lit "A landing page is a great way to showcase your business! I can create a beautiful, responsive landing page that converts visitors into customers. What's your business about?"
  else
  (* Mobile app *)
  if includes lowerMessage (lit "mobile app")
     || includes lowerMessage (lit "android")
     || includes lowerMessage (lit "ios")
     || includes lowerMessage (lit "app for my")
     || includes lowerMessage (lit "phone app")
  then lit "I also develop mobile apps! Tell me about your app idea - what problem does it solve? I'd love to help bring your vision to life. " ++ [55357; 56561]
  else
  (* Redesign / Revamp *)
  if includes lowerMessage (lit "redesign")
     || includes lowerMessage (lit "revamp")
     || includes lowerMessage (lit "update my website")
     || includes lowerMessage (lit "improve my website")
     || includes lowerMessage (lit "fix my website")
     || includes lowerMessage (lit "old website")
  then lit "I can help modernize your existing website! Share your current website URL and tell me what you'd like to improve. I'll give you recommendations and a quote."
  else
  (* Logo / Branding *)
  if includes lowerMessage (lit "logo")
     || includes lowerMessage (lit "branding")
     || includes lowerMessage (lit "brand")
     || includes lowerMessage (lit "design")
  then lit "While my main focus is web development, I can help with basic branding and design for your website. Tell me more about your brand vision!"
  else
  (* Restaurant / Food *)
  if includes lowerMessage (lit "restaurant")
     || includes lowerMessage (lit "food")
     || includes lowerMessage (lit "cafe")
     || includes lowerMessage (lit "menu")
     || includes lowerMessage (lit "catering")
  then lit "I can create a beautiful website for your restaurant or food business! Features like online menus, reservations, and ordering systems are all possible. Tell me more about your place!"
  else
  (* Salon / Beauty *)
  if includes lowerMessage (lit "salon")
     || includes lowerMessage (lit "beauty")
     || includes lowerMessage (lit "spa")
     || includes lowerMessage (lit "hair")
     || includes lowerMessage (lit "nail")
     || includes lowerMessage (lit "makeup")
  then lit "I'd love to create a stunning website for your beauty business! I can include booking systems, service menus, and galleries to showcase your work. What services do you offer?"
  else
  (* Real Estate *)
  if includes lowerMessage (lit "real estate")
     || includes lowerMessage (lit "property")
     || includes lowerMessage (lit "house")
     || includes lowerMessage (lit "apartment")
     || includes lowerMessage (lit "rental")
  then lit "I can build a professional real estate website with property listings, search features, and contact forms. Tell me more about your real estate business!"
  else
  (* Portfolio / Personal *)
  if includes lowerMessage (lit "portfolio")
     || includes lowerMessage (lit "personal website")
     || includes lowerMessage (lit "my own website")
     || includes lowerMessage (lit "showcase my work")
  then lit "A portfolio website is perfect for showcasing your work! I can create something similar to this site, customized for you. What kind of work do you want to display?"
  else
  (* Blog *)
  if includes lowerMessage (lit "blog")
     || includes lowerMessage (lit "write")
     || includes lowerMessage (lit "articles")
     || includes lowerMessage (lit "content")
  then lit "I can set up a beautiful blog for you! Whether it's personal blogging or content marketing for your business, I've got you covered. What topics will you write about?"
  else
  (* Booking / Appointment *)
  if includes lowerMessage (lit "booking")
     || includes lowerMessage (lit "appointment")
     || includes lowerMessage (lit "schedule")
     || includes lowerMessage (lit "reservation")
  then lit "I can integrate booking and appointment systems into your website! This is great for service-based businesses. What kind of appointments do you need to manage?"
  else
  (* How long / Timeline *)
  if includes lowerMessage (lit "how long")
     || includes lowerMessage (lit "timeline")
     || includes lowerMessage (lit "deadline")
     || includes lowerMessage (lit "when can")
     || includes lowerMessage (lit "turnaround")
  then lit "Project timelines depend on complexity. A simple landing page takes about 1-2 weeks, while larger projects may take 4-8 weeks. Share your requirements and deadline, and I'll let you know if I can meet it!"
  else
  (* How much / Payment *)
  if includes lowerMessage (lit "how much")
     || includes lowerMessage (lit "payment")
     || includes lowerMessage (lit "pay")
     || includes lowerMessage (lit "deposit")
     || includes lowerMessage (lit "installment")
  then lit "Pricing varies based on project scope. I offer flexible payment options including deposits and installments. Let's discuss your project first, and I'll provide a detailed quote!"
  else
  (* Maintenance / Updates *)
  if includes lowerMessage (lit "maintenance")
     || includes lowerMessage (lit "update")
     || includes lowerMessage (lit "manage")
     || includes lowerMessage (lit "after")
     || includes lowerMessage (lit "support after")
  then lit "Yes, I offer website maintenance and support! I can help you keep your site updated, secure, and running smoothly. We can discuss a maintenance plan that works for you."
  else
  (* Domain / Hosting *)
  if includes lowerMessage (lit "domain")
     || includes lowerMessage (lit "hosting")
     || includes lowerMessage (lit "server")
     || includes lowerMessage (lit "publish")
     || includes lowerMessage (lit "go live")
  then lit "I can help you with domain registration and hosting setup! I'll guide you through the process and make sure your website goes live smoothly. " ++ [55356; 57104]
  else
  (* SEO *)
  if includes lowerMessage (lit "seo")
     || includes lowerMessage (lit "google")
     || includes lowerMessage (lit "search engine")
     || includes lowerMessage (lit "ranking")
     || includes lowerMessage (lit "found online")
  then lit "I build websites with SEO best practices in mind! This helps your site rank better on Google. I can also provide basic SEO optimization as part of the project."
  else
  (* Social Media Integration *)
  if includes lowerMessage (lit "facebook")
     || includes lowerMessage (lit "instagram")
     || includes lowerMessage (lit "twitter")
     || includes lowerMessage (lit "social media integration")
  then lit "I can integrate your social media accounts into your website! This includes feeds, share buttons, and links to your profiles. Which platforms do you use?"
  else
  (* Projects & Work *)
  if includes lowerMessage (lit "project")
     || includes lowerMessage (lit "work")
     || includes lowerMessage (lit "collaborate")
  then lit "I'd love to discuss potential projects! Please share some details about what you have in mind, and I'll respond as soon as I'm available. You can also check out my Projects section to see my previous work!"
  else
  (* Hiring & Jobs *)
  if includes lowerMessage (lit "hire")
     || includes lowerMessage (lit "job")
     || includes lowerMessage (lit "opportunity")
     || includes lowerMessage (lit "position")
     || includes lowerMessage (lit "vacancy")
     || includes lowerMessage (lit "recruit")
  then lit "Thanks for considering me! I'm always open to new opportunities. Please send the details to my email and I'll review them promptly. Looking forward to hearing from you!"
  else
  (* Contact Info *)
  if includes lowerMessage (lit "contact")
     || includes lowerMessage (lit "email")
     || includes lowerMessage (lit "reach")
     || includes lowerMessage (lit "phone")
     || includes lowerMessage (lit "call")
  then lit "You can reach me at " ++ email profile ++ lit ". I typically respond within 24 hours! You can also find me on LinkedIn and GitHub through the social links on this page."
  else
  (* Skills & Tech *)
  if includes lowerMessage (lit "skill")
     || includes lowerMessage (lit "tech")
     || includes lowerMessage (lit "stack")
     || includes lowerMessage (lit "programming")
     || includes lowerMessage (lit "language")
  then lit "Check out my Skills section on this page to see my tech stack! I work with React, TypeScript, and various modern web technologies. Feel free to ask about any specific technology."
  else
  (* Experience & Background *)
  if includes lowerMessage (lit "experience")
     || includes lowerMessage (lit "background")
     || includes lowerMessage (lit "career")
     || includes lowerMessage (lit "history")
  then lit "You can find my professional experience in the Experience section of this page. I'm a BSIT student with hands-on experience in web and mobile development!"
  else
  (* Education *)
  if includes lowerMessage (lit "education")
     || includes lowerMessage (lit "school")
     || includes lowerMessage (lit "university")
     || includes lowerMessage (lit "degree")
     || includes lowerMessage (lit "study")
  then lit "I'm currently a 4th year BS Information Technology student. Check out my Experience section for more details about my educational background!"
  else
  (* Availability *)
  if includes lowerMessage (lit "available")
     || includes lowerMessage (lit "free")
     || includes lowerMessage (lit "busy")
  then lit "I'm currently open to freelance projects and job opportunities! Feel free to share your timeline and requirements, and I'll let you know my availability."
  else
  (* Pricing & Rates *)
  if includes lowerMessage (lit "price")
     || includes lowerMessage (lit "rate")
     || includes lowerMessage (lit "cost")
     || includes lowerMessage (lit "budget")
     || includes lowerMessage (lit "charge")
     || includes lowerMessage (lit "fee")
  then lit "Pricing depends on the project scope and requirements. Let's discuss your project details first, and I'll provide a fair quote. Send me the specifics via email!"
  else
  (* Services *)
  if includes lowerMessage (lit "service")
     || includes lowerMessage (lit "offer")
     || includes lowerMessage (lit "provide")
     || includes lowerMessage (lit "do you do")
  then lit "I offer web development, mobile app development, and UI/UX design services. Check out my Projects section to see examples of my work!"
  else
  (* Resume/CV *)
  if includes lowerMessage (lit "resume")
     || includes lowerMessage (lit "cv")
     || includes lowerMessage (lit "curriculum")
  then lit "You can download my resume from the link on this page. It has all my skills, experience, and education details!"
  else
  (* Location *)
  if includes lowerMessage (lit "location")
     || includes lowerMessage (lit "where")
     || includes lowerMessage (lit "based")
     || includes lowerMessage (lit "country")
     || includes lowerMessage (lit "city")
  then lit "I'm based in " ++ location profile ++ lit ". I'm open to remote work and collaborations worldwide!"
  else
  (* Help *)
  if includes lowerMessage (lit "help")
     || includes lowerMessage (lit "support")
     || includes lowerMessage (lit "assist")
  then lit "I'm happy to help! You can ask me about my services, pricing, timeline, or anything else. What would you like to know?"
  else
  (* Who are you *)
  if includes lowerMessage (lit "who are you")
     || includes lowerMessage (lit "about you")
     || includes lowerMessage (lit "tell me about")
     || includes lowerMessage (lit "introduce")
  then lit "I'm " ++ name profile ++ lit ", a " ++ title profile ++ lit ". I help businesses and individuals create beautiful, functional websites and apps. Check out the About section to learn more!"
  else
  (* Compliments *)
  if includes lowerMessage (lit "nice")
     || includes lowerMessage (lit "great")
     || includes lowerMessage (lit "awesome")
     || includes lowerMessage (lit "cool")
     || includes lowerMessage (lit "amazing")
     || includes lowerMessage (lit "love")
     || includes lowerMessage (lit "beautiful")
     || includes lowerMessage (lit "impressive")
  then lit "Thank you so much! I really appreciate the kind words. " ++ [55357; 56842] ++ lit " Let me know if there's anything I can help you with!"
  else
  (* Interested / Want to work together *)
  if includes lowerMessage (lit "interested")
     || includes lowerMessage (lit "want to work")
     || includes lowerMessage (lit "work together")
     || includes lowerMessage (lit "work with you")
  then lit "That's great to hear! I'd love to work with you. Tell me more about what you need, and let's make it happen! " ++ [55356; 57263]
  else
  (* Questions *)
  if includes lowerMessage (lit "?")
     || includes lowerMessage (lit "how")
     || includes lowerMessage (lit "what")
     || includes lowerMessage (lit "when")
     || includes lowerMessage (lit "why")
     || includes lowerMessage (lit "can you")
  then lit "Great question! I'm currently away, but I'll get back to you with a detailed answer soon. Feel free to email me for a faster response!"
  else
  (* Default response *)
  lit "Thanks for your message! I'm currently away but I'll get back to you as soon as possible. You can also reach me directly at " ++ email profile ++ lit ". Looking forward to connecting with you!".

(** The same rules as an ordered table, in the words of the specification:
    the first rule one of whose keywords occurs in the lowered message
    gives the reply, and the fallback reply is used when there is none. *)
Definition rules : list CannedReplyRule :=
  [ (* Greetings *)
    {| keywords := [lit "hi"; lit "hello"; lit "hey"; lit "good morning"; lit "good afternoon"; lit "good evening"];
       reply := lit "Hi there! Thanks for reaching out. I'm currently away, but feel free to leave a message or email me at " ++ email profile ++ lit ". I'll get back to you soon!" |};
    (* Farewells *)
    {| keywords := [lit "bye"; lit "goodbye"; lit "see you"; lit "take care"];
       reply := lit "Thanks for chatting! Feel free to come back anytime. Have a great day! " ++ [55357; 56395] |};
    (* Thanks *)
    {| keywords := [lit "thank"; lit "thanks"; lit "appreciate"];
       reply := lit "You're welcome! Let me know if there's anything else I can help with. " ++ [55357; 56842] |};
    (* Need a website *)
    {| keywords := [lit "need a website"; lit "want a website"; lit "build me a website"; lit "create a website"; lit "make a website"; lit "looking for a website"];
       reply := lit "I'd love to help you build a website! Please tell me more about your business and what kind of website you're looking for. I'll get back to you with ideas and a quote. " ++ [55357; 56960] |};
    (* Business website *)
    {| keywords := [lit "business"; lit "company"; lit "startup"; lit "enterprise"];
       reply := lit "I specialize in creating professional websites for businesses! Whether you need a landing page, company website, or e-commerce store, I can help. Tell me more about your business!" |};
    (* Online store / E-commerce *)
    {| keywords := [lit "online store"; lit "e-commerce"; lit "ecommerce"; lit "sell online"; lit "shop"; lit "selling products"];
       reply := lit "I can build you an online store to sell your products! I work with modern e-commerce solutions. Let me know what products you're selling and I'll help you get started." |};
    (* Landing page *)
    {| keywords := [lit "landing page"; lit "one page"; lit "single page"; lit "simple website"];
       reply := lit "A landing page is a great way to showcase your business! I can create a beautiful, responsive landing page that converts visitors into customers. What's your business about?" |};
    (* Mobile app *)
    {| keywords := [lit "mobile app"; lit "android"; lit "ios"; lit "app for my"; lit "phone app"];
       reply := lit "I also develop mobile apps! Tell me about your app idea - what problem does it solve? I'd love to help bring your vision to life. " ++ [55357; 56561] |};
    (* Redesign / Revamp *)
    {| keywords := [lit "redesign"; lit "revamp"; lit "update my website"; lit "improve my website"; lit "fix my website"; lit "old website"];
       reply := lit "I can help modernize your existing website! Share your current website URL and tell me what you'd like to improve. I'll give you recommendations and a quote." |};
    (* Logo / Branding *)
    {| keywords := [lit "logo"; lit "branding"; lit "brand"; lit "design"];
       reply := lit "While my main focus is web development, I can help with basic branding and design for your website. Tell me more about your brand vision!" |};
    (* Restaurant / Food *)
    {| keywords := [lit "restaurant"; lit "food"; lit "cafe"; lit "menu"; lit "catering"];
       reply := lit "I can create a beautiful website for your restaurant or food business! Features like online menus, reservations, and ordering systems are all possible. Tell me more about your place!" |};
    (* Salon / Beauty *)
    {| keywords := [lit "salon"; lit "beauty"; lit "spa"; lit "hair"; lit "nail"; lit "makeup"];
       reply := lit "I'd love to create a stunning website for your beauty business! I can include booking systems, service menus, and galleries to showcase your work. What services do you offer?" |};
    (* Real Estate *)
    {| keywords := [lit "real estate"; lit "property"; lit "house"; lit "apartment"; lit "rental"];
       reply := lit "I can build a professional real estate website with property listings, search features, and contact forms. Tell me more about your real estate business!" |};
    (* Portfolio / Personal *)
    {| keywords := [lit "portfolio"; lit "personal website"; lit "my own website"; lit "showcase my work"];
       reply := lit "A portfolio website is perfect for showcasing your work! I can create something similar to this site, customized for you. What kind of work do you want to display?" |};
    (* Blog *)
    {| keywords := [lit "blog"; lit "write"; lit "articles"; lit "content"];
       reply := lit "I can set up a beautiful blog for you! Whether it's personal blogging or content marketing for your business, I've got you covered. What topics will you write about?" |};
    (* Booking / Appointment *)
    {| keywords := [lit "booking"; lit "appointment"; lit "schedule"; lit "reservation"];
       reply := lit "I can integrate booking and appointment systems into your website! This is great for service-based businesses. What kind of appointments do you need to manage?" |};
    (* How long / Timeline *)
    {| keywords := [lit "how long"; lit "timeline"; lit "deadline"; lit "when can"; lit "turnaround"];
       reply := lit "Project timelines depend on complexity. A simple landing page takes about 1-2 weeks, while larger projects may take 4-8 weeks. Share your requirements and deadline, and I'll let you know if I can meet it!" |};
    (* How much / Payment *)
    {| keywords := [lit "how much"; lit "payment"; lit "pay"; lit "deposit"; lit "installment"];
       reply := lit "Pricing varies based on project scope. I offer flexible payment options including deposits and installments. Let's discuss your project first, and I'll provide a detailed quote!" |};
    (* Maintenance / Updates *)
    {| keywords := [lit "maintenance"; lit "update"; lit "manage"; lit "after"; lit "support after"];
       reply := lit "Yes, I offer website maintenance and support! I can help you keep your site updated, secure, and running smoothly. We can discuss a maintenance plan that works for you." |};
    (* Domain / Hosting *)
    {| keywords := [lit "domain"; lit "hosting"; lit "server"; lit "publish"; lit "go live"];
       reply := lit "I can help you with domain registration and hosting setup! I'll guide you through the process and make sure your website goes live smoothly. " ++ [55356; 57104] |};
    (* SEO *)
    {| keywords := [lit "seo"; lit "google"; lit "search engine"; lit "ranking"; lit "found online"];
       reply := lit "I build websites with SEO best practices in mind! This helps your site rank better on Google. I can also provide basic SEO optimization as part of the project." |};
    (* Social Media Integration *)
    {| keywords := [lit "facebook"; lit "instagram"; lit "twitter"; lit "social media integration"];
       reply := lit "I can integrate your social media accounts into your website! This includes feeds, share buttons, and links to your profiles. Which platforms do you use?" |};
    (* Projects & Work *)
    {| keywords := [lit "project"; lit "work"; lit "collaborate"];
       reply := lit "I'd love to discuss potential projects! Please share some details about what you have in mind, and I'll respond as soon as I'm available. You can also check out my Projects section to see my previous work!" |};
    (* Hiring & Jobs *)
    {| keywords := [lit "hire"; lit "job"; lit "opportunity"; lit "position"; lit "vacancy"; lit "recruit"];
       reply := lit "Thanks for considering me! I'm always open to new opportunities. Please send the details to my email and I'll review them promptly. Looking forward to hearing from you!" |};
    (* Contact Info *)
    {| keywords := [lit "contact"; lit "email"; lit "reach"; lit "phone"; lit "call"];
       reply := lit "You can reach me at " ++ email profile ++ lit ". I typically respond within 24 hours! You can also find me on LinkedIn and GitHub through the social links on this page." |};
    (* Skills & Tech *)
    {| keywords := [lit "skill"; lit "tech"; lit "stack"; lit "programming"; lit "language"];
       reply := lit "Check out my Skills section on this page to see my tech stack! I work with React, TypeScript, and various modern web technologies. Feel free to ask about any specific technology." |};
    (* Experience & Background *)
    {| keywords := [lit "experience"; lit "background"; lit "career"; lit "history"];
       reply := lit "You can find my professional experience in the Experience section of this page. I'm a BSIT student with hands-on experience in web and mobile development!" |};
    (* Education *)
    {| keywords := [lit "education"; lit "school"; lit "university"; lit "degree"; lit "study"];
       reply := lit "I'm currently a 4th year BS Information Technology student. Check out my Experience section for more details about my educational background!" |};
    (* Availability *)
    {| keywords := [lit "available"; lit "free"; lit "busy"];
       reply := lit "I'm currently open to freelance projects and job opportunities! Feel free to share your timeline and requirements, and I'll let you know my availability." |};
    (* Pricing & Rates *)
    {| keywords := [lit "price"; lit "rate"; lit "cost"; lit "budget"; lit "charge"; lit "fee"];
       reply := lit "Pricing depends on the project scope and requirements. Let's discuss your project details first, and I'll provide a fair quote. Send me the specifics via email!" |};
    (* Services *)
    {| keywords := [lit "service"; lit "offer"; lit "provide"; lit "do you do"];
       reply := lit "I offer web development, mobile app development, and UI/UX design services. Check out my Projects section to see examples of my work!" |};
    (* Resume/CV *)
    {| keywords := [lit "resume"; lit "cv"; lit "curriculum"];
       reply := lit "You can download my resume from the link on this page. It has all my skills, experience, and education details!" |};
    (* Location *)
    {| keywords := [lit "location"; lit "where"; lit "based"; lit "country"; lit "city"];
       reply := lit "I'm based in " ++ location profile ++ lit ". I'm open to remote work and collaborations worldwide!" |};
    (* Help *)
    {| keywords := [lit "help"; lit "support"; lit "assist"];
       reply := lit "I'm happy to help! You can ask me about my services, pricing, timeline, or anything else. What would you like to know?" |};
    (* Who are you *)
    {| keywords := [lit "who are you"; lit "about you"; lit "tell me about"; lit "introduce"];
       reply := lit "I'm " ++ name profile ++ lit ", a " ++ title profile ++ lit ". I help businesses and individuals create beautiful, functional websites and apps. Check out the About section to learn more!" |};
    (* Compliments *)
    {| keywords := [lit "nice"; lit "great"; lit "awesome"; lit "cool"; lit "amazing"; lit "love"; lit "beautiful"; lit "impressive"];
       reply := lit "Thank you so much! I really appreciate the kind words. " ++ [55357; 56842] ++ lit " Let me know if there's anything I can help you with!" |};
    (* Interested / Want to work together *)
    {| keywords := [lit "interested"; lit "want to work"; lit "work together"; lit "work with you"];
       reply := lit "That's great to hear! I'd love to work with you. Tell me more about what you need, and let's make it happen! " ++ [55356; 57263] |};
    (* Questions *)
    {| keywords := [lit "?"; lit "how"; lit "what"; lit "when"; lit "why"; lit "can you"];
       reply := lit "Great question! I'm currently away, but I'll get back to you with a detailed answer soon. Feel free to email me for a faster response!" |} ].

Definition fallbackReply : jsstring :=
  lit "Thanks for your message! I'm currently away but I'll get back to you as soon as possible. You can also reach me directly at " ++ email profile ++ lit ". Looking forward to connecting with you!".

Definition ruleMatches (lowered : jsstring) (r : CannedReplyRule) : bool :=
  existsb (includes lowered) (keywords r).

Definition firstMatch (lowered : jsstring) : jsstring :=
  match List.find (ruleMatches lowered) rules with
  | Some r => reply r
  | None => fallbackReply
  end.
End Matcher.

Definition sampleProfile : Profile :=
  {| name := lit "Jay Bee";
     title := lit "Web Developer";
     location := lit "Manila, Philippines";
     email := lit "jay@example.com" |}.

(* ----------------------------------------------------------------- *)
(** ** The chat session ([ChatWidget.tsx]) *)

Inductive Sender : Type := user | owner.

Record ChatMessage : Type := {
  id : jsstring;
  content : jsstring;
  sender : Sender;
  timestamp : Z          (* the time value of the [Date] *)
}.

Record ChatState : Type := {
  isOpen : bool;
  messages : list ChatMessage
}.

(** A callback registered by [setTimeout] in [sendAutoReply] and not yet
    run: the time from which it may run, and the [userMessage] that its
    closure captured. *)
Record Timer : Type := {
  due : Z;
  userMessage : jsstring
}.

(** The state of a mounted widget: the two [useState] cells and the timers
    it has pending. *)
Record Widget : Type := {
  chatState : ChatState;
  inputValue : jsstring;
  timers : list Timer
}.

(** [useState] initial values. *)
Definition mount (initialMessages : list ChatMessage) : Widget :=
  {| chatState := {| isOpen := false; messages := initialMessages |};
     inputValue := [];
     timers := [] |}.

(** [setChatState(prev => f(prev))] *)
Definition setChatState (f : ChatState -> ChatState) (w : Widget) : Widget :=
  {| chatState := f (chatState w); inputValue := inputValue w; timers := timers w |}.

Definition setInputValue (v : jsstring) (w : Widget) : Widget :=
  {| chatState := chatState w; inputValue := v; timers := timers w |}.

(** [setTimeout(callback, delay)] called at time [now]. *)
Definition setTimeout (now : Z) (captured : jsstring) (delay : Z) (w : Widget) : Widget :=
  {| chatState := chatState w;
     inputValue := inputValue w;
     timers := timers w ++ [{| due := now + delay; userMessage := captured |}] |}.

Definition appendMessage (m : ChatMessage) (prev : ChatState) : ChatState :=
  {| isOpen := isOpen prev; messages := messages prev ++ [m] |}.

Definition toggleChat (w : Widget) : Widget :=
  setChatState (fun prev => {| isOpen := negb (isOpen prev); messages := messages prev |}) w.

Section Chat.
Variable profile : Profile.
Variable toLowerCase : jsstring -> jsstring.

(** The body of the callback of [sendAutoReply]; [t_id] is what [Date.now()]
    returns and [t_ts] the time value of [new Date()]. *)
Definition autoReplyCallback (t_id t_ts : Z) (userMessage : jsstring) (w : Widget) : Widget :=
  let replyMessage :=
    {| id := lit "msg-" ++ numberToString t_id;
       content := getAutoReply profile toLowerCase userMessage;
       sender := owner;
       timestamp := t_ts |} in
  setChatState (appendMessage replyMessage) w.

(** [sendAutoReply(userMessage)], called at time [t_set]. *)
Definition sendAutoReply (t_set : Z) (userMessage : jsstring) (w : Widget) : Widget :=
  setTimeout t_set userMessage 1000 w.

(** [handleSendMessage()]; [t_id], [t_ts] and [t_set] are the clock readings
    of [Date.now()], [new Date()] and [setTimeout], in this order. *)
Definition handleSendMessage (t_id t_ts t_set : Z) (w : Widget) : Widget :=
  let trimmedInput := trim (inputValue w) in
  if negb (truthy trimmedInput) then w else
  let newMessage :=
    {| id := lit "msg-" ++ numberToString t_id;
       content := trimmedInput;
       sender := user;
       timestamp := t_ts |} in
  let w1 := setChatState (appendMessage newMessage) w in
  let w2 := setInputValue [] w1 in
  sendAutoReply t_set trimmedInput w2.

(** What can happen to a mounted widget. *)
Inductive event : Type :=
| Toggle                                 (* a click on the chat or close button *)
| Change (value : jsstring)              (* the visitor edits the input *)
| Submit (t_id t_ts t_set : Z)           (* the form is submitted, or Enter *)
| TimerFires (i : nat) (t_id t_ts : Z).  (* the i-th pending callback runs *)

(** A session: the widget and the last reading of the clock.  The clock
    never runs backwards and a timer does not fire before it is due. *)
Record Session : Type := {
  widget : Widget;
  clock : Z
}.

Definition step (e : event) (s : Session) : option Session :=
  let w := widget s in
  match e with
  | Toggle => Some {| widget := toggleChat w; clock := clock s |}
  | Change v => Some {| widget := setInputValue v w; clock := clock s |}
  | Submit t_id t_ts t_set =>
      if (clock s <=? t_id) && (t_id <=? t_ts) && (t_ts <=? t_set)
      then Some {| widget := handleSendMessage t_id t_ts t_set w; clock := t_set |}
      else None
  | TimerFires i t_id t_ts =>
      match timers w !! i with
      | Some tm =>
          if (due tm <=? t_id) && (clock s <=? t_id) && (t_id <=? t_ts)
          then
            let w' := {| chatState := chatState w;
                         inputValue := inputValue w;
                         timers := delete i (timers w) |} in
            Some {| widget := autoReplyCallback t_id t_ts (userMessage tm) w';
                    clock := t_ts |}
          else None
      | None => None
      end
  end.

Fixpoint run (es : list event) (s : Session) : option Session :=
  match es with
  | [] => Some s
  | e :: es' =>
      match step e s with
      | Some s' => run es' s'
      | None => None
      end
  end.
End Chat.

(* ----------------------------------------------------------------- *)
(** ** Notions used to state the properties *)

(** The language of a regular expression. *)
Inductive Matches : regex -> jsstring -> Prop :=
| MEps : Matches REps []
| MChar c : Matches (RChar c) [c]
| MClass n items c : class_matches n items c = true -> Matches (RClass n items) [c]
| MCat r1 r2 s1 s2 : Matches r1 s1 -> Matches r2 s2 -> Matches (RCat r1 r2) (s1 ++ s2)
| MAltL r1 r2 s : Matches r1 s -> Matches (RAlt r1 r2) s
| MAltR r1 r2 s : Matches r2 s -> Matches (RAlt r1 r2) s
| MStarNil r : Matches (RStar r) []
| MStarApp r s1 s2 : Matches r s1 -> Matches (RStar r) s2 -> Matches (RStar r) (s1 ++ s2).

(** A character that is neither white space nor [@]. *)
Definition plainChar (c : Z) : Prop := isWhiteSpace c = false /\ c <> 64.

(** The shape [local@domain.tld]: three non-empty runs of plain characters
    separated by one [@] and one [.] (the runs may contain further dots). *)
Definition emailShape (t : jsstring) : Prop :=
  exists loc dom tld : jsstring,
    t = loc ++ [64] ++ dom ++ [46] ++ tld /\
    loc <> [] /\ dom <> [] /\ tld <> [] /\
    Forall plainChar loc /\ Forall plainChar dom /\ Forall plainChar tld.

(** Number of occurrences of the character [c] in [s]. *)
Definition countChar (c : Z) (s : jsstring) : nat := length (filter (fun x => x = c) s).

(** A validation result is well formed when [error] is null exactly when
    [isValid] is true. *)
Definition wellFormed (r : ValidationResult) : Prop :=
  (isValid r = true /\ error r = None) \/
  (isValid r = false /\ exists e, error r = Some e).

(** Descending order by start date, as the tests of the repository check
    it: each entry's start time is [>=] the next entry's. *)
Definition startsNoEarlier (Date_parse : jsstring -> number) (a b : Experience) : Prop :=
  number_ge (Date_parse (startDate a)) (Date_parse (startDate b)) = true.

Definition validStart (Date_parse : jsstring -> number) (e : Experience) : Prop :=
  is_Some (Date_parse (startDate e)).

(** What ECMAScript requires of [sort] ("Array.prototype.sort", with the
    stability that ECMAScript 2019 added).  [comparefn] is a consistent
    comparator for the elements of [l] when, on them, it never returns
    [NaN] and the three relations that it defines ([= 0], [< 0], [> 0]) are
    reflexive and symmetric, and transitive, respectively. *)
Definition consistentComparator {A : Type} (comparefn : A -> A -> number) (l : list A) : Prop :=
  (forall a b, a ∈ l -> b ∈ l -> is_Some (comparefn a b)) /\
  (forall a, a ∈ l -> SortCompare comparefn a a = 0) /\
  (forall a b, a ∈ l -> b ∈ l ->
               SortCompare comparefn a b = 0 -> SortCompare comparefn b a = 0) /\
  (forall a b c, a ∈ l -> b ∈ l -> c ∈ l ->
                 SortCompare comparefn a b = 0 -> SortCompare comparefn b c = 0 ->
                 SortCompare comparefn a c = 0) /\
  (forall a b c, a ∈ l -> b ∈ l -> c ∈ l ->
                 SortCompare comparefn a b < 0 -> SortCompare comparefn b c < 0 ->
                 SortCompare comparefn a c < 0) /\
  (forall a b c, a ∈ l -> b ∈ l -> c ∈ l ->
                 0 < SortCompare comparefn a b -> 0 < SortCompare comparefn b c ->
                 0 < SortCompare comparefn a c).

(** A sorting procedure conforms when it returns the elements rearranged
    and, for a consistent comparator, in sorted order (no element compares
    below an element placed before it) with the elements that compare equal
    in their original order.  For a comparator that is not consistent "the
    sort order is implementation-defined": nothing but the rearrangement is
    known. *)
Definition conforming (sort : SortProcedure) : Prop :=
  forall (A : Type) (comparefn : A -> A -> number) (l : list A),
    sort A comparefn l ≡ₚ l /\
    (consistentComparator comparefn l ->
     StronglySorted (fun x y => 0 <= SortCompare comparefn y x) (sort A comparefn l) /\
     forall x, x ∈ l ->
       filter (fun y => SortCompare comparefn x y = 0) (sort A comparefn l) =
       filter (fun y => SortCompare comparefn x y = 0) l).

(** The greeting, which is the reply of the first rule. *)
Definition greetingReply (profile : Profile) : jsstring :=
  lit "Hi there! Thanks for reaching out. I'm currently away, but feel free to leave a message or email me at "
    ++ email profile ++ lit ". I'll get back to you soon!".

#[global] Instance Sender_eq_dec : EqDecision Sender.
Proof. solve_decision. Defined.

(** The owner message [r] answers the user message [u]: its content is the
    matcher's reply to the text of [u], and it is stamped at least the delay
    after [u]. *)
Definition answers (profile : Profile) (toLowerCase : jsstring -> jsstring)
    (u r : ChatMessage) : Prop :=
  sender r = owner /\
  content r = getAutoReply profile toLowerCase (content u) /\
  timestamp u + 1000 <= timestamp r.

(** The pending timer [t] was scheduled for the user message [u]. *)
Definition awaits (u : ChatMessage) (t : Timer) : Prop :=
  userMessage t = content u /\ timestamp u + 1000 <= due t.

(** The replies correspond one to one to the user messages sent in the
    session: the messages appended since the widget was mounted are [new];
    each owner message among them answers a user message of its own, and
    each of the remaining user messages has a timer of its own pending. *)
Definition repliesMatchUsers (profile : Profile) (toLowerCase : jsstring -> jsstring)
    (initialMessages : list ChatMessage) (w : Widget) : Prop :=
  exists new answered pending : list ChatMessage,
    messages (chatState w) = initialMessages ++ new /\
    filter (fun m => sender m = user) new ≡ₚ answered ++ pending /\
    Forall2 (answers profile toLowerCase) answered (filter (fun m => sender m = owner) new) /\
    Forall2 awaits pending (timers w).

(** The readings of [Date.now()] in the events [es] are strictly increasing
    and later than [c]: no two handlers run in the same millisecond. *)
Fixpoint distinctReadings (c : Z) (es : list event) : Prop :=
  match es with
  | [] => True
  | Submit t_id _ t_set :: es' => c < t_id /\ distinctReadings t_set es'
  | TimerFires _ t_id t_ts :: es' => c < t_id /\ distinctReadings t_ts es'
  | _ :: es' => distinctReadings c es'
  end.

(** Data for the examples. *)

(** An entry with the given organization and dates. *)
Definition entry (org start : string) (finish : option jsstring) : Experience :=
  {| role := lit "Developer";
     organization := lit org;
     startDate := lit start;
     endDate := finish;
     description := [] |}.
Arguments entry (org start)%_string finish.

(** The two entries of the end-to-end scenario of the specification. *)
Definition twoEntries : list Experience :=
  [entry "first" "2020-01-01" (Some (lit "2021-01-01")); entry "second" "2024-06-01" None].

(** An entry whose start date is not a date, followed by a dated one. *)
Definition undatedFirst : list Experience :=
  [entry "undated" "" None; entry "dated" "2024-06-01" None].

(** Four entries, the third of which has no date. *)
Definition fourEntries : list Experience :=
  [entry "a" "2020-01-01" None; entry "b" "2024-01-01" None;
   entry "c" "" None; entry "d" "2025-01-01" None].

(** Seven entries: one that starts in 2021, five that start on the same
    day of 2022, and, in the third place, one whose start date is not a
    date. *)
Definition sevenEntries : list Experience :=
  [entry "e0" "2021-01-01" None; entry "e1" "2022-01-01" None; entry "x" "" None;
   entry "e3" "2022-01-01" None; entry "e4" "2022-01-01" None;
   entry "e5" "2022-01-01" None; entry "e6" "2022-01-01" None].

(* ----------------------------------------------------------------- *)
(** ** Further functions of the components *)

(** The [disabled] attribute of the send button of the chat window,
    [disabled={!inputValue.trim()}] ([ChatWidget.tsx]). *)
Definition sendButtonDisabled (w : Widget) : bool :=
  negb (truthy (trim (inputValue w))).

(** Number of clicks on the chat button or the close button among the
    events. *)
Fixpoint toggles (es : list event) : nat :=
  match es with
  | [] => 0
  | Toggle :: es' => S (toggles es')
  | _ :: es' => toggles es'
  end.

(** [s.split(/\s+/)]: the pieces of [s] between the maximal runs of white
    space.  A run at the start or at the end of [s] leaves an empty piece
    there, and the empty string gives one empty piece.  [piece] holds the
    current piece in reverse; [inRun] says that the last character read was
    white space. *)
Fixpoint splitRuns (inRun : bool) (piece : jsstring) (s : jsstring) : list jsstring :=
  match s with
  | [] => [rev piece]
  | c :: s' =>
      if isWhiteSpace c
      then (if inRun then splitRuns true piece s'
            else rev piece :: splitRuns true [] s')
      else splitRuns false (c :: piece) s'
  end.

Definition splitWhiteSpace (s : jsstring) : list jsstring := splitRuns false [] s.

(** [text.trim().split(/\s+/).filter(word => word.length > 0).length]
    ([About.tsx]). *)
Definition wordCount (text : jsstring) : Z :=
  Z.of_nat (length (List.filter (fun word => 0 <? jslength word)
                                (splitWhiteSpace (trim text)))).

Definition isValidBioWordCount (text : jsstring) : bool :=
  let wordCount := wordCount text in
  (100 <=? wordCount) && (wordCount <=? 300).

(** [words.join(' ')] *)
Fixpoint joinSpace (words : list jsstring) : jsstring :=
  match words with
  | [] => []
  | [w] => w
  | w :: ws => w ++ [32] ++ joinSpace ws
  end.

(** A short session: the visitor opens the window, types "hi", sends it at
    time 1, and the reply is appended at time 1001. *)
Definition shortSession : list event :=
  [Toggle; Change (lit "hi"); Submit 1 1 1; TimerFires 0 1001 1001].

Definition mounted : Session := {| widget := mount []; clock := 0 |}.

(** The number of maximal runs of characters that are not white space,
    counted in one pass over the text; [inWord] says that the last character
    read was not white space. *)
Fixpoint countRuns (inWord : bool) (s : jsstring) : nat :=
  match s with
  | [] => 0
  | c :: s' =>
      if isWhiteSpace c then countRuns false s'
      else ((if inWord then 0 else 1) + countRuns true s')%nat
  end.

(** The experience timeline ([Experience.tsx]).  The field [year] is a
    JavaScript number: an integer here, or [NaN]. *)
Module Timeline.

Record ExperienceEntry : Type := {
  id : jsstring;
  title : jsstring;
  description : jsstring;
  year : number;
  isCurrent : bool
}.

(** The comparison function [(a, b) => b.year - a.year]. *)
Definition compareByYear (a b : ExperienceEntry) : number :=
  number_sub (year b) (year a).

Definition sortExperienceByYear (sort : SortProcedure) (entries : ref)
    (h : store ExperienceEntry) : option (ref * store ExperienceEntry) :=
  '(copy, h1) ← spread entries h;
  Array_sort sort compareByYear copy h1.

End Timeline.

(** Descending order by a numeric key, as the tests of the repository check
    it ([sorted[i].year >= sorted[i + 1].year]). *)
Definition keyNoEarlier {A : Type} (key : A -> number) (a b : A) : Prop :=
  number_ge (key a) (key b) = true.

(** Three timeline entries: 2019, 2023 (the current one) and 2019 again. *)
Definition timelineEntry (name : string) (y : Z) (current : bool) : Timeline.ExperienceEntry :=
  {| Timeline.id := lit name;
     Timeline.title := lit name;
     Timeline.description := [];
     Timeline.year := Some y;
     Timeline.isCurrent := current |}.
Arguments timelineEntry name%_string y current.


(** Seven timeline entries: 2021, five times 2022, and, in the third place,
    one whose year is [NaN]. *)
Definition sevenYears : list Timeline.ExperienceEntry :=
  [timelineEntry "e0" 2021 false; timelineEntry "e1" 2022 false;
   {| Timeline.id := lit "x"; Timeline.title := lit "x"; Timeline.description := [];
      Timeline.year := None; Timeline.isCurrent := false |};
   timelineEntry "e3" 2022 false; timelineEntry "e4" 2022 false;
   timelineEntry "e5" 2022 false; timelineEntry "e6" 2022 false].

(* ================================================================= *)
(** * Part II: properties *)
(* ================================================================= *)

(* ----------------------------------------------------------------- *)
(** ** Evaluation on examples *)

Example validateName_Al : validateName (lit "Al") = {| isValid := true; error := None |}.
Proof. reflexivity. Qed.

Example validateName_A :
  validateName (lit " A ") =
  {| isValid := false; error := Some (lit "Name must be at least 2 characters") |}.
Proof. reflexivity. Qed.

Example validateEmail_ok : isValid (validateEmail (lit " a@b.com ")) = true.
Proof. reflexivity. Qed.

Example validateEmail_bad :
  validateEmail (lit "missing@domain") =
  {| isValid := false; error := Some (lit "Please enter a valid email address") |}.
Proof. reflexivity. Qed.

Example utcMidnight_2024 : utcMidnight 2024 0 1 = 1704067200000.
Proof. reflexivity. Qed.

Example isoDateParse_2023 : isoDateParse (lit "2023-01-15") = Some 1673740800000.
Proof. reflexivity. Qed.

Example formatDuration_2023 :
  formatDuration isoDateParse utcZone (lit "2023-01-15") None = lit "Jan 2023 - Present".
Proof. reflexivity. Qed.

Example formatDate_behind :
  formatDate isoDateParse fiveHoursBehind (Some (lit "2024-01-01")) = lit "Dec 2023".
Proof. reflexivity. Qed.

Example getAutoReply_bye :
  getAutoReply sampleProfile asciiToLowerCase (lit "Goodbye!") =
  lit "Thanks for chatting! Feel free to come back anytime. Have a great day! "
    ++ [55357; 56395].
Proof. reflexivity. Qed.

Example getAutoReply_where :
  getAutoReply sampleProfile asciiToLowerCase (lit "Where do you live") =
  lit "I'm based in Manila, Philippines. I'm open to remote work and collaborations worldwide!".
Proof. reflexivity. Qed.

Example run_hi :
  (s ← run sampleProfile asciiToLowerCase
         [Change (lit " hi "); Submit 5000 5000 5000; Toggle; TimerFires 0 6001 6001]
         {| widget := mount []; clock := 0 |};
   Some (map (fun m => (id m, sender m, timestamp m)) (messages (chatState (widget s)))))
  = Some [(lit "msg-5000", user, 5000); (lit "msg-6001", owner, 6001)].
Proof. reflexivity. Qed.

(** The end-to-end scenario of the contact form. *)
Example validateContactForm_valid :
  validateContactForm
    {| form_name := lit "Al"; form_email := lit "a@b.com"; form_message := lit "1234567890" |}
  = (true, {| name_error := None; email_error := None; message_error := None |}).
Proof. reflexivity. Qed.

Example validateContactForm_invalid :
  validateContactForm
    {| form_name := []; form_email := lit "bad"; form_message := lit "short" |}
  = (false,
     {| name_error := Some (lit "Name is required");
        email_error := Some (lit "Please enter a valid email address");
        message_error := Some (lit "Message must be at least 10 characters") |}).
Proof. reflexivity. Qed.

(** A message with a greeting and keywords of later rules gets the
    greeting. *)
Example getAutoReply_priority :
  getAutoReply sampleProfile asciiToLowerCase (lit "Hello, what is your price?") =
  greetingReply sampleProfile.
Proof. reflexivity. Qed.

(** The keywords are substrings, not words: "this" contains "hi". *)
Example getAutoReply_substring :
  getAutoReply sampleProfile asciiToLowerCase (lit "Is this your portfolio") =
  greetingReply sampleProfile.
Proof. reflexivity. Qed.

(* ----------------------------------------------------------------- *)
(** ** Strings *)

Lemma trimStart_decompose (s : jsstring) :
  exists pre, s = pre ++ trimStart s /\ Forall (fun c => isWhiteSpace c = true) pre.
Proof.
  induction s as [|c s IH]; simpl.
  - exists []. split; [reflexivity | constructor].
  - destruct (isWhiteSpace c) eqn:Hc.
    + destruct IH as (pre & Heq & Hpre).
      exists (c :: pre). split.
      * simpl. congruence.
      * constructor; assumption.
    + exists []. split; [reflexivity | constructor].
Qed.

(** [trim] only removes white space, at the two ends. *)
Lemma trim_decompose (s : jsstring) :
  exists pre post,
    s = pre ++ trim s ++ post /\
    Forall (fun c => isWhiteSpace c = true) pre /\
    Forall (fun c => isWhiteSpace c = true) post.
Proof.
  destruct (trimStart_decompose s) as (pre & Hs & Hpre).
  destruct (trimStart_decompose (rev (trimStart s))) as (q & Hq & Hws).
  exists pre, (rev q). repeat split; try assumption.
  - unfold trim, trimEnd.
    rewrite <- rev_app_distr, <- Hq, rev_involutive. exact Hs.
  - apply Forall_rev. exact Hws.
Qed.

(** What is left starts and ends with a character that is not white space. *)
Lemma trimStart_head (s : jsstring) c t :
  trimStart s = c :: t -> isWhiteSpace c = false.
Proof.
  induction s as [|d s IH]; simpl; [discriminate|].
  destruct (isWhiteSpace d) eqn:Hd; [exact IH|].
  intros [= -> _]. exact Hd.
Qed.

Lemma trim_ends (s : jsstring) :
  match trim s with
  | [] => True
  | c :: _ => isWhiteSpace c = false
  end /\
  match rev (trim s) with
  | [] => True
  | c :: _ => isWhiteSpace c = false
  end.
Proof.
  unfold trim, trimEnd. rewrite rev_involutive. split.
  - destruct (trimStart s) as [|c t] eqn:Ht; [exact I|].
    pose proof (trimStart_head _ _ _ Ht) as Hc.
    simpl.
    destruct (trimStart (rev t ++ [c])) as [|d u] eqn:Hu.
    + exfalso.
      destruct (trimStart_decompose (rev t ++ [c])) as (pre & Heq & Hpre).
      rewrite Hu, app_nil_r in Heq. subst pre.
      apply Forall_app in Hpre as [_ Hpre].
      inversion Hpre; congruence.
    + destruct (trimStart_decompose (rev t ++ [c])) as (pre & Heq & Hpre).
      rewrite Hu in Heq.
      assert (Hrev : c :: t = rev (d :: u) ++ rev pre).
      { rewrite <- rev_app_distr, <- Heq, rev_app_distr, rev_involutive. reflexivity. }
      destruct (rev (d :: u)) as [|e v] eqn:Hv.
      * apply (f_equal (@length Z)) in Hv. rewrite length_rev in Hv. discriminate.
      * simpl in Hrev. injection Hrev as <- _. exact Hc.
  - destruct (trimStart (rev (trimStart s))) as [|c t] eqn:Ht; [exact I|].
    exact (trimStart_head _ _ _ Ht).
Qed.

Lemma countChar_app c (s t : jsstring) :
  countChar c (s ++ t) = (countChar c s + countChar c t)%nat.
Proof. unfold countChar. rewrite filter_app, length_app. reflexivity. Qed.

Lemma countChar_none c (s : jsstring) :
  Forall (fun x => x <> c) s -> countChar c s = 0%nat.
Proof.
  unfold countChar. induction 1 as [|x s Hx _ IH]; [reflexivity|].
  rewrite filter_cons. destruct (decide (x = c)); [contradiction | exact IH].
Qed.

Lemma countChar_trim (s : jsstring) : countChar 64 (trim s) = countChar 64 s.
Proof.
  destruct (trim_decompose s) as (pre & post & Hs & Hpre & Hpost).
  rewrite Hs at 2. rewrite !countChar_app.
  rewrite (countChar_none 64 pre), (countChar_none 64 post); [lia | |];
    eapply Forall_impl; try eassumption; intros x Hx ->; discriminate.
Qed.

Lemma startsWith_app (p s : jsstring) : startsWith p (p ++ s) = true.
Proof. induction p as [|a p IH]; simpl; [reflexivity|]. rewrite Z.eqb_refl. exact IH. Qed.

Lemma startsWith_prefix (p s : jsstring) :
  startsWith p s = true <-> exists t, s = p ++ t.
Proof.
  split.
  - revert s. induction p as [|a p IH]; intros s H; simpl in *.
    + exists s. reflexivity.
    + destruct s as [|b s]; [discriminate|].
      apply andb_prop in H as [Hab H]. apply Z.eqb_eq in Hab. subst b.
      destruct (IH _ H) as (t & ->). exists t. reflexivity.
  - intros (t & ->). apply startsWith_app.
Qed.

(** [includes] is the substring relation. *)
Lemma includes_spec (s p : jsstring) :
  includes s p = true <-> exists a b, s = a ++ p ++ b.
Proof.
  split.
  - induction s as [|c s IH]; simpl; intros H.
    + rewrite orb_false_r in H. apply startsWith_prefix in H as (t & Ht).
      exists [], t. exact Ht.
    + apply orb_prop in H as [H|H].
      * apply startsWith_prefix in H as (t & Ht). exists [], t. exact Ht.
      * destruct (IH H) as (a & b & ->). exists (c :: a), b. reflexivity.
  - intros (a & b & ->). induction a as [|c a IH]; simpl.
    + pose proof (startsWith_app p b) as H.
      destruct (p ++ b); simpl; rewrite H; reflexivity.
    + rewrite IH. apply orb_true_r.
Qed.

(* ----------------------------------------------------------------- *)
(** ** Regular expressions: the derivative matcher decides the language *)

Lemma nullable_spec (r : regex) : nullable r = true <-> Matches r [].
Proof.
  split.
  - induction r; simpl; intros H; try discriminate.
    + constructor.
    + apply andb_prop in H as [H1 H2].
      apply (MCat _ _ [] []); auto.
    + apply orb_prop in H as [H|H]; [apply MAltL | apply MAltR]; auto.
    + constructor.
  - intros H. remember [] as s eqn:Hs.
    induction H; simpl; try discriminate; try reflexivity.
    + apply app_eq_nil in Hs as [-> ->]. rewrite IHMatches1, IHMatches2; reflexivity.
    + rewrite IHMatches; [reflexivity | assumption].
    + rewrite IHMatches; [apply orb_true_r | assumption].
Qed.

Lemma deriv_sound (c : Z) (r : regex) :
  forall s, Matches (deriv c r) s -> Matches r (c :: s).
Proof.
  induction r as [| |d|n items|r1 IH1 r2 IH2|r1 IH1 r2 IH2|r1 IH1]; simpl; intros s H.
  - inversion H.
  - inversion H.
  - destruct (c =? d) eqn:E; inversion H; subst.
    apply Z.eqb_eq in E. subst d. constructor.
  - destruct (class_matches n items c) eqn:E; inversion H; subst.
    constructor. exact E.
  - destruct (nullable r1) eqn:N.
    + inversion H as [| | | |? ? ? H'|? ? ? H'| |]; subst.
      * inversion H' as [| | |? ? s1 s2 Ha Hb| | | |]; subst.
        apply (MCat r1 r2 (c :: s1) s2); auto.
      * apply (MCat r1 r2 [] (c :: s)); [apply nullable_spec; exact N | auto].
    + inversion H as [| | |? ? s1 s2 Ha Hb| | | |]; subst.
      apply (MCat r1 r2 (c :: s1) s2); auto.
  - inversion H; subst; [apply MAltL | apply MAltR]; auto.
  - inversion H as [| | |? ? s1 s2 Ha Hb| | | |]; subst.
    apply (MStarApp r1 (c :: s1) s2); auto.
Qed.

Lemma deriv_complete (c : Z) (r : regex) (cs : jsstring) :
  Matches r cs -> forall s, cs = c :: s -> Matches (deriv c r) s.
Proof.
  induction 1 as [|d|n items d Hd|r1 r2 s1 s2 H1 IH1 H2 IH2|r1 r2 s0 H0 IH0
                  |r1 r2 s0 H0 IH0|r0|r0 s1 s2 H1 IH1 H2 IH2];
    intros s E; simpl.
  - discriminate.
  - injection E as -> <-. rewrite Z.eqb_refl. constructor.
  - injection E as -> <-. rewrite Hd. constructor.
  - destruct s1 as [|c1 s1]; simpl in E.
    + apply nullable_spec in H1. rewrite H1. apply MAltR. auto.
    + injection E as -> <-.
      assert (Matches (RCat (deriv c r1) r2) (s1 ++ s2)) by (constructor; auto).
      destruct (nullable r1); [apply MAltL|]; assumption.
  - apply MAltL. auto.
  - apply MAltR. auto.
  - discriminate.
  - destruct s1 as [|c1 s1]; simpl in E.
    + apply (IH2 _ E).
    + injection E as -> <-. constructor; auto.
Qed.

Theorem test_anchored_spec (r : regex) (s : jsstring) :
  test_anchored r s = true <-> Matches r s.
Proof.
  revert r. induction s as [|c s IH]; intros r; simpl.
  - apply nullable_spec.
  - rewrite IH. split.
    + apply deriv_sound.
    + intros H. eapply deriv_complete; eauto.
Qed.

(* ----------------------------------------------------------------- *)
(** ** The e-mail pattern *)

Lemma notSpaceNorAt_plain (c : Z) :
  class_matches true [CSpace; CChar 64] c = true <-> plainChar c.
Proof.
  unfold class_matches, plainChar. simpl. rewrite orb_false_r.
  destruct (isWhiteSpace c); simpl.
  - split; [discriminate | intros [? _]; discriminate].
  - destruct (Z.eqb_spec c 64); simpl; split; intros H; try discriminate; auto.
    destruct H as [_ H]. contradiction.
Qed.

Lemma Matches_star_plain (s : jsstring) :
  Matches (RStar notSpaceNorAt) s <-> Forall plainChar s.
Proof.
  split.
  - intros H. remember (RStar notSpaceNorAt) as r eqn:Hr.
    induction H as [| | | | | | |r0 s1 s2 H1 _ H2 IH2]; try discriminate.
    + constructor.
    + injection Hr as ->. apply Forall_app. split; [|auto].
      inversion H1 as [| |? ? c Hc| | | | |]; subst.
      constructor; [apply notSpaceNorAt_plain; exact Hc | constructor].
  - induction 1 as [|c s Hc _ IH].
    + constructor.
    + apply (MStarApp notSpaceNorAt [c] s); [|exact IH].
      constructor. apply notSpaceNorAt_plain. exact Hc.
Qed.

Lemma Matches_plus_plain (s : jsstring) :
  Matches (RPlus notSpaceNorAt) s <-> s <> [] /\ Forall plainChar s.
Proof.
  unfold RPlus. split.
  - intros H. inversion H as [| | |? ? s1 s2 H1 H2| | | |]; subst.
    inversion H1 as [| |? ? c Hc| | | | |]; subst.
    split; [discriminate|].
    constructor; [apply notSpaceNorAt_plain; exact Hc | apply Matches_star_plain; exact H2].
  - intros [Hne H]. destruct s as [|c s]; [contradiction|].
    inversion H; subst.
    apply (MCat notSpaceNorAt _ [c] s).
    + constructor. apply notSpaceNorAt_plain. assumption.
    + apply Matches_star_plain. assumption.
Qed.

(** The pattern of the source accepts exactly the strings of the shape
    [local@domain.tld]. *)
Theorem emailRegex_shape (t : jsstring) :
  test_anchored emailRegex t = true <-> emailShape t.
Proof.
  rewrite test_anchored_spec. unfold emailRegex, emailShape. split.
  - intros H.
    inversion H as [| | |? ? loc r1 Hloc H1| | | |]; subst.
    inversion H1 as [| | |? ? at_ r2 Hat H2| | | |]; subst.
    inversion H2 as [| | |? ? dom r3 Hdom H3| | | |]; subst.
    inversion H3 as [| | |? ? dot tld Hdot Htld| | | |]; subst.
    inversion Hat; subst. inversion Hdot; subst.
    apply Matches_plus_plain in Hloc as [? ?].
    apply Matches_plus_plain in Hdom as [? ?].
    apply Matches_plus_plain in Htld as [? ?].
    exists loc, dom, tld. repeat split; assumption.
  - intros (loc & dom & tld & -> & ? & ? & ? & ? & ? & ?).
    repeat (constructor; try (apply Matches_plus_plain; split; assumption)).
Qed.

Lemma emailShape_one_at (t : jsstring) : emailShape t -> countChar 64 t = 1%nat.
Proof.
  intros (loc & dom & tld & -> & _ & _ & _ & Hl & Hd & Ht).
  assert (no_at : forall u, Forall plainChar u -> countChar 64 u = 0%nat).
  { intros u Hu. apply countChar_none.
    eapply Forall_impl; [exact Hu|]. intros x [_ Hx]. exact Hx. }
  rewrite !countChar_app, (no_at loc), (no_at dom), (no_at tld) by assumption.
  reflexivity.
Qed.

(* ----------------------------------------------------------------- *)
(** ** Form validation *)

Lemma truthy_false (s : jsstring) : truthy s = false <-> s = [].
Proof. destruct s; simpl; split; congruence. Qed.

Lemma jslength_nil_iff (s : jsstring) : jslength s = 0 <-> s = [].
Proof.
  unfold jslength. destruct s; simpl; split; try reflexivity; try discriminate; lia.
Qed.

(** The three checks of [validateName] and [validateMessage], on the length
    of the trimmed value. *)
Lemma required_valid (value fieldName : jsstring) :
  isValid (required value fieldName) = true <-> trim value <> [].
Proof.
  unfold required. destruct (trim value); simpl; split; congruence.
Qed.

Lemma minLength_valid (value : jsstring) (min : Z) (fieldName : jsstring) :
  isValid (minLength value min fieldName) = true <-> min <= jslength (trim value).
Proof.
  unfold minLength. destruct (Z.ltb_spec (jslength (trim value)) min); simpl;
    split; try discriminate; try reflexivity; lia.
Qed.

Lemma maxLength_valid (value : jsstring) (max : Z) (fieldName : jsstring) :
  isValid (maxLength value max fieldName) = true <-> jslength (trim value) <= max.
Proof.
  unfold maxLength. destruct (Z.ltb_spec max (jslength (trim value))); simpl;
    split; try discriminate; try reflexivity; lia.
Qed.

Lemma required_wellFormed value fieldName : wellFormed (required value fieldName).
Proof.
  unfold required, wellFormed. destruct (negb (truthy (trim value))); simpl; eauto.
Qed.

Lemma minLength_wellFormed value min fieldName : wellFormed (minLength value min fieldName).
Proof.
  unfold minLength, wellFormed. destruct (jslength (trim value) <? min); simpl; eauto.
Qed.

Lemma maxLength_wellFormed value max fieldName : wellFormed (maxLength value max fieldName).
Proof.
  unfold maxLength, wellFormed. destruct (max <? jslength (trim value)); simpl; eauto.
Qed.

Lemma validateName_valid (s : jsstring) :
  isValid (validateName s) = true <-> 2 <= jslength (trim s) <= 100.
Proof.
  pose proof (required_valid s (lit "Name")) as Hr.
  pose proof (minLength_valid s 2 (lit "Name")) as Hmin.
  pose proof (maxLength_valid s 100 (lit "Name")) as Hmax.
  pose proof (jslength_nil_iff (trim s)) as Hnil.
  unfold validateName.
  destruct (isValid (required s (lit "Name"))) eqn:E1; simpl.
  - destruct (isValid (minLength s 2 (lit "Name"))) eqn:E2; simpl.
    + destruct (isValid (maxLength s 100 (lit "Name"))) eqn:E3; simpl.
      * split; [intros _|reflexivity]. split; [apply Hmin | apply Hmax]; reflexivity.
      * rewrite E3. split; [discriminate|]. intros [_ H]. apply Hmax. exact H.
    + rewrite E2. split; [discriminate|]. intros [H _]. apply Hmin. exact H.
  - rewrite E1. split; [discriminate|]. intros [H _]. apply Hr. intros Hn.
    apply Hnil in Hn. lia.
Qed.

Lemma validateMessage_valid (s : jsstring) :
  isValid (validateMessage s) = true <-> 10 <= jslength (trim s) <= 1000.
Proof.
  pose proof (required_valid s (lit "Message")) as Hr.
  pose proof (minLength_valid s 10 (lit "Message")) as Hmin.
  pose proof (maxLength_valid s 1000 (lit "Message")) as Hmax.
  pose proof (jslength_nil_iff (trim s)) as Hnil.
  unfold validateMessage.
  destruct (isValid (required s (lit "Message"))) eqn:E1; simpl.
  - destruct (isValid (minLength s 10 (lit "Message"))) eqn:E2; simpl.
    + destruct (isValid (maxLength s 1000 (lit "Message"))) eqn:E3; simpl.
      * split; [intros _|reflexivity]. split; [apply Hmin | apply Hmax]; reflexivity.
      * rewrite E3. split; [discriminate|]. intros [_ H]. apply Hmax. exact H.
    + rewrite E2. split; [discriminate|]. intros [H _]. apply Hmin. exact H.
  - rewrite E1. split; [discriminate|]. intros [H _]. apply Hr. intros Hn.
    apply Hnil in Hn. lia.
Qed.

Lemma validateName_wellFormed (s : jsstring) : wellFormed (validateName s).
Proof.
  unfold validateName.
  destruct (isValid (required s (lit "Name"))); simpl; [|apply required_wellFormed].
  destruct (isValid (minLength s 2 (lit "Name"))); simpl; [|apply minLength_wellFormed].
  destruct (isValid (maxLength s 100 (lit "Name"))); simpl; [|apply maxLength_wellFormed].
  left. split; reflexivity.
Qed.

Lemma validateMessage_wellFormed (s : jsstring) : wellFormed (validateMessage s).
Proof.
  unfold validateMessage.
  destruct (isValid (required s (lit "Message"))); simpl; [|apply required_wellFormed].
  destruct (isValid (minLength s 10 (lit "Message"))); simpl; [|apply minLength_wellFormed].
  destruct (isValid (maxLength s 1000 (lit "Message"))); simpl; [|apply maxLength_wellFormed].
  left. split; reflexivity.
Qed.

Lemma validateName_required (s : jsstring) :
  error (validateName s) = Some (lit "Name is required") <-> trim s = [].
Proof.
  unfold validateName, required, minLength, maxLength.
  destruct (trim s) as [|c t] eqn:Et; simpl.
  - split; reflexivity.
  - destruct (jslength (c :: t) <? 2); simpl; [split; discriminate|].
    destruct (100 <? jslength (c :: t)); simpl; split; discriminate.
Qed.

(** C9. The length-window validators accept exactly their windows on the
    trimmed input: [validateName s] is valid if and only if the trimmed
    length is between 2 and 100 (so lengths 1 and 101 are invalid), an empty
    trimmed name gives "Name is required", [validateMessage s] is valid if
    and only if the trimmed length is between 10 and 1000 (so 9 and 1001 are
    invalid), and each result is either valid with a null error or invalid
    with a non-null error. *)
Theorem validate_length_windows (s : jsstring) :
  (isValid (validateName s) = true <-> 2 <= jslength (trim s) <= 100) /\
  (error (validateName s) = Some (lit "Name is required") <-> trim s = []) /\
  (isValid (validateMessage s) = true <-> 10 <= jslength (trim s) <= 1000) /\
  wellFormed (validateName s) /\
  wellFormed (validateMessage s).
Proof.
  split; [apply validateName_valid|].
  split; [apply validateName_required|].
  split; [apply validateMessage_valid|].
  split; [apply validateName_wellFormed | apply validateMessage_wellFormed].
Qed.

(** The boundary lengths of the two windows, on concrete inputs. *)
Example validate_boundaries :
  isValid (validateName (lit " a ")) = false /\
  isValid (validateName (repeat 97 2)) = true /\
  isValid (validateName (repeat 97 100)) = true /\
  isValid (validateName (repeat 97 101)) = false /\
  isValid (validateMessage (repeat 97 9)) = false /\
  isValid (validateMessage (32 :: repeat 97 10)) = true /\
  isValid (validateMessage (repeat 97 1000)) = true /\
  isValid (validateMessage (repeat 97 1001)) = false.
Proof. vm_compute. repeat split. Qed.

(** C8. [validateEmail s] fails with "Email is required" when the trimmed
    value is empty, fails with "Please enter a valid email address" when the
    non-empty trimmed value does not have the shape [local@domain.tld], and
    succeeds with a null error otherwise; a string whose number of [@] signs
    is not one fails. *)
Theorem validateEmail_spec (s : jsstring) :
  ((trim s = [] /\
    validateEmail s = {| isValid := false; error := Some (lit "Email is required") |})
   \/
   (trim s <> [] /\ ~ emailShape (trim s) /\
    validateEmail s =
      {| isValid := false; error := Some (lit "Please enter a valid email address") |})
   \/
   (trim s <> [] /\ emailShape (trim s) /\
    validateEmail s = {| isValid := true; error := None |}))
  /\
  (countChar 64 s <> 1%nat -> isValid (validateEmail s) = false).
Proof.
  assert (Hcases :
    (trim s = [] /\
     validateEmail s = {| isValid := false; error := Some (lit "Email is required") |})
    \/
    (trim s <> [] /\ ~ emailShape (trim s) /\
     validateEmail s =
       {| isValid := false; error := Some (lit "Please enter a valid email address") |})
    \/
    (trim s <> [] /\ emailShape (trim s) /\
     validateEmail s = {| isValid := true; error := None |})).
  { unfold validateEmail, isValidEmail.
    destruct (trim s) as [|c t] eqn:Et; cbn [truthy negb].
    - left. split; reflexivity.
    - right. destruct (test_anchored emailRegex (c :: t)) eqn:Em; cbn [negb].
      + right. split; [discriminate|]. split; [apply emailRegex_shape; exact Em | reflexivity].
      + left. split; [discriminate|]. split; [|reflexivity].
        intros Hs. apply emailRegex_shape in Hs. congruence. }
  split; [exact Hcases|].
  intros Hcount.
  destruct Hcases as [[_ ->]|[(_ & _ & ->)|(_ & Hshape & _)]]; try reflexivity.
  apply emailShape_one_at in Hshape. rewrite countChar_trim in Hshape. contradiction.
Qed.

(** Strings without [@], with two [@], without a dot after the [@], or with
    white space inside are rejected; the shape is accepted. *)
Example validateEmail_examples :
  isValid (validateEmail (lit "a@b.com")) = true /\
  isValid (validateEmail (lit "first.last@mail.example.org")) = true /\
  isValid (validateEmail (lit "notanemail")) = false /\
  isValid (validateEmail (lit "a@b@c.com")) = false /\
  isValid (validateEmail (lit "missing@domain")) = false /\
  isValid (validateEmail (lit "@nodomain.com")) = false /\
  isValid (validateEmail (lit "spaces in@email.com")) = false /\
  validateEmail (lit "   ") = {| isValid := false; error := Some (lit "Email is required") |}.
Proof. vm_compute. repeat split. Qed.

(* ----------------------------------------------------------------- *)
(** ** Sorting *)

(** *** Consistent comparators *)

Section ConsistentFacts.
Context {A : Type} (cmp : A -> A -> number) (u : list A).
Hypothesis Hcc : consistentComparator cmp u.

Lemma cc_refl (a : A) : a ∈ u -> SortCompare cmp a a = 0.
Proof using Hcc. destruct Hcc as (_ & H & _). apply H. Qed.

Lemma cc_sym (a b : A) :
  a ∈ u -> b ∈ u -> SortCompare cmp a b = 0 -> SortCompare cmp b a = 0.
Proof using Hcc. destruct Hcc as (_ & _ & H & _). apply H. Qed.

Lemma cc_eq_trans (a b c : A) :
  a ∈ u -> b ∈ u -> c ∈ u ->
  SortCompare cmp a b = 0 -> SortCompare cmp b c = 0 -> SortCompare cmp a c = 0.
Proof using Hcc. destruct Hcc as (_ & _ & _ & H & _). apply H. Qed.

Lemma cc_lt_trans (a b c : A) :
  a ∈ u -> b ∈ u -> c ∈ u ->
  SortCompare cmp a b < 0 -> SortCompare cmp b c < 0 -> SortCompare cmp a c < 0.
Proof using Hcc. destruct Hcc as (_ & _ & _ & _ & H & _). apply H. Qed.

Lemma cc_gt_trans (a b c : A) :
  a ∈ u -> b ∈ u -> c ∈ u ->
  0 < SortCompare cmp a b -> 0 < SortCompare cmp b c -> 0 < SortCompare cmp a c.
Proof using Hcc. destruct Hcc as (_ & _ & _ & _ & _ & H). apply H. Qed.

(** The two directions of a comparison agree. *)
Lemma cc_lt_gt (a b : A) :
  a ∈ u -> b ∈ u -> SortCompare cmp a b < 0 -> 0 < SortCompare cmp b a.
Proof using Hcc.
  intros Ha Hb Hlt.
  destruct (Z.lt_trichotomy (SortCompare cmp b a) 0) as [H|[H|H]]; [| |exact H].
  - pose proof (cc_lt_trans a b a Ha Hb Ha Hlt H). pose proof (cc_refl a Ha). lia.
  - pose proof (cc_sym b a Hb Ha H). lia.
Qed.

Lemma cc_gt_lt (a b : A) :
  a ∈ u -> b ∈ u -> 0 < SortCompare cmp a b -> SortCompare cmp b a < 0.
Proof using Hcc.
  intros Ha Hb Hgt.
  destruct (Z.lt_trichotomy (SortCompare cmp b a) 0) as [H|[H|H]]; [exact H| |].
  - pose proof (cc_sym b a Hb Ha H). lia.
  - pose proof (cc_gt_trans a b a Ha Hb Ha Hgt H). pose proof (cc_refl a Ha). lia.
Qed.

Lemma cc_le_ge (a b : A) :
  a ∈ u -> b ∈ u -> SortCompare cmp a b <= 0 -> 0 <= SortCompare cmp b a.
Proof using Hcc.
  intros Ha Hb H. destruct (Z.eq_dec (SortCompare cmp a b) 0) as [E|E].
  - rewrite (cc_sym a b Ha Hb E). lia.
  - pose proof (cc_lt_gt a b Ha Hb). lia.
Qed.

Lemma cc_ge_le (a b : A) :
  a ∈ u -> b ∈ u -> 0 <= SortCompare cmp a b -> SortCompare cmp b a <= 0.
Proof using Hcc.
  intros Ha Hb H. destruct (Z.eq_dec (SortCompare cmp a b) 0) as [E|E].
  - rewrite (cc_sym a b Ha Hb E). lia.
  - pose proof (cc_gt_lt a b Ha Hb). lia.
Qed.

Lemma cc_lt_eq_trans (a b c : A) :
  a ∈ u -> b ∈ u -> c ∈ u ->
  SortCompare cmp a b < 0 -> SortCompare cmp b c = 0 -> SortCompare cmp a c < 0.
Proof using Hcc.
  intros Ha Hb Hc Hab Hbc.
  destruct (Z.lt_trichotomy (SortCompare cmp a c) 0) as [H|[H|H]]; [exact H| |].
  - pose proof (cc_sym a c Ha Hc H) as Hca.
    pose proof (cc_eq_trans b c a Hb Hc Ha Hbc Hca) as Hba.
    pose proof (cc_sym b a Hb Ha Hba). lia.
  - pose proof (cc_gt_lt a c Ha Hc H) as Hca.
    pose proof (cc_lt_trans c a b Hc Ha Hb Hca Hab) as Hcb.
    pose proof (cc_sym b c Hb Hc Hbc). lia.
Qed.

Lemma cc_eq_lt_trans (a b c : A) :
  a ∈ u -> b ∈ u -> c ∈ u ->
  SortCompare cmp a b = 0 -> SortCompare cmp b c < 0 -> SortCompare cmp a c < 0.
Proof using Hcc.
  intros Ha Hb Hc Hab Hbc.
  destruct (Z.lt_trichotomy (SortCompare cmp a c) 0) as [H|[H|H]]; [exact H| |].
  - pose proof (cc_sym a b Ha Hb Hab) as Hba.
    pose proof (cc_eq_trans b a c Hb Ha Hc Hba H). lia.
  - pose proof (cc_gt_lt a c Ha Hc H) as Hca.
    pose proof (cc_lt_trans b c a Hb Hc Ha Hbc Hca) as Hba.
    pose proof (cc_sym a b Ha Hb Hab). lia.
Qed.

Lemma cc_lt_le_trans (a b c : A) :
  a ∈ u -> b ∈ u -> c ∈ u ->
  SortCompare cmp a b < 0 -> SortCompare cmp b c <= 0 -> SortCompare cmp a c < 0.
Proof using Hcc.
  intros Ha Hb Hc Hab Hbc. destruct (Z.eq_dec (SortCompare cmp b c) 0) as [E|E].
  - apply (cc_lt_eq_trans a b c); assumption.
  - apply (cc_lt_trans a b c); try assumption. lia.
Qed.

Lemma cc_le_trans (a b c : A) :
  a ∈ u -> b ∈ u -> c ∈ u ->
  SortCompare cmp a b <= 0 -> SortCompare cmp b c <= 0 -> SortCompare cmp a c <= 0.
Proof using Hcc.
  intros Ha Hb Hc Hab Hbc. destruct (Z.eq_dec (SortCompare cmp a b) 0) as [E|E].
  - destruct (Z.eq_dec (SortCompare cmp b c) 0) as [E'|E'].
    + rewrite (cc_eq_trans a b c Ha Hb Hc E E'). lia.
    + pose proof (cc_eq_lt_trans a b c Ha Hb Hc E). lia.
  - pose proof (cc_lt_le_trans a b c Ha Hb Hc). lia.
Qed.

(** Two elements that compare equal to a third compare equal. *)
Lemma cc_same_class (z a b : A) :
  z ∈ u -> a ∈ u -> b ∈ u ->
  SortCompare cmp z a = 0 -> SortCompare cmp z b = 0 -> SortCompare cmp a b = 0.
Proof using Hcc.
  intros Hz Ha Hb Hza Hzb.
  apply (cc_eq_trans a z b); try assumption. apply cc_sym; assumption.
Qed.

(** "Placed before" is transitive: [x] may precede [y] when [y] does not
    compare below [x]. *)
Lemma cc_before_trans (a b c : A) :
  a ∈ u -> b ∈ u -> c ∈ u ->
  0 <= SortCompare cmp b a -> 0 <= SortCompare cmp c b -> 0 <= SortCompare cmp c a.
Proof using Hcc.
  intros Ha Hb Hc Hba Hcb.
  apply cc_le_ge; try assumption.
  apply (cc_le_trans a b c); try assumption; apply cc_ge_le; assumption.
Qed.
End ConsistentFacts.

(** *** Lists in order *)

(** Adjacent order gives order between all pairs when the relation is
    transitive on the elements of the list. *)
Lemma Sorted_StronglySorted_on {A : Type} (R : A -> A -> Prop) (l : list A) :
  (forall a b c, a ∈ l -> b ∈ l -> c ∈ l -> R a b -> R b c -> R a c) ->
  Sorted R l -> StronglySorted R l.
Proof.
  intros Htrans Hs. induction Hs as [|a l Hs IH Hhd]; [constructor|].
  assert (Hl : StronglySorted R l).
  { apply IH. intros x y z Hx Hy Hz. apply Htrans; right; assumption. }
  constructor; [exact Hl|].
  destruct l as [|b l']; [constructor|].
  inversion Hhd as [|? ? Hab]; subst.
  inversion Hl as [|? ? _ Hall]; subst.
  constructor; [exact Hab|].
  rewrite Forall_forall in *. intros c Hc.
  apply (Htrans a b c); [left | right; left | right; right; exact Hc | exact Hab |].
  apply Hall. exact Hc.
Qed.

Lemma StronglySorted_weaken {A : Type} (R1 R2 : A -> A -> Prop) (l : list A) :
  (forall a b, a ∈ l -> b ∈ l -> R1 a b -> R2 a b) ->
  StronglySorted R1 l -> StronglySorted R2 l.
Proof.
  intros Himpl Hs. induction Hs as [|a l Hs IH Hall]; [constructor|].
  constructor.
  - apply IH. intros x y Hx Hy. apply Himpl; right; assumption.
  - rewrite Forall_forall in *. intros b Hb.
    apply Himpl; [left | right; exact Hb | apply Hall; exact Hb].
Qed.

Lemma StronglySorted_reverse {A : Type} (R : A -> A -> Prop) (l : list A) :
  StronglySorted R l -> StronglySorted (fun a b => R b a) (reverse l).
Proof.
  induction 1 as [|a l Hs IH Hall]; [constructor|].
  rewrite reverse_cons. apply StronglySorted_app_2.
  - intros x1 x2 Hx1 Hx2. apply list_elem_of_singleton in Hx2. subst x2.
    rewrite Forall_forall in Hall. apply Hall. apply elem_of_reverse. exact Hx1.
  - exact IH.
  - repeat constructor.
Qed.

Lemma filter_none {A : Type} (P : A -> Prop) `{forall a, Decision (P a)} (l : list A) :
  Forall (fun a => ~ P a) l -> filter P l = [].
Proof.
  induction 1 as [|a l Ha _ IH]; [reflexivity|].
  rewrite filter_cons. destruct (decide (P a)); [contradiction | exact IH].
Qed.

Lemma filter_agree {A : Type} (P Q : A -> Prop) `{forall a, Decision (P a)}
    `{forall a, Decision (Q a)} (l : list A) :
  Forall (fun a => P a <-> Q a) l -> filter P l = filter Q l.
Proof.
  induction 1 as [|a l Ha _ IH]; [reflexivity|].
  rewrite !filter_cons, IH.
  destruct (decide (P a)), (decide (Q a)); tauto.
Qed.

(** *** Insertion conforms *)

Lemma sort_insert_perm {A : Type} (f : A -> A -> number) (x : A) (l : list A) :
  sort_insert f x l ≡ₚ x :: l.
Proof.
  induction l as [|y l IH]; simpl; [reflexivity|].
  destruct (0 <? SortCompare f x y); [|reflexivity].
  rewrite IH. apply Permutation_swap.
Qed.

Lemma sorted_copy_perm {A : Type} (f : A -> A -> number) (l : list A) :
  sorted_copy f l ≡ₚ l.
Proof.
  induction l as [|x l IH]; simpl; [reflexivity|].
  rewrite sort_insert_perm, IH. reflexivity.
Qed.

(** An element only moves behind elements that the comparison puts strictly
    before it, so the elements selected by [P] keep their relative order
    whenever the comparison never separates two of them. *)
Lemma sort_insert_filter {A : Type} (f : A -> A -> number)
    (P : A -> Prop) `{forall a, Decision (P a)} (x : A) (l : list A) :
  (forall y, y ∈ l -> 0 < SortCompare f x y -> P x -> P y -> False) ->
  filter P (sort_insert f x l) = filter P (x :: l).
Proof.
  intros Hsep. induction l as [|y l IH]; simpl; [reflexivity|].
  destruct (Z.ltb_spec 0 (SortCompare f x y)) as [Hlt|Hge]; [|reflexivity].
  rewrite (filter_cons _ y), IH, !(filter_cons _ x), (filter_cons _ y)
    by (intros z Hz; apply Hsep; right; exact Hz).
  destruct (decide (P x)) as [Hx|Hx], (decide (P y)) as [Hy|Hy]; try reflexivity.
  exfalso. apply (Hsep y); [left | assumption..].
Qed.

Lemma sorted_copy_filter {A : Type} (f : A -> A -> number)
    (P : A -> Prop) `{forall a, Decision (P a)} (l : list A) :
  (forall x y, x ∈ l -> y ∈ l -> 0 < SortCompare f x y -> P x -> P y -> False) ->
  filter P (sorted_copy f l) = filter P l.
Proof.
  intros Hsep. induction l as [|x l IH]; simpl; [reflexivity|].
  rewrite sort_insert_filter.
  - rewrite !filter_cons, IH; [reflexivity|].
    intros a b Ha Hb. apply Hsep; right; assumption.
  - intros y Hy. apply Hsep; [left|]. right. rewrite <- (sorted_copy_perm f l). exact Hy.
Qed.

(** The result depends on the elements only through what the comparison
    reads. *)
Lemma sorted_copy_map {A B : Type} (f : A -> A -> number) (g : B -> B -> number)
    (m : A -> B) (l : list A) :
  (forall a b, g (m a) (m b) = f a b) ->
  sorted_copy g (map m l) = map m (sorted_copy f l).
Proof.
  intros Hfg. induction l as [|x l IH]; simpl; [reflexivity|].
  rewrite IH. generalize (sorted_copy f l) as s. intros s.
  induction s as [|y s IHs]; simpl; [reflexivity|].
  unfold SortCompare. rewrite Hfg.
  destruct (0 <? match f x y with Some v => v | None => 0 end); simpl; congruence.
Qed.

Section InsertionConforms.
Context {A : Type} (cmp : A -> A -> number) (u : list A).
Hypothesis Hcc : consistentComparator cmp u.

Lemma sort_insert_sorted (x : A) (s : list A) :
  x ∈ u -> Forall (fun a => a ∈ u) s ->
  StronglySorted (fun a b => 0 <= SortCompare cmp b a) s ->
  StronglySorted (fun a b => 0 <= SortCompare cmp b a) (sort_insert cmp x s).
Proof using Hcc.
  intros Hx Hu Hs. induction Hs as [|y s Hs IH Hall]; simpl.
  - repeat constructor.
  - apply Forall_cons in Hu as [Hy Hu].
    destruct (Z.ltb_spec 0 (SortCompare cmp x y)) as [Hlt|Hge].
    + constructor; [apply IH; exact Hu|].
      rewrite sort_insert_perm. constructor; [lia | exact Hall].
    + constructor; [constructor; assumption|].
      assert (Hxy : 0 <= SortCompare cmp y x) by (apply (cc_le_ge cmp u); assumption).
      constructor; [exact Hxy|].
      rewrite Forall_forall in *. intros z Hz.
      apply (cc_before_trans cmp u Hcc x y z); auto.
Qed.

Lemma sorted_copy_sorted (l : list A) :
  Forall (fun a => a ∈ u) l ->
  StronglySorted (fun a b => 0 <= SortCompare cmp b a) (sorted_copy cmp l).
Proof using Hcc.
  induction 1 as [|x l Hx Hl IH]; simpl; [constructor|].
  apply sort_insert_sorted; [exact Hx | | exact IH].
  rewrite sorted_copy_perm. exact Hl.
Qed.

Lemma sorted_copy_stable (l : list A) (z : A) :
  Forall (fun a => a ∈ u) l -> z ∈ u ->
  filter (fun y => SortCompare cmp z y = 0) (sorted_copy cmp l) =
  filter (fun y => SortCompare cmp z y = 0) l.
Proof using Hcc.
  intros Hl Hz. apply sorted_copy_filter.
  intros x y Hx Hy Hlt Hzx Hzy. rewrite Forall_forall in Hl.
  pose proof (cc_same_class cmp u Hcc z x y Hz (Hl x Hx) (Hl y Hy) Hzx Hzy). lia.
Qed.
End InsertionConforms.

Lemma insertionSort_conforming : conforming insertionSort.
Proof.
  intros A cmp l. unfold insertionSort. split; [apply sorted_copy_perm|].
  intros Hcc.
  assert (Hl : Forall (fun a => a ∈ l) l) by (apply Forall_forall; auto).
  split.
  - apply (sorted_copy_sorted cmp l Hcc). exact Hl.
  - intros x Hx. apply (sorted_copy_stable cmp l Hcc); assumption.
Qed.

(** *** The procedure of V8 conforms *)

Lemma elem_of_drop_list {A : Type} (x : A) (n : nat) (l : list A) : x ∈ drop n l -> x ∈ l.
Proof. intros H. rewrite <- (take_drop n l). apply elem_of_app. right. exact H. Qed.

Lemma elem_of_take_list {A : Type} (x : A) (n : nat) (l : list A) : x ∈ take n l -> x ∈ l.
Proof. intros H. rewrite <- (take_drop n l). apply elem_of_app. left. exact H. Qed.

(** The search does not depend on the fuel once there is enough of it: the
    loop ends because [left] has met [right]. *)
Lemma binarySearch_fuel {A : Type} (cmp : A -> A -> number) (fuel fuel' : nat) (x : A)
    (s : list A) (left right : nat) :
  (right <= length s)%nat -> (right - left <= fuel)%nat -> (right - left <= fuel')%nat ->
  binarySearch cmp fuel x s left right = binarySearch cmp fuel' x s left right.
Proof.
  revert fuel' left right.
  induction fuel as [|fuel IH]; intros fuel' left right Hr Hf Hf'.
  - destruct fuel' as [|fuel']; [reflexivity|]. cbn [binarySearch].
    destruct (Nat.ltb_spec left right); [lia | reflexivity].
  - destruct fuel' as [|fuel'].
    + cbn [binarySearch]. destruct (Nat.ltb_spec left right); [lia | reflexivity].
    + cbn [binarySearch]. destruct (Nat.ltb_spec left right) as [Hlt|Hge]; [|reflexivity].
      pose proof (Nat.div_lt (right - left) 2) as Hdiv.
      destruct (s !! (left + (right - left) / 2)%nat) as [e|]; [|reflexivity].
      cbv zeta. destruct (SortCompare cmp x e <? 0); apply IH; lia.
Qed.

Lemma binaryInsert_perm {A : Type} (cmp : A -> A -> number) (s : list A) (x : A) :
  binaryInsert cmp s x ≡ₚ s ++ [x].
Proof.
  unfold binaryInsert.
  rewrite <- Permutation_middle, take_drop. apply Permutation_cons_append.
Qed.

Lemma BinaryInsertionSort_perm {A : Type} (cmp : A -> A -> number) (run others : list A) :
  BinaryInsertionSort cmp run others ≡ₚ run ++ others.
Proof.
  unfold BinaryInsertionSort. revert run.
  induction others as [|x others IH]; intros run; simpl.
  - rewrite app_nil_r. reflexivity.
  - rewrite IH, binaryInsert_perm, <- app_assoc. reflexivity.
Qed.

(** The run found is in the order asked for, and nothing is lost. *)
Lemma runFrom_spec {A : Type} (cmp : A -> A -> number) (d : bool) (l : list A) :
  forall (prev : A) (run others : list A),
    runFrom cmp d prev l = (run, others) ->
    l = run ++ others /\
    Sorted (fun a b => if d then SortCompare cmp b a < 0 else 0 <= SortCompare cmp b a)
           (prev :: run).
Proof.
  induction l as [|cur l IH]; intros prev run others Hrun; cbn [runFrom] in Hrun.
  - injection Hrun as <- <-. split; [reflexivity | repeat constructor].
  - cbv zeta in Hrun.
    destruct (if d then 0 <=? SortCompare cmp cur prev else SortCompare cmp cur prev <? 0)
      eqn:Hbreak.
    + injection Hrun as <- <-. split; [reflexivity | repeat constructor].
    + destruct (runFrom cmp d cur l) as [r o] eqn:Hrest.
      injection Hrun as <- <-.
      destruct (IH cur r o Hrest) as [-> Hs].
      split; [reflexivity|].
      constructor; [exact Hs|]. constructor.
      destruct d; [apply Z.leb_gt in Hbreak | apply Z.ltb_ge in Hbreak]; exact Hbreak.
Qed.

Lemma CountAndMakeRun_parts {A : Type} (cmp : A -> A -> number) (l run others : list A) :
  CountAndMakeRun cmp l = (run, others) ->
  exists run0, l = run0 ++ others /\
    (run = run0 /\
       Sorted (fun a b => 0 <= SortCompare cmp b a) run0
     \/
     run = reverse run0 /\
       Sorted (fun a b => SortCompare cmp b a < 0) run0).
Proof.
  unfold CountAndMakeRun. destruct l as [|hi [|lo l]].
  - intros [= <- <-]. exists []. split; [reflexivity|]. left. split; [reflexivity | constructor].
  - intros [= <- <-]. exists [hi]. split; [reflexivity|]. left.
    split; [reflexivity | repeat constructor].
  - cbv zeta. destruct (runFrom cmp (SortCompare cmp lo hi <? 0) lo l) as [r o] eqn:Hrun.
    intros [= <- <-].
    destruct (runFrom_spec cmp _ l lo r o Hrun) as [-> Hs].
    exists (hi :: lo :: r). split; [reflexivity|].
    destruct (Z.ltb_spec (SortCompare cmp lo hi) 0) as [Hlt|Hge].
    + right. split; [reflexivity|]. constructor; [exact Hs|]. constructor. exact Hlt.
    + left. split; [reflexivity|]. constructor; [exact Hs|]. constructor. exact Hge.
Qed.

Lemma timSortRuns_perm {A : Type} (cmp : A -> A -> number) (l : list A) :
  timSortRuns cmp l ≡ₚ l.
Proof.
  unfold timSortRuns. destruct (CountAndMakeRun cmp l) as [run others] eqn:E.
  rewrite BinaryInsertionSort_perm.
  destruct (CountAndMakeRun_parts cmp l run others E) as (run0 & -> & [[-> _]|[-> _]]).
  - reflexivity.
  - rewrite reverse_Permutation. reflexivity.
Qed.

Section TimSortConforms.
Context {A : Type} (cmp : A -> A -> number) (u : list A).
Hypothesis Hcc : consistentComparator cmp u.

(** Where the search stops, the pivot compares no lower than the elements
    before and lower than the elements after. *)
Lemma binarySearch_spec (fuel : nat) (x : A) (s : list A) :
  x ∈ u -> Forall (fun a => a ∈ u) s ->
  StronglySorted (fun a b => 0 <= SortCompare cmp b a) s ->
  forall left right : nat,
    (left <= right <= length s)%nat -> (right - left <= fuel)%nat ->
    Forall (fun e => 0 <= SortCompare cmp x e) (take left s) ->
    Forall (fun e => SortCompare cmp x e < 0) (drop right s) ->
    (left <= binarySearch cmp fuel x s left right <= right)%nat /\
    Forall (fun e => 0 <= SortCompare cmp x e) (take (binarySearch cmp fuel x s left right) s) /\
    Forall (fun e => SortCompare cmp x e < 0) (drop (binarySearch cmp fuel x s left right) s).
Proof using Hcc.
  intros Hx Hu Hs. rewrite Forall_forall in Hu.
  induction fuel as [|fuel IH]; intros left right Hb Hf Hlow Hup; cbn [binarySearch].
  - assert (left = right) by lia. subst right. repeat split; try lia; assumption.
  - destruct (Nat.ltb_spec left right) as [Hlt|Hge].
    2:{ assert (left = right) by lia. subst right. repeat split; try lia; assumption. }
    pose proof (Nat.div_lt (right - left) 2) as Hdiv.
    set (mid := (left + (right - left) / 2)%nat) in *.
    assert (Hmid : (left <= mid < right)%nat) by (unfold mid; lia).
    destruct (lookup_lt_is_Some_2 s mid) as [e He]; [lia|].
    rewrite He. cbv zeta.
    assert (He_u : e ∈ u) by (apply Hu; eapply list_elem_of_lookup_2; exact He).
    assert (Hsplit : StronglySorted (fun a b => 0 <= SortCompare cmp b a)
                       (take mid s ++ e :: drop (S mid) s)).
    { rewrite <- (drop_S s e mid He), take_drop. exact Hs. }
    destruct (Z.ltb_spec (SortCompare cmp x e) 0) as [Hlt0|Hge0].
    + destruct (IH left mid) as (Hi & Hl & Hr); [lia | lia | exact Hlow | | ].
      * rewrite (drop_S s e mid He). constructor; [exact Hlt0|].
        apply StronglySorted_app_1_r in Hsplit.
        inversion Hsplit as [|? ? _ Hall]; subst.
        rewrite Forall_forall in *. intros z Hz.
        assert (Hz_u : z ∈ u) by (apply Hu; eapply elem_of_drop_list; exact Hz).
        apply (cc_lt_le_trans cmp u Hcc x e z); try assumption.
        apply (cc_ge_le cmp u Hcc); auto.
      * repeat split; try lia; assumption.
    + destruct (IH (mid + 1)%nat right) as (Hi & Hl & Hr); [lia | lia | | exact Hup | ].
      * replace (mid + 1)%nat with (S mid) by lia.
        rewrite (take_S_r s mid e He). apply Forall_app. split; [|repeat constructor; exact Hge0].
        rewrite Forall_forall. intros a Ha.
        assert (Ha_u : a ∈ u) by (apply Hu; eapply elem_of_take_list; exact Ha).
        assert (Hae : 0 <= SortCompare cmp e a).
        { apply (StronglySorted_app_1_elem_of _ _ _ a e Hsplit); [exact Ha | left]. }
        apply (cc_le_ge cmp u Hcc); try assumption.
        apply (cc_le_trans cmp u Hcc a e x); try assumption;
          apply (cc_ge_le cmp u Hcc); assumption.
      * repeat split; try lia; assumption.
Qed.

Lemma binaryInsert_sorted (s : list A) (x : A) :
  x ∈ u -> Forall (fun a => a ∈ u) s ->
  StronglySorted (fun a b => 0 <= SortCompare cmp b a) s ->
  StronglySorted (fun a b => 0 <= SortCompare cmp b a) (binaryInsert cmp s x) /\
  forall z, z ∈ u ->
    filter (fun y => SortCompare cmp z y = 0) (binaryInsert cmp s x) =
    filter (fun y => SortCompare cmp z y = 0) (s ++ [x]).
Proof using Hcc.
  intros Hx Hu Hs. unfold binaryInsert.
  destruct (binarySearch_spec (length s) x s Hx Hu Hs 0%nat (length s))
    as (_ & Hlow & Hup); [lia | lia | constructor | rewrite drop_all; constructor |].
  set (i := binarySearch cmp (length s) x s 0 (length s)) in *.
  rewrite Forall_forall in Hu, Hlow, Hup.
  assert (Hparts : StronglySorted (fun a b => 0 <= SortCompare cmp b a) (take i s ++ drop i s))
    by (rewrite take_drop; exact Hs).
  split.
  - apply StronglySorted_app_2.
    + intros a b Ha Hb. apply elem_of_cons in Hb as [->|Hb].
      * apply Hlow. exact Ha.
      * apply (StronglySorted_app_1_elem_of _ _ _ a b Hparts); assumption.
    + apply (StronglySorted_app_1_l _ _ _ Hparts).
    + constructor; [apply (StronglySorted_app_1_r _ _ _ Hparts)|].
      rewrite Forall_forall. intros b Hb.
      assert (Hb_u : b ∈ u) by (apply Hu; eapply elem_of_drop_list; exact Hb).
      pose proof (cc_lt_gt cmp u Hcc x b Hx Hb_u (Hup b Hb)). lia.
  - intros z Hz.
    replace (s ++ [x]) with ((take i s ++ drop i s) ++ [x]) by (rewrite take_drop; reflexivity).
    rewrite !filter_app, !(filter_cons _ x), filter_nil.
    destruct (decide (SortCompare cmp z x = 0)) as [Hzx|Hzx].
    + rewrite (filter_none _ (drop i s)); [rewrite app_nil_r; reflexivity|].
      rewrite Forall_forall. intros b Hb Hzb.
      assert (Hb_u : b ∈ u) by (apply Hu; eapply elem_of_drop_list; exact Hb).
      pose proof (cc_same_class cmp u Hcc z x b Hz Hx Hb_u Hzx Hzb).
      specialize (Hup b Hb). lia.
    + rewrite app_nil_r. reflexivity.
Qed.

Lemma BinaryInsertionSort_sorted (others run : list A) :
  Forall (fun a => a ∈ u) run -> Forall (fun a => a ∈ u) others ->
  StronglySorted (fun a b => 0 <= SortCompare cmp b a) run ->
  StronglySorted (fun a b => 0 <= SortCompare cmp b a) (BinaryInsertionSort cmp run others) /\
  forall z, z ∈ u ->
    filter (fun y => SortCompare cmp z y = 0) (BinaryInsertionSort cmp run others) =
    filter (fun y => SortCompare cmp z y = 0) (run ++ others).
Proof using Hcc.
  unfold BinaryInsertionSort. revert run.
  induction others as [|x others IH]; intros run Hrun Hothers Hs; simpl.
  - rewrite app_nil_r. split; [exact Hs | reflexivity].
  - apply Forall_cons in Hothers as [Hx Hothers].
    destruct (binaryInsert_sorted run x Hx Hrun Hs) as [Hs' Hf'].
    destruct (IH (binaryInsert cmp run x)) as [Hs'' Hf'']; [|exact Hothers|exact Hs'|].
    { rewrite binaryInsert_perm. apply Forall_app. split; [exact Hrun|].
      repeat constructor. exact Hx. }
    split; [exact Hs''|].
    intros z Hz. rewrite (Hf'' z Hz), filter_app, (Hf' z Hz), <- filter_app, <- app_assoc.
    reflexivity.
Qed.

(** In a strictly descending run no two elements compare equal. *)
Lemma descending_run_classes (l : list A) (z : A) :
  Forall (fun a => a ∈ u) l -> z ∈ u ->
  StronglySorted (fun a b => SortCompare cmp b a < 0) l ->
  (length (filter (fun y => SortCompare cmp z y = 0%Z) l) <= 1)%nat.
Proof using Hcc.
  intros Hu Hz Hs. induction Hs as [|a l Hs IH Hall]; [simpl; lia|].
  apply Forall_cons in Hu as [Ha Hu]. rewrite filter_cons.
  destruct (decide (SortCompare cmp z a = 0)) as [Hza|Hza]; [|apply IH; exact Hu].
  rewrite filter_none; [simpl; lia|].
  rewrite Forall_forall in *. intros b Hb Hzb.
  pose proof (cc_same_class cmp u Hcc z b a Hz (Hu b Hb) Ha Hzb Hza).
  specialize (Hall b Hb). lia.
Qed.

Lemma CountAndMakeRun_sorted (l run others : list A) :
  Forall (fun a => a ∈ u) l ->
  CountAndMakeRun cmp l = (run, others) ->
  exists run0, l = run0 ++ others /\ run ≡ₚ run0 /\
    StronglySorted (fun a b => 0 <= SortCompare cmp b a) run /\
    forall z, z ∈ u ->
      filter (fun y => SortCompare cmp z y = 0) run =
      filter (fun y => SortCompare cmp z y = 0) run0.
Proof using Hcc.
  intros Hu Hrun.
  destruct (CountAndMakeRun_parts cmp l run others Hrun) as (run0 & -> & Hcases).
  apply Forall_app in Hu as [Hu0 _]. rewrite Forall_forall in Hu0.
  exists run0. split; [reflexivity|].
  destruct Hcases as [[-> Hs]|[-> Hs]].
  - split; [reflexivity|]. split; [|reflexivity].
    apply Sorted_StronglySorted_on; [|exact Hs].
    intros a b c Ha Hb Hc. apply (cc_before_trans cmp u Hcc); auto.
  - assert (Hss : StronglySorted (fun a b => SortCompare cmp b a < 0) run0).
    { apply Sorted_StronglySorted_on; [|exact Hs].
      intros a b c Ha Hb Hc Hab Hbc. apply (cc_lt_trans cmp u Hcc c b a); auto. }
    split; [apply reverse_Permutation|]. split.
    + apply (StronglySorted_weaken (fun a b => SortCompare cmp a b < 0)).
      * intros a b Ha Hb Hlt. rewrite elem_of_reverse in Ha, Hb.
        pose proof (cc_lt_gt cmp u Hcc a b (Hu0 a Ha) (Hu0 b Hb) Hlt). lia.
      * apply (StronglySorted_reverse _ _ Hss).
    + intros z Hz. rewrite filter_reverse.
      pose proof (descending_run_classes run0 z) as Hlen.
      rewrite Forall_forall in Hlen. specialize (Hlen Hu0 Hz Hss).
      destruct (filter (fun y => SortCompare cmp z y = 0) run0) as [|a [|b r]];
        [reflexivity | reflexivity | simpl in Hlen; lia].
Qed.

Lemma timSortRuns_sorted (l : list A) :
  Forall (fun a => a ∈ u) l ->
  StronglySorted (fun a b => 0 <= SortCompare cmp b a) (timSortRuns cmp l) /\
  forall z, z ∈ u ->
    filter (fun y => SortCompare cmp z y = 0) (timSortRuns cmp l) =
    filter (fun y => SortCompare cmp z y = 0) l.
Proof using Hcc.
  intros Hu. unfold timSortRuns.
  destruct (CountAndMakeRun cmp l) as [run others] eqn:E.
  destruct (CountAndMakeRun_sorted l run others Hu E) as (run0 & -> & Hp & Hs & Hf).
  apply Forall_app in Hu as [Hu0 Huo].
  destruct (BinaryInsertionSort_sorted others run) as [Hs' Hf'];
    [rewrite Hp; exact Hu0 | exact Huo | exact Hs |].
  split; [exact Hs'|].
  intros z Hz. rewrite (Hf' z Hz), !filter_app, (Hf z Hz). reflexivity.
Qed.
End TimSortConforms.

Lemma timSortShort_conforming : conforming timSortShort.
Proof.
  intros A cmp l. unfold timSortShort. split; [apply timSortRuns_perm|].
  intros Hcc. apply (timSortRuns_sorted cmp l Hcc). apply Forall_forall. auto.
Qed.

(** *** Sorting by a numeric key *)

Section KeySort.
Context {A : Type} (key : A -> number) (cmp : A -> A -> number).
Hypothesis cmp_key : forall a b, cmp a b = number_sub (key b) (key a).

Lemma key_SortCompare (a b : A) (ta tb : Z) :
  key a = Some ta -> key b = Some tb -> SortCompare cmp a b = tb - ta.
Proof using cmp_key.
  intros Ha Hb. unfold SortCompare. rewrite cmp_key, Ha, Hb. reflexivity.
Qed.

(** On elements whose key is a number the comparison is consistent. *)
Lemma key_consistent (l : list A) :
  Forall (fun a => is_Some (key a)) l -> consistentComparator cmp l.
Proof using cmp_key.
  intros Hv. rewrite Forall_forall in Hv.
  repeat split.
  - intros a b Ha Hb. destruct (Hv a Ha) as [ta Hta], (Hv b Hb) as [tb Htb].
    rewrite cmp_key, Hta, Htb. eexists. reflexivity.
  - intros a Ha. destruct (Hv a Ha) as [ta Hta].
    rewrite (key_SortCompare a a ta ta Hta Hta). lia.
  - intros a b Ha Hb. destruct (Hv a Ha) as [ta Hta], (Hv b Hb) as [tb Htb].
    rewrite (key_SortCompare a b ta tb Hta Htb), (key_SortCompare b a tb ta Htb Hta). lia.
  - intros a b c Ha Hb Hc.
    destruct (Hv a Ha) as [ta Hta], (Hv b Hb) as [tb Htb], (Hv c Hc) as [tc Htc].
    rewrite (key_SortCompare a b ta tb Hta Htb), (key_SortCompare b c tb tc Htb Htc),
      (key_SortCompare a c ta tc Hta Htc). lia.
  - intros a b c Ha Hb Hc.
    destruct (Hv a Ha) as [ta Hta], (Hv b Hb) as [tb Htb], (Hv c Hc) as [tc Htc].
    rewrite (key_SortCompare a b ta tb Hta Htb), (key_SortCompare b c tb tc Htb Htc),
      (key_SortCompare a c ta tc Hta Htc). lia.
  - intros a b c Ha Hb Hc.
    destruct (Hv a Ha) as [ta Hta], (Hv b Hb) as [tb Htb], (Hv c Hc) as [tc Htc].
    rewrite (key_SortCompare a b ta tb Hta Htb), (key_SortCompare b c tb tc Htb Htc),
      (key_SortCompare a c ta tc Hta Htc). lia.
Qed.

Lemma key_before (a b : A) :
  is_Some (key a) -> is_Some (key b) ->
  (0 <= SortCompare cmp b a <-> keyNoEarlier key a b).
Proof using cmp_key.
  intros [ta Hta] [tb Htb]. rewrite (key_SortCompare b a tb ta Htb Hta).
  unfold keyNoEarlier, number_ge. rewrite Hta, Htb, Z.leb_le. lia.
Qed.

Lemma key_class (a b : A) :
  is_Some (key a) -> is_Some (key b) ->
  (SortCompare cmp a b = 0 <-> key b = key a).
Proof using cmp_key.
  intros [ta Hta] [tb Htb]. rewrite (key_SortCompare a b ta tb Hta Htb), Hta, Htb.
  split; [intros H; f_equal; lia | intros [= ->]; lia].
Qed.

Lemma keyNoEarlier_trans (a b c : A) :
  keyNoEarlier key a b -> keyNoEarlier key b c -> keyNoEarlier key a c.
Proof.
  unfold keyNoEarlier, number_ge.
  destruct (key a), (key b), (key c); try discriminate.
  rewrite !Z.leb_le. lia.
Qed.

Lemma filter_key_head (x : A) (l : list A) :
  filter (fun e => key e = key x) (x :: l) = x :: filter (fun e => key e = key x) l.
Proof. rewrite filter_cons. destruct (decide _) as [_|Hn]; [reflexivity | contradiction]. Qed.

Lemma filter_key_member (x : A) (l1 l2 : list A) :
  (forall t, filter (fun e => key e = t) l1 = filter (fun e => key e = t) l2) ->
  x ∈ l1 -> x ∈ l2.
Proof.
  intros Hf Hx.
  assert (H : x ∈ filter (fun e => key e = key x) l1).
  { apply list_elem_of_filter. split; [reflexivity | exact Hx]. }
  rewrite Hf in H. apply list_elem_of_filter in H. apply H.
Qed.

(** A stable sort has one possible result: two lists in descending order of
    the key that list the elements of each key in the same order are
    equal. *)
Lemma stable_sorted_unique (l1 l2 : list A) :
  Forall (fun a => is_Some (key a)) l1 ->
  StronglySorted (keyNoEarlier key) l1 -> StronglySorted (keyNoEarlier key) l2 ->
  (forall t, filter (fun e => key e = t) l1 = filter (fun e => key e = t) l2) ->
  l1 = l2.
Proof.
  intros Hv Hs1. revert l2. induction Hs1 as [|x r1 Hs1 IH Hx]; intros l2 Hs2 Hf.
  - destruct l2 as [|y r2]; [reflexivity|].
    specialize (Hf (key y)). rewrite filter_key_head in Hf. discriminate.
  - destruct l2 as [|y r2].
    + specialize (Hf (key x)). rewrite filter_key_head in Hf. discriminate.
    + inversion Hv as [|? ? [tx Hkx] Hv1]; subst.
      inversion Hs2 as [|? ? Hs2' Hy]; subst.
      assert (Hyx : y = x \/ keyNoEarlier key x y).
      { assert (Hin : y ∈ x :: r1).
        { apply (filter_key_member y (y :: r2)); [intros t; symmetry; apply Hf | left]. }
        apply elem_of_cons in Hin as [->|Hin]; [left; reflexivity|].
        right. rewrite Forall_forall in Hx. apply Hx. exact Hin. }
      assert (Hxy : x = y \/ keyNoEarlier key y x).
      { assert (Hin : x ∈ y :: r2).
        { apply (filter_key_member x (x :: r1)); [exact Hf | left]. }
        apply elem_of_cons in Hin as [->|Hin]; [left; reflexivity|].
        right. rewrite Forall_forall in Hy. apply Hy. exact Hin. }
      assert (Hkey : key y = key x).
      { destruct Hyx as [->|Hyx]; [reflexivity|].
        destruct Hxy as [->|Hxy]; [reflexivity|].
        unfold keyNoEarlier, number_ge in Hyx, Hxy. rewrite Hkx in *.
        destruct (key y) as [ty|]; [|discriminate].
        apply Z.leb_le in Hyx, Hxy. f_equal. lia. }
      pose proof (Hf (key x)) as Hfx.
      rewrite filter_key_head, (filter_cons _ y) in Hfx.
      destruct (decide (key y = key x)); [|contradiction].
      injection Hfx as <- Hfx.
      f_equal. apply IH; [exact Hv1 | exact Hs2'|].
      intros t. specialize (Hf t). rewrite !filter_cons in Hf.
      destruct (decide (key x = t)) as [<-|Hne]; [exact Hfx | exact Hf].
Qed.

(** What every conforming procedure does when all keys are numbers. *)
Section Conforming.
Variable sort : SortProcedure.
Hypothesis Hsort : conforming sort.

Lemma conforming_perm (l : list A) : sort A cmp l ≡ₚ l.
Proof using Hsort. apply Hsort. Qed.

Lemma conforming_key_sorted (l : list A) :
  Forall (fun a => is_Some (key a)) l ->
  StronglySorted (keyNoEarlier key) (sort A cmp l).
Proof using Hsort cmp_key.
  intros Hv. destruct (Hsort A cmp l) as [Hp Hc].
  destruct (Hc (key_consistent l Hv)) as [Hs _].
  assert (Hv' : Forall (fun a => is_Some (key a)) (sort A cmp l)) by (rewrite Hp; exact Hv).
  rewrite Forall_forall in Hv'.
  apply (StronglySorted_weaken _ _ _ (fun a b Ha Hb => proj1 (key_before a b (Hv' a Ha) (Hv' b Hb)))).
  exact Hs.
Qed.

Lemma conforming_key_stable (l : list A) (t : number) :
  Forall (fun a => is_Some (key a)) l ->
  filter (fun e => key e = t) (sort A cmp l) = filter (fun e => key e = t) l.
Proof using Hsort cmp_key.
  intros Hv. destruct (Hsort A cmp l) as [Hp Hc].
  destruct (Hc (key_consistent l Hv)) as [_ Hst].
  assert (Hv' : Forall (fun a => is_Some (key a)) (sort A cmp l)) by (rewrite Hp; exact Hv).
  destruct (filter (fun e => key e = t) l) as [|x r] eqn:E.
  - apply Permutation_nil_r. rewrite <- E, Hp. reflexivity.
  - assert (Hx : x ∈ filter (fun e => key e = t) l) by (rewrite E; left).
    apply list_elem_of_filter in Hx as [Hkx Hx]. subst t.
    assert (Hvx : is_Some (key x)) by (rewrite Forall_forall in Hv; apply Hv; exact Hx).
    rewrite <- E.
    rewrite (filter_agree (fun e => key e = key x) (fun y => SortCompare cmp x y = 0) (sort A cmp l)).
    + rewrite (Hst x Hx). symmetry. apply filter_agree.
      eapply Forall_impl; [exact Hv|]. simpl. intros y Hy. symmetry. apply key_class; assumption.
    + eapply Forall_impl; [exact Hv'|]. simpl. intros y Hy. symmetry. apply key_class; assumption.
Qed.

(** The result is the one arrangement that is in order and keeps ties in
    place. *)
Lemma conforming_key_unique (l out : list A) :
  Forall (fun a => is_Some (key a)) l ->
  StronglySorted (keyNoEarlier key) out ->
  (forall t, filter (fun e => key e = t) out = filter (fun e => key e = t) l) ->
  out = sort A cmp l.
Proof using Hsort cmp_key.
  intros Hv Hs Hf. symmetry. apply stable_sorted_unique.
  - rewrite conforming_perm. exact Hv.
  - apply conforming_key_sorted. exact Hv.
  - exact Hs.
  - intros t. rewrite Hf. apply conforming_key_stable. exact Hv.
Qed.
End Conforming.

(** All conforming procedures agree with insertion. *)
Lemma conforming_key_insertion (sort : SortProcedure) (l : list A) :
  conforming sort ->
  Forall (fun a => is_Some (key a)) l ->
  sort A cmp l = sorted_copy cmp l.
Proof using cmp_key.
  intros Hsort Hv. symmetry. apply (conforming_key_unique sort Hsort l); [exact Hv | |].
  - apply (conforming_key_sorted insertionSort insertionSort_conforming l Hv).
  - intros t. apply (conforming_key_stable insertionSort insertionSort_conforming l t Hv).
Qed.

(** Fields that the key does not read have no part in the order. *)
Lemma conforming_key_map (sort : SortProcedure) (f : A -> A) (l : list A) :
  conforming sort ->
  (forall e, key (f e) = key e) ->
  Forall (fun a => is_Some (key a)) l ->
  sort A cmp (map f l) = map f (sort A cmp l).
Proof using cmp_key.
  intros Hsort Hf Hv.
  assert (Hv' : Forall (fun a => is_Some (key a)) (map f l)).
  { apply Forall_map. eapply Forall_impl; [exact Hv|]. simpl. intros a Ha.
    rewrite Hf. exact Ha. }
  rewrite (conforming_key_insertion sort (map f l) Hsort Hv').
  rewrite (conforming_key_insertion sort l Hsort Hv).
  apply sorted_copy_map. intros a b. rewrite !cmp_key, !Hf. reflexivity.
Qed.


(** When the keys of a list are pairwise distinct, at most one element has
    a given key, so a rearrangement lists the elements of each key in the
    same order. *)
Lemma filter_key_short (t : number) (l : list A) :
  NoDup (map key l) -> (length (filter (fun e => key e = t) l) <= 1)%nat.
Proof.
  induction l as [|x l IH]; intros Hnd; [simpl; lia|].
  apply NoDup_cons in Hnd as [Hx Hnd]. specialize (IH Hnd).
  rewrite filter_cons. destruct (decide (key x = t)) as [Hk|Hk]; [|exact IH].
  destruct (filter (fun e => key e = t) l) as [|y r] eqn:E; [simpl; lia|].
  exfalso. apply Hx.
  assert (Hy : y ∈ filter (fun e => key e = t) l) by (rewrite E; left).
  apply list_elem_of_filter in Hy as [Hky Hy].
  rewrite Hk, <- Hky. apply list_elem_of_fmap. exists y. split; [reflexivity | exact Hy].
Qed.

Lemma filter_key_perm (t : number) (l1 l2 : list A) :
  NoDup (map key l1) -> l1 ≡ₚ l2 ->
  filter (fun e => key e = t) l1 = filter (fun e => key e = t) l2.
Proof.
  intros Hnd Hp.
  pose proof (filter_key_short t l1 Hnd) as Hlen.
  assert (Hfp : filter (fun e => key e = t) l1 ≡ₚ filter (fun e => key e = t) l2)
    by (rewrite Hp; reflexivity).
  destruct (filter (fun e => key e = t) l1) as [|x [|y r]]; simpl in Hlen; [| |lia].
  - apply Permutation_nil_l. exact Hfp.
  - apply Permutation_singleton_l. exact Hfp.
Qed.
End KeySort.

(** *** Arrays *)

(** [[...a].sort(comparefn)]: the copy is a new array, it holds the
    elements as the procedure leaves them, and the argument is left alone. *)
Lemma spread_Array_sort {A : Type} (sort : SortProcedure) (cmp : A -> A -> number)
    (h : store A) (a : ref) (l : list A) :
  h !! a = Some l ->
  h !! fresh (dom h) = None /\
  ('(copy, h1) ← spread a h; Array_sort sort cmp copy h1) =
    Some (fresh (dom h), <[fresh (dom h) := sort A cmp l]> h).
Proof.
  intros Hl.
  assert (Hr : h !! fresh (dom h) = None).
  { apply not_elem_of_dom. apply is_fresh. }
  split; [exact Hr|].
  unfold spread, Array_sort. rewrite Hl. simpl.
  rewrite lookup_insert_eq. simpl.
  rewrite insert_insert_eq. reflexivity.
Qed.

(** *** Sorting the experience entries *)

Lemma compareByStartDate_key (Date_parse : jsstring -> number) (a b : Experience) :
  compareByStartDate Date_parse a b =
  number_sub (Date_parse (startDate b)) (Date_parse (startDate a)).
Proof. reflexivity. Qed.

Lemma sortExperienceByDate_store (sort : SortProcedure) (Date_parse : jsstring -> number)
    (h : store Experience) (experiences : ref) (l : list Experience) :
  h !! experiences = Some l ->
  h !! fresh (dom h) = None /\
  sortExperienceByDate sort Date_parse experiences h =
    Some (fresh (dom h), <[fresh (dom h) := sort _ (compareByStartDate Date_parse) l]> h).
Proof. apply spread_Array_sort. Qed.

(** C5, as amended.  Whatever the engine's sorting procedure, as long as
    it conforms to ECMAScript: for every array of experience records,
    [sortExperienceByDate] returns a new array (a reference that was not
    allocated before) and leaves the argument and every other array as they
    were; the new array has the same length and the same records.  When
    every start date is a valid date, the result is in non-increasing order
    of start date, records with equal start times keep their relative
    order, and changing fields other than [startDate] (such as [endDate])
    changes nothing in the order.  (When a start date is not a date the
    comparison returns [NaN] and the order is the engine's.) *)
Theorem sortExperienceByDate_spec (sort : SortProcedure) (Date_parse : jsstring -> number)
    (h : store Experience) (experiences : ref) (l : list Experience) :
  conforming sort ->
  h !! experiences = Some l ->
  exists (r : ref) (out : list Experience),
    sortExperienceByDate sort Date_parse experiences h = Some (r, <[r := out]> h) /\
    h !! r = None /\
    length out = length l /\
    out ≡ₚ l /\
    (Forall (validStart Date_parse) l ->
     StronglySorted (startsNoEarlier Date_parse) out /\
     (forall t : number,
         filter (fun e => Date_parse (startDate e) = t) out =
         filter (fun e => Date_parse (startDate e) = t) l) /\
     (forall f : Experience -> Experience,
         (forall e, startDate (f e) = startDate e) ->
         sortExperienceByDate sort Date_parse experiences (<[experiences := map f l]> h) =
         Some (r, <[r := map f out]> (<[experiences := map f l]> h)))).
Proof.
  intros Hsort Hl.
  destruct (sortExperienceByDate_store sort Date_parse h experiences l Hl) as [Hr Hrun].
  exists (fresh (dom h)), (sort _ (compareByStartDate Date_parse) l).
  pose proof (proj1 (Hsort _ (compareByStartDate Date_parse) l)) as Hperm.
  split; [exact Hrun|]. split; [exact Hr|].
  split; [apply Permutation_length; exact Hperm|].
  split; [exact Hperm|].
  intros Hvalid.
  split.
  { exact (conforming_key_sorted (fun e => Date_parse (startDate e)) _
             (compareByStartDate_key Date_parse) sort Hsort l Hvalid). }
  split.
  { intros t.
    exact (conforming_key_stable (fun e => Date_parse (startDate e)) _
             (compareByStartDate_key Date_parse) sort Hsort l t Hvalid). }
  intros f Hf.
  destruct (sortExperienceByDate_store sort Date_parse (<[experiences := map f l]> h)
              experiences (map f l)) as [_ Hrun'].
  { apply lookup_insert_eq. }
  rewrite Hrun'.
  assert (Hdom : dom (<[experiences := map f l]> h) = dom h).
  { apply dom_insert_lookup_L. exists l. exact Hl. }
  rewrite Hdom. do 3 f_equal.
  apply (conforming_key_map (fun e => Date_parse (startDate e)) _
           (compareByStartDate_key Date_parse) sort f l Hsort); [|exact Hvalid].
  intros e. rewrite Hf. reflexivity.
Qed.

(** The scenario of the specification: the entry that starts in 2024 comes
    first, by insertion and by the procedure of V8. *)
Example sortExperienceByDate_twoEntries :
  sortExperienceByDate insertionSort isoDateParse 0%nat {[0%nat := twoEntries]} =
    Some (1%nat, <[1%nat := rev twoEntries]> {[0%nat := twoEntries]}) /\
  sortExperienceByDate timSortShort isoDateParse 0%nat {[0%nat := twoEntries]} =
    Some (1%nat, <[1%nat := rev twoEntries]> {[0%nat := twoEntries]}).
Proof. split; vm_compute; reflexivity. Qed.

Lemma twoEntries_valid : Forall (validStart isoDateParse) twoEntries.
Proof. repeat constructor; eexists; vm_compute; reflexivity. Qed.

(** The statement above for the procedure of V8 at the two entries of the
    scenario, stored at reference 0: their start dates are valid, and the
    result is a new array in descending order. *)
Lemma sortExperienceByDate_spec_witness :
  ({[0%nat := twoEntries]} : store Experience) !! 0%nat = Some twoEntries /\
  Forall (validStart isoDateParse) twoEntries /\
  exists (r : ref) (out : list Experience),
    sortExperienceByDate timSortShort isoDateParse 0%nat {[0%nat := twoEntries]} =
      Some (r, <[r := out]> {[0%nat := twoEntries]}) /\
    ({[0%nat := twoEntries]} : store Experience) !! r = None /\
    length out = length twoEntries /\
    out ≡ₚ twoEntries /\
    StronglySorted (startsNoEarlier isoDateParse) out /\
    (forall t : number,
        filter (fun e => isoDateParse (startDate e) = t) out =
        filter (fun e => isoDateParse (startDate e) = t) twoEntries).
Proof.
  assert (Hstore : ({[0%nat := twoEntries]} : store Experience) !! 0%nat = Some twoEntries)
    by (vm_compute; reflexivity).
  split; [exact Hstore|]. split; [exact twoEntries_valid|].
  destruct (sortExperienceByDate_spec timSortShort isoDateParse {[0%nat := twoEntries]} 0%nat
              twoEntries timSortShort_conforming Hstore)
    as (r & out & Hrun & Hfresh & Hlen & Hperm & Hsorted).
  destruct (Hsorted twoEntries_valid) as (Hs & Hst & _).
  exists r, out. repeat split; assumption.
Defined.

(** The procedure of V8 on a list with an entry that has no date: this is
    the order that Node.js returns. *)
Example sortExperienceByDate_fourEntries :
  sortExperienceByDate timSortShort isoDateParse 0%nat {[0%nat := fourEntries]} =
    Some (1%nat,
          <[1%nat := [entry "d" "2025-01-01" None; entry "b" "2024-01-01" None;
                      entry "a" "2020-01-01" None; entry "c" "" None]]>
            {[0%nat := fourEntries]}).
Proof. vm_compute. reflexivity. Qed.

(** C5, counterexample.  The empty string is not a date and the comparison
    with it is [NaN], so the comparator is not consistent and the order is
    the engine's.  With the procedure of V8, which conforms: the two
    entries of [undatedFirst] stay as they are, which is not non-increasing
    order of start date (whatever the order, an entry without a date is
    [>=] nothing); and of the seven entries the one that is sixth among
    those of 2022 ends up before the one that is fifth, so equal start
    dates do not keep their order. *)
Lemma sortExperienceByDate_undated_counterexample :
  conforming timSortShort /\
  compareByStartDate isoDateParse (entry "undated" "" None) (entry "dated" "2024-06-01" None)
    = None /\
  sortExperienceByDate timSortShort isoDateParse 0%nat {[0%nat := undatedFirst]} =
    Some (1%nat, <[1%nat := undatedFirst]> {[0%nat := undatedFirst]}) /\
  ~ Sorted (startsNoEarlier isoDateParse) undatedFirst /\
  ~ Sorted (startsNoEarlier isoDateParse) (rev undatedFirst) /\
  sortExperienceByDate timSortShort isoDateParse 0%nat {[0%nat := sevenEntries]} =
    Some (1%nat,
          <[1%nat := [entry "e1" "2022-01-01" None; entry "e3" "2022-01-01" None;
                      entry "e4" "2022-01-01" None; entry "e6" "2022-01-01" None;
                      entry "e0" "2021-01-01" None; entry "x" "" None;
                      entry "e5" "2022-01-01" None]]>
            {[0%nat := sevenEntries]}) /\
  filter (fun e => isoDateParse (startDate e) = isoDateParse (lit "2022-01-01"))
         [entry "e1" "2022-01-01" None; entry "e3" "2022-01-01" None;
          entry "e4" "2022-01-01" None; entry "e6" "2022-01-01" None;
          entry "e0" "2021-01-01" None; entry "x" "" None;
          entry "e5" "2022-01-01" None] <>
  filter (fun e => isoDateParse (startDate e) = isoDateParse (lit "2022-01-01"))
         sevenEntries.
Proof.
  split; [exact timSortShort_conforming|].
  split; [vm_compute; reflexivity|].
  split; [vm_compute; reflexivity|].
  split.
  { intros H. inversion H as [|? ? _ Hhd]; subst.
    inversion Hhd as [|? ? Hrel]; subst. vm_compute in Hrel. discriminate. }
  split.
  { intros H. inversion H as [|? ? _ Hhd]; subst.
    inversion Hhd as [|? ? Hrel]; subst. vm_compute in Hrel. discriminate. }
  split; [vm_compute; reflexivity|].
  vm_compute. discriminate.
Qed.

(* ----------------------------------------------------------------- *)
(** ** Formatting dates *)

Lemma uint_digits (d : Decimal.uint) :
  Forall (fun c => 48 <= c <= 57) (lit (NilEmpty.string_of_uint d)).
Proof.
  induction d; simpl; try constructor; try assumption; vm_compute; split; discriminate.
Qed.

(** A number that is not negative prints as a non-empty run of digits. *)
Lemma numberToString_digits (n : Z) :
  0 <= n ->
  numberToString n <> [] /\ Forall (fun c => 48 <= c <= 57) (numberToString n).
Proof.
  intros Hn. unfold numberToString.
  destruct n as [|p|p]; [| |lia].
  - split; [discriminate|]. vm_compute. repeat constructor; discriminate.
  - simpl. unfold NilZero.string_of_uint.
    pose proof (uint_digits (Pos.to_uint p)) as H.
    destruct (Pos.to_uint p);
      (split; [simpl; discriminate
              | first [exact H | vm_compute; repeat constructor; discriminate]]).
Qed.

Lemma lit_inj (s t : string) : lit s = lit t -> s = t.
Proof.
  unfold lit. intros H.
  rewrite <- (string_of_list_ascii_of_string s), <- (string_of_list_ascii_of_string t).
  f_equal. revert H.
  generalize (list_ascii_of_string s), (list_ascii_of_string t).
  induction l as [|a l IH]; intros [|b k]; simpl; try discriminate; [reflexivity|].
  intros [= Hab Hlk]. f_equal; [|apply IH; exact Hlk].
  apply N2Z.inj in Hab.
  rewrite <- (ascii_N_embedding a), <- (ascii_N_embedding b). congruence.
Qed.

(** Different numbers print differently. *)
Lemma numberToString_inj (n m : Z) : numberToString n = numberToString m -> n = m.
Proof.
  unfold numberToString. intros H. apply lit_inj in H.
  assert (Hnz : forall z, Z.to_int z <> Decimal.Pos Decimal.Nil /\
                          Z.to_int z <> Decimal.Neg Decimal.Nil).
  { intros [|p|p]; simpl; split; try discriminate;
      intros [= E]; exact (Unsigned.to_uint_nonnil p E). }
  apply (f_equal NilZero.int_of_string) in H.
  rewrite !NilZero.isi in H by apply Hnz.
  injection H as H. apply (f_equal Z.of_int) in H.
  rewrite !DecimalZ.of_to in H. exact H.
Qed.

Lemma monthShort_letters (m : Z) :
  Forall (fun c => 65 <= c <= 122) (monthShort m).
Proof.
  unfold monthShort.
  repeat match goal with
         | |- context [match ?x with _ => _ end] => destruct x
         end;
    vm_compute; repeat constructor; discriminate.
Qed.

Lemma monthShort_no_P (m : Z) : Forall (fun c => c <> 80) (monthShort m).
Proof.
  unfold monthShort.
  repeat match goal with
         | |- context [match ?x with _ => _ end] => destruct x
         end;
    vm_compute; repeat constructor; discriminate.
Qed.

Lemma yearNumeric_digits (y : Z) : Forall (fun c => 48 <= c <= 57) (yearNumeric y).
Proof.
  unfold yearNumeric. apply numberToString_digits.
  destruct (Z.leb_spec 1 y); lia.
Qed.

(** What [toLocaleDateString] prints contains neither a hyphen nor a
    capital P. *)
Lemma toLocaleDateString_chars (LocalTZA : Z -> Z) (tv : number) :
  Forall (fun c => c <> 45 /\ c <> 80) (toLocaleDateString LocalTZA tv).
Proof.
  destruct tv as [t|]; unfold toLocaleDateString.
  - rewrite !Forall_app. split; [|split].
    + pose proof (monthShort_letters (MonthFromTime (LocalTime LocalTZA t))) as H1.
      pose proof (monthShort_no_P (MonthFromTime (LocalTime LocalTZA t))) as H2.
      rewrite Forall_forall in *. intros c Hc. specialize (H1 c Hc). specialize (H2 c Hc).
      split; [lia | exact H2].
    + repeat constructor; discriminate.
    + eapply Forall_impl; [apply yearNumeric_digits|]. simpl. intros c Hc. lia.
  - vm_compute. repeat constructor; discriminate.
Qed.

(** [formatDate] returns "Present" for [null] and for the empty string, and
    what [toLocaleDateString] prints otherwise. *)
Lemma formatDate_cases (Date_parse : jsstring -> number) (LocalTZA : Z -> Z)
    (d : option jsstring) :
  ((d = None \/ d = Some []) /\ formatDate Date_parse LocalTZA d = lit "Present") \/
  (exists c s, d = Some (c :: s) /\
     formatDate Date_parse LocalTZA d = toLocaleDateString LocalTZA (Date_parse (c :: s))).
Proof.
  destruct d as [[|c s]|]; simpl.
  - left. split; [right|]; reflexivity.
  - right. exists c, s. split; reflexivity.
  - left. split; [left|]; reflexivity.
Qed.

Lemma formatDate_no_hyphen (Date_parse : jsstring -> number) (LocalTZA : Z -> Z)
    (d : option jsstring) :
  Forall (fun c => c <> 45) (formatDate Date_parse LocalTZA d).
Proof.
  destruct (formatDate_cases Date_parse LocalTZA d) as [[_ ->]|(c & s & _ & ->)].
  - vm_compute. repeat constructor; discriminate.
  - eapply Forall_impl; [apply toLocaleDateString_chars|]. simpl. intros x [Hx _]. exact Hx.
Qed.

(** An occurrence of a pattern starts with the first character of the
    pattern. *)
Lemma includes_skip (c : Z) (p a b : jsstring) :
  Forall (fun x => x <> c) a ->
  includes (a ++ b) (c :: p) = includes b (c :: p).
Proof.
  induction 1 as [|x a Hx _ IH]; [reflexivity|].
  change (includes ((x :: a) ++ b) (c :: p))
    with (startsWith (c :: p) (x :: a ++ b) || includes (a ++ b) (c :: p)).
  rewrite IH. simpl startsWith.
  destruct (Z.eqb_spec c x); [congruence | reflexivity].
Qed.

Lemma includes_absent (c : Z) (p a : jsstring) :
  Forall (fun x => x <> c) a -> includes a (c :: p) = false.
Proof.
  intros Ha. rewrite <- (app_nil_r a), (includes_skip c p a []) by exact Ha.
  reflexivity.
Qed.

Lemma occurrences_cons (p : jsstring) (x : Z) (s : jsstring) :
  occurrences p (x :: s) =
  ((if startsWith p (x :: s) then 1 else 0) + occurrences p s)%nat.
Proof. reflexivity. Qed.

(** A pattern whose second character is [d] does not start at a position
    that is followed by a character other than [d]. *)
Lemma startsWith_second (c d : Z) (p : jsstring) (x : Z) (s : jsstring) :
  match s with [] => True | y :: _ => y <> d end ->
  startsWith (c :: d :: p) (x :: s) = false.
Proof.
  destruct s as [|y s]; simpl; intros Hy.
  - apply andb_false_r.
  - destruct (Z.eqb_spec d y); [congruence|]. simpl. apply andb_false_r.
Qed.

Lemma occurrences_absent (c d : Z) (p a : jsstring) :
  Forall (fun x => x <> d) a -> occurrences (c :: d :: p) a = 0%nat.
Proof.
  induction 1 as [|x a Hx Ha IH]; [reflexivity|].
  rewrite occurrences_cons, IH, startsWith_second; [reflexivity|].
  destruct Ha; [exact I | assumption].
Qed.

(** The separator occurs once when neither side contains a hyphen. *)
Lemma occurrences_separator (a b : jsstring) :
  Forall (fun x => x <> 45) a -> Forall (fun x => x <> 45) b ->
  occurrences (lit " - ") (a ++ lit " - " ++ b) = 1%nat.
Proof.
  intros Ha Hb.
  change (lit " - ") with [32; 45; 32].
  induction Ha as [|x a Hx Ha IH].
  - change ([] ++ [32; 45; 32] ++ b) with (32 :: 45 :: 32 :: b).
    rewrite !occurrences_cons, (occurrences_absent 32 45 [32] b Hb).
    rewrite (startsWith_second 32 45 [32] 32 b) by (destruct Hb; [exact I | assumption]).
    reflexivity.
  - change ((x :: a) ++ [32; 45; 32] ++ b) with (x :: (a ++ [32; 45; 32] ++ b)).
    rewrite occurrences_cons, IH, startsWith_second; [reflexivity|].
    destruct Ha; simpl; [discriminate | assumption].
Qed.

Lemma includes_Present_after (a b : jsstring) :
  Forall (fun x => x <> 80) a ->
  includes (a ++ lit " - " ++ b) (lit "Present") = includes b (lit "Present").
Proof.
  intros Ha. change (lit "Present") with (80 :: lit "resent").
  rewrite app_assoc. apply includes_skip.
  apply Forall_app. split; [exact Ha|].
  vm_compute. repeat constructor; discriminate.
Qed.

Lemma includes_Present_self (b : jsstring) :
  includes (lit "Present" ++ b) (lit "Present") = true.
Proof. apply includes_spec. exists [], b. reflexivity. Qed.

Section FormatFacts.
Variable Date_parse : jsstring -> number.
Variable LocalTZA : Z -> Z.

Lemma formatDate_Present (d : option jsstring) :
  includes (formatDate Date_parse LocalTZA d) (lit "Present") = true <->
  d = None \/ d = Some [].
Proof.
  destruct (formatDate_cases Date_parse LocalTZA d) as [[Hd ->]|(c & s & -> & ->)].
  - split; [intros _; exact Hd | intros _; reflexivity].
  - change (lit "Present") with (80 :: lit "resent").
    rewrite includes_absent.
    + split; [discriminate | intros [|]; discriminate].
    + eapply Forall_impl; [apply toLocaleDateString_chars|]. simpl. intros x [_ Hx]. exact Hx.
Qed.

Lemma formatDuration_Present_start (c : Z) (s : jsstring) (e : option jsstring) :
  includes (formatDuration Date_parse LocalTZA (c :: s) e) (lit "Present") = true <->
  e = None \/ e = Some [].
Proof.
  unfold formatDuration. rewrite includes_Present_after.
  - apply formatDate_Present.
  - simpl. eapply Forall_impl; [apply toLocaleDateString_chars|].
    simpl. intros x [_ Hx]. exact Hx.
Qed.

(** C7, as amended.  [formatDuration start end] is [formatDate start],
    the separator and [formatDate end]; the separator occurs exactly once in
    it; and when [start] is not the empty string, "Present" occurs in it if
    and only if [end] is null or the empty string. *)
Theorem formatDuration_spec (start : jsstring) (e : option jsstring) :
  start <> [] ->
  formatDuration Date_parse LocalTZA start e =
    formatDate Date_parse LocalTZA (Some start) ++ lit " - "
      ++ formatDate Date_parse LocalTZA e /\
  occurrences (lit " - ") (formatDuration Date_parse LocalTZA start e) = 1%nat /\
  (includes (formatDuration Date_parse LocalTZA start e) (lit "Present") = true <->
   e = None \/ e = Some []).
Proof.
  intros Hstart. split; [reflexivity|]. split.
  - unfold formatDuration. apply occurrences_separator; apply formatDate_no_hyphen.
  - destruct start as [|c s]; [contradiction|]. apply formatDuration_Present_start.
Qed.

(** The separator occurs exactly once for every pair of arguments. *)
Lemma formatDuration_one_separator (start : jsstring) (e : option jsstring) :
  occurrences (lit " - ") (formatDuration Date_parse LocalTZA start e) = 1%nat.
Proof. unfold formatDuration. apply occurrences_separator; apply formatDate_no_hyphen. Qed.

(** C10.  [formatDate] treats the empty string as it treats [null]: both
    give "Present".  Hence [formatDuration "" e] contains "Present" whatever
    [e] is, and for a start that is not empty "Present" occurs only for an
    end that is null (or, again, empty). *)
Theorem formatDate_empty_is_Present :
  formatDate Date_parse LocalTZA (Some []) = lit "Present" /\
  formatDate Date_parse LocalTZA (Some []) = formatDate Date_parse LocalTZA None /\
  (forall e : option jsstring,
      includes (formatDuration Date_parse LocalTZA [] e) (lit "Present") = true) /\
  (forall (c : Z) (s : jsstring) (e : option jsstring),
      includes (formatDuration Date_parse LocalTZA (c :: s) e) (lit "Present") = true <->
      e = None \/ e = Some []).
Proof.
  split; [reflexivity|]. split; [reflexivity|]. split.
  - intros e. unfold formatDuration.
    change (formatDate Date_parse LocalTZA (Some [])) with (lit "Present").
    apply includes_Present_self.
  - apply formatDuration_Present_start.
Qed.
End FormatFacts.

(** The statement above for the start "2023-01-15" and a null end. *)
Lemma formatDuration_spec_witness :
  formatDuration isoDateParse utcZone (lit "2023-01-15") None =
    formatDate isoDateParse utcZone (Some (lit "2023-01-15")) ++ lit " - "
      ++ formatDate isoDateParse utcZone None /\
  occurrences (lit " - ") (formatDuration isoDateParse utcZone (lit "2023-01-15") None) = 1%nat /\
  (includes (formatDuration isoDateParse utcZone (lit "2023-01-15") None) (lit "Present") = true <->
   (None : option jsstring) = None \/ (None : option jsstring) = Some []).
Proof.
  apply (formatDuration_spec isoDateParse utcZone (lit "2023-01-15") None).
  vm_compute. discriminate.
Defined.

(** C7, counterexample.  With the empty string as start, the result
    contains "Present" although the end date is not null; so it does with
    an end date that is the empty string. *)
Lemma formatDuration_empty_start_counterexample :
  formatDuration isoDateParse utcZone [] (Some (lit "2020-03-01")) = lit "Present - Mar 2020" /\
  includes (formatDuration isoDateParse utcZone [] (Some (lit "2020-03-01"))) (lit "Present") = true /\
  Some (lit "2020-03-01") <> None /\
  formatDuration isoDateParse utcZone (lit "2020-03-01") (Some []) = lit "Mar 2020 - Present" /\
  (Some [] : option jsstring) <> None.
Proof. repeat split; try reflexivity; discriminate. Qed.

(* ----------------------------------------------------------------- *)
(** ** The calendar *)

Lemma floor_step_4 (y : Z) :
  (y + 1 - 1969) / 4 = (y - 1969) / 4 + (if y mod 4 =? 0 then 1 else 0).
Proof. destruct (Z.eqb_spec (y mod 4) 0); Z.div_mod_to_equations; lia. Qed.

Lemma floor_step_100 (y : Z) :
  (y + 1 - 1901) / 100 = (y - 1901) / 100 + (if y mod 100 =? 0 then 1 else 0).
Proof. destruct (Z.eqb_spec (y mod 100) 0); Z.div_mod_to_equations; lia. Qed.

Lemma floor_step_400 (y : Z) :
  (y + 1 - 1601) / 400 = (y - 1601) / 400 + (if y mod 400 =? 0 then 1 else 0).
Proof. destruct (Z.eqb_spec (y mod 400) 0); Z.div_mod_to_equations; lia. Qed.

(** A year has 365 or 366 days. *)
Lemma DayFromYear_succ (y : Z) : DayFromYear (y + 1) = DayFromYear y + DaysInYear y.
Proof.
  unfold DayFromYear, DaysInYear, isLeapYear.
  rewrite floor_step_4, floor_step_100, floor_step_400.
  assert (H4 : y mod 100 = 0 -> y mod 4 = 0) by (Z.div_mod_to_equations; lia).
  assert (H100 : y mod 400 = 0 -> y mod 100 = 0) by (Z.div_mod_to_equations; lia).
  destruct (Z.eqb_spec (y mod 4) 0), (Z.eqb_spec (y mod 100) 0), (Z.eqb_spec (y mod 400) 0);
    cbn [negb]; lia.
Qed.

Lemma DayFromYear_lt (y1 y2 : Z) : y1 < y2 -> DayFromYear y1 < DayFromYear y2.
Proof. unfold DayFromYear. Z.div_mod_to_equations. lia. Qed.

(** [YearFromDay d] is the year that contains the day [d]: the largest year
    that starts on or before [d], as ECMAScript defines [YearFromTime]. *)
Lemma YearFromDay_spec (d : Z) :
  DayFromYear (YearFromDay d) <= d < DayFromYear (YearFromDay d + 1).
Proof.
  unfold YearFromDay. cbv zeta.
  destruct (Z.leb_spec (DayFromYear (1970 + 400 * d / 146097 + 1)) d).
  - split; [assumption|]. unfold DayFromYear in *. Z.div_mod_to_equations. lia.
  - destruct (Z.leb_spec (DayFromYear (1970 + 400 * d / 146097)) d).
    + split; assumption.
    + replace (1970 + 400 * d / 146097 - 1 + 1) with (1970 + 400 * d / 146097) by lia.
      split; [|assumption]. unfold DayFromYear in *. Z.div_mod_to_equations. lia.
Qed.

Lemma YearFromDay_unique (d y : Z) :
  DayFromYear y <= d < DayFromYear (y + 1) -> YearFromDay d = y.
Proof.
  intros Hy. pose proof (YearFromDay_spec d) as Hs.
  destruct (Z.lt_trichotomy (YearFromDay d) y) as [Hlt|[Heq|Hgt]]; [|exact Heq|].
  - assert (YearFromDay d + 1 <= y) as Hle by lia.
    apply Zle_lt_or_eq in Hle as [Hle|Hle].
    + pose proof (DayFromYear_lt _ _ Hle). lia.
    + rewrite Hle in Hs. lia.
  - assert (y + 1 <= YearFromDay d) as Hle by lia.
    apply Zle_lt_or_eq in Hle as [Hle|Hle].
    + pose proof (DayFromYear_lt _ _ Hle). lia.
    + rewrite <- Hle in Hs. lia.
Qed.

Lemma daysBeforeMonth_bounds (y m d : Z) :
  0 <= m <= 11 -> 1 <= d <= DaysInMonth y m ->
  0 <= daysBeforeMonth (isLeapYear y) m + (d - 1) < DaysInYear y.
Proof.
  intros Hm Hd. unfold DaysInYear.
  assert (Hcases : m = 0 \/ m = 1 \/ m = 2 \/ m = 3 \/ m = 4 \/ m = 5 \/ m = 6 \/ m = 7
                   \/ m = 8 \/ m = 9 \/ m = 10 \/ m = 11) by lia.
  repeat (destruct Hcases as [->|Hcases]); try subst m;
    unfold daysBeforeMonth, DaysInMonth in *; cbv beta iota zeta in *;
    destruct (isLeapYear y); lia.
Qed.

(** The calendar date of a day given by year, month (0..11) and day of the
    month is that year and that month. *)
Lemma YearFromDay_MakeDay (y m d : Z) :
  0 <= m <= 11 -> 1 <= d <= DaysInMonth y m ->
  YearFromDay (MakeDay y m d) = y.
Proof.
  intros Hm Hd. apply YearFromDay_unique. rewrite DayFromYear_succ.
  pose proof (daysBeforeMonth_bounds y m d Hm Hd). unfold MakeDay. lia.
Qed.

Lemma month_of_day (t y m d : Z) :
  0 <= m <= 11 -> 1 <= d <= DaysInMonth y m ->
  Day t = MakeDay y m d ->
  YearFromTime t = y /\ MonthFromTime t = m.
Proof.
  intros Hm Hd Ht.
  assert (Hy : YearFromTime t = y).
  { unfold YearFromTime. rewrite Ht. apply YearFromDay_MakeDay; assumption. }
  split; [exact Hy|].
  unfold MonthFromTime, DayWithinYear, InLeapYear. rewrite Hy, Ht. unfold MakeDay.
  replace (DayFromYear y + daysBeforeMonth (isLeapYear y) m + (d - 1) - DayFromYear y)
    with (daysBeforeMonth (isLeapYear y) m + (d - 1)) by lia.
  assert (Hcases : m = 0 \/ m = 1 \/ m = 2 \/ m = 3 \/ m = 4 \/ m = 5 \/ m = 6 \/ m = 7
                   \/ m = 8 \/ m = 9 \/ m = 10 \/ m = 11) by lia.
  cbv zeta.
  repeat (destruct Hcases as [->|Hcases]); try subst m;
    unfold daysBeforeMonth, DaysInMonth in *; cbv beta iota zeta in *;
    destruct (isLeapYear y);
    repeat match goal with
           | |- context [?a <? ?b] => destruct (Z.ltb_spec a b); try lia
           end.
Qed.

Lemma Day_shift (n r : Z) : 0 <= r < msPerDay -> Day (n * msPerDay + r) = n.
Proof.
  intros Hr. unfold Day, msPerDay in *. Z.div_mod_to_equations. lia.
Qed.

(** The reference parser reads the ISO date-only form as ECMAScript
    prescribes. *)
Lemma digitValue_digit (n : Z) : digitValue (digit n) = Some (n mod 10).
Proof.
  unfold digitValue, digit.
  assert (0 <= n mod 10 < 10) by (apply Z.mod_pos_bound; lia).
  destruct (Z.leb_spec 48 (48 + n mod 10)), (Z.leb_spec (48 + n mod 10) 57);
    simpl; try lia. f_equal. lia.
Qed.

Lemma isoDateParse_isoDate (y m d : Z) :
  validYMD y m d -> isoDateParse (isoDate y m d) = Some (utcMidnight y (m - 1) d).
Proof.
  intros (Hy & Hm & Hd).
  unfold isoDate, pad4, pad2. cbn [app]. unfold isoDateParse.
  rewrite !digitValue_digit. cbn [mbind option_bind].
  replace (1000 * ((y / 1000) mod 10) + 100 * ((y / 100) mod 10) + 10 * ((y / 10) mod 10) + y mod 10)
    with y by (Z.div_mod_to_equations; lia).
  replace (10 * ((m / 10) mod 10) + m mod 10) with m by (Z.div_mod_to_equations; lia).
  assert (Hdim : DaysInMonth y (m - 1) <= 31).
  { unfold DaysInMonth.
    repeat match goal with
           | |- context [match ?x with _ => _ end] => destruct x
           end; lia. }
  replace (10 * ((d / 10) mod 10) + d mod 10) with d by (Z.div_mod_to_equations; lia).
  destruct (Z.leb_spec 1 m), (Z.leb_spec m 12), (Z.leb_spec 1 d),
    (Z.leb_spec d (DaysInMonth y (m - 1))); try lia.
  reflexivity.
Qed.

Lemma validYMD_month (y m d : Z) :
  validYMD y m d -> 0 <= m - 1 <= 11 /\ 1 <= d <= DaysInMonth y (m - 1).
Proof. intros (_ & Hm & Hd). split; [lia | exact Hd]. Qed.

Lemma isoDate_truthy (y m d : Z) : truthy (isoDate y m d) = true.
Proof. reflexivity. Qed.

Section FormatDateFacts.
Variable Date_parse : jsstring -> number.
Variable LocalTZA : Z -> Z.

(** ECMAScript prescribes how the date-only form is read. *)
Hypothesis Date_parse_iso :
  forall y m d, validYMD y m d ->
                Date_parse (isoDate y m d) = Some (utcMidnight y (m - 1) d).

(** [toLocaleDateString] prints the month and the year of the local
    calendar day. *)
Lemma toLocaleDateString_local (t y m d : Z) :
  validYMD y m d -> 1 <= y ->
  Day (LocalTime LocalTZA t) = MakeDay y (m - 1) d ->
  toLocaleDateString LocalTZA (Some t) = monthShort (m - 1) ++ lit " " ++ numberToString y.
Proof.
  intros Hv Hy Hday. destruct (validYMD_month _ _ _ Hv) as [Hm Hd].
  destruct (month_of_day _ _ _ _ Hm Hd Hday) as [HY HM].
  unfold toLocaleDateString. rewrite HY, HM. unfold yearNumeric.
  destruct (Z.leb_spec 1 y); [reflexivity | lia].
Qed.

(** In a zone at or east of UTC (less than a day ahead), [formatDate]
    prints the month and year that the date string names. *)
Lemma formatDate_east (y m d : Z) :
  (forall t, 0 <= LocalTZA t < msPerDay) ->
  validYMD y m d -> 1 <= y ->
  formatDate Date_parse LocalTZA (Some (isoDate y m d)) =
  monthShort (m - 1) ++ lit " " ++ numberToString y.
Proof using Date_parse_iso.
  intros Hzone Hv Hy. unfold formatDate. rewrite isoDate_truthy. cbn [negb].
  rewrite (Date_parse_iso _ _ _ Hv).
  apply (toLocaleDateString_local _ y m d Hv Hy).
  unfold LocalTime, utcMidnight. apply Day_shift. apply Hzone.
Qed.

(** In a zone west of UTC (less than a day behind), the first day of a
    month is printed as the month before: midnight UTC on that day is still
    the evening of the last day of the previous month there. *)
Lemma formatDate_west_first_day (y m : Z) :
  (forall t, - msPerDay <= LocalTZA t < 0) ->
  1 <= y <= 9999 -> 2 <= m <= 12 ->
  formatDate Date_parse LocalTZA (Some (isoDate y m 1)) =
  monthShort (m - 2) ++ lit " " ++ numberToString y.
Proof using Date_parse_iso.
  intros Hzone Hy Hm. unfold formatDate. rewrite isoDate_truthy. cbn [negb].
  assert (Hv : validYMD y m 1).
  { split; [lia|]. split; [lia|]. unfold DaysInMonth.
    repeat match goal with
           | |- context [match ?x with _ => _ end] => destruct x
           end; lia. }
  rewrite (Date_parse_iso _ _ _ Hv).
  assert (Hv' : validYMD y (m - 1) (DaysInMonth y (m - 2))).
  { split; [lia|]. split; [lia|]. replace (m - 1 - 1) with (m - 2) by lia.
    unfold DaysInMonth.
    repeat match goal with
           | |- context [match ?x with _ => _ end] => destruct x
           end; lia. }
  replace (m - 2) with (m - 1 - 1) at 1 by lia.
  apply (toLocaleDateString_local _ y (m - 1) (DaysInMonth y (m - 2)) Hv'); [lia|].
  unfold LocalTime, utcMidnight.
  specialize (Hzone (MakeDay y (m - 1) 1 * msPerDay)).
  replace (MakeDay y (m - 1) 1 * msPerDay + LocalTZA (MakeDay y (m - 1) 1 * msPerDay))
    with ((MakeDay y (m - 1) 1 - 1) * msPerDay
          + (msPerDay + LocalTZA (MakeDay y (m - 1) 1 * msPerDay))) by lia.
  rewrite Day_shift by lia.
  unfold MakeDay. replace (m - 1 - 1) with (m - 2) by lia.
  assert (Hab : m - 1 = m - 2 + 1 /\ 0 <= m - 2 <= 10) by lia.
  revert Hab. generalize (m - 1), (m - 2). intros a b Hab.
  destruct Hab as [Ha Hb].
  assert (Hcases : b = 0 \/ b = 1 \/ b = 2 \/ b = 3 \/ b = 4 \/ b = 5 \/ b = 6 \/ b = 7
                   \/ b = 8 \/ b = 9 \/ b = 10) by (clear - Hb; lia).
  clear Hb.
  repeat (destruct Hcases as [->|Hcases]); try subst b; vm_compute in Ha; subst a;
    unfold daysBeforeMonth, DaysInMonth; cbv beta iota zeta;
    destruct (isLeapYear y); lia.
Qed.

(** A date in the middle of a month is printed with its own month in every
    zone less than a day away from UTC. *)
Lemma formatDate_mid_month (y m d : Z) :
  (forall t, - msPerDay <= LocalTZA t < msPerDay) ->
  validYMD y m d -> 1 <= y -> 2 <= d -> d + 1 <= DaysInMonth y (m - 1) ->
  formatDate Date_parse LocalTZA (Some (isoDate y m d)) =
  monthShort (m - 1) ++ lit " " ++ numberToString y.
Proof using Date_parse_iso.
  intros Hzone Hv Hy Hd1 Hd2. unfold formatDate. rewrite isoDate_truthy. cbn [negb].
  rewrite (Date_parse_iso _ _ _ Hv).
  destruct Hv as (Hy' & Hm & Hd).
  specialize (Hzone (utcMidnight y (m - 1) d)).
  destruct (Z.lt_ge_cases (LocalTZA (utcMidnight y (m - 1) d)) 0) as [Hneg|Hpos].
  - apply (toLocaleDateString_local _ y m (d - 1)); [repeat split; lia | lia |].
    unfold LocalTime, utcMidnight in *.
    replace (MakeDay y (m - 1) d * msPerDay + LocalTZA (MakeDay y (m - 1) d * msPerDay))
      with (MakeDay y (m - 1) (d - 1) * msPerDay
            + (msPerDay + LocalTZA (MakeDay y (m - 1) d * msPerDay)))
      by (unfold MakeDay; lia).
    apply Day_shift. lia.
  - apply (toLocaleDateString_local _ y m d); [repeat split; lia | lia |].
    unfold LocalTime, utcMidnight in *. apply Day_shift. lia.
Qed.
End FormatDateFacts.

(** C6.  The date string "2024-01-01" is read as midnight UTC; in a zone
    five hours behind UTC that instant is the evening of 31 December 2023,
    and [formatDate] prints "Dec 2023", not the month and year that the
    string names.  In UTC it prints "Jan 2024".  The example of the
    specification is in the middle of a month and is printed as "Jan 2023"
    there too. *)
Theorem formatDate_depends_on_zone :
  isoDateParse (lit "2024-01-01") = Some (utcMidnight 2024 0 1) /\
  LocalTime fiveHoursBehind (utcMidnight 2024 0 1) = utcMidnight 2023 11 31 + 19 * msPerHour /\
  formatDate isoDateParse fiveHoursBehind (Some (lit "2024-01-01")) = lit "Dec 2023" /\
  formatDate isoDateParse utcZone (Some (lit "2024-01-01")) = lit "Jan 2024" /\
  formatDuration isoDateParse fiveHoursBehind (lit "2023-01-15") None = lit "Jan 2023 - Present".
Proof. repeat split; vm_compute; reflexivity. Qed.

(** The example of the specification holds in every zone less than a day
    away from UTC. *)
Lemma formatDuration_2023_01_15 (Date_parse : jsstring -> number) (LocalTZA : Z -> Z) :
  (forall y m d, validYMD y m d ->
                 Date_parse (isoDate y m d) = Some (utcMidnight y (m - 1) d)) ->
  (forall t, - msPerDay <= LocalTZA t < msPerDay) ->
  formatDuration Date_parse LocalTZA (lit "2023-01-15") None = lit "Jan 2023 - Present".
Proof.
  intros Hparse Hzone. unfold formatDuration.
  change (lit "2023-01-15") with (isoDate 2023 1 15).
  rewrite (formatDate_mid_month Date_parse LocalTZA Hparse 2023 1 15 Hzone);
    [reflexivity | | lia | lia | vm_compute; discriminate].
  repeat split; vm_compute; discriminate.
Qed.

(* ----------------------------------------------------------------- *)
(** ** The canned-response matcher *)

(** One [if] of the chain is one step of the search in the table. *)
Lemma firstMatch_step (inc : jsstring -> bool) (c : bool) (r : CannedReplyRule)
    (rs : list CannedReplyRule) (fallback rest : jsstring) :
  c = existsb inc (keywords r) ->
  rest = match List.find (fun r' => existsb inc (keywords r')) rs with
         | Some r' => reply r'
         | None => fallback
         end ->
  (if c then reply r else rest) =
  match List.find (fun r' => existsb inc (keywords r')) (r :: rs) with
  | Some r' => reply r'
  | None => fallback
  end.
Proof. intros -> ->. simpl. destruct (existsb inc (keywords r)); reflexivity. Qed.

Ltac chain_step inc :=
  lazymatch goal with
  | |- _ = match List.find _ (?r :: ?rs) with _ => _ end =>
      apply (firstMatch_step inc _ r rs);
      [cbn [existsb keywords]; rewrite orb_false_r, ?orb_assoc; reflexivity|]
  end.

Section MatcherFacts.
Variable profile : Profile.
Variable toLowerCase : jsstring -> jsstring.

(** The chain of [if]s is the first-match search in the table of rules. *)
Lemma getAutoReply_firstMatch (m : jsstring) :
  getAutoReply profile toLowerCase m = firstMatch profile (toLowerCase m).
Proof.
  unfold getAutoReply, firstMatch, rules, ruleMatches. cbv zeta.
  set (inc := includes (toLowerCase m)). clearbody inc.
  repeat chain_step inc.
  reflexivity.
Qed.

(** The first rule that matches gives the reply. *)
Lemma firstMatch_first (lowered : jsstring) (pre post : list CannedReplyRule)
    (r : CannedReplyRule) :
  rules profile = pre ++ r :: post ->
  Forall (fun r' => ruleMatches lowered r' = false) pre ->
  ruleMatches lowered r = true ->
  firstMatch profile lowered = reply r.
Proof.
  intros Hrules Hpre Hr. unfold firstMatch. rewrite Hrules. clear Hrules.
  induction Hpre as [|r' pre Hr' _ IH]; simpl.
  - rewrite Hr. reflexivity.
  - rewrite Hr'. exact IH.
Qed.

Lemma firstMatch_none (lowered : jsstring) :
  Forall (fun r' => ruleMatches lowered r' = false) (rules profile) ->
  firstMatch profile lowered = fallbackReply profile.
Proof.
  unfold firstMatch. generalize (rules profile).
  induction 1 as [|r' l Hr' _ IH]; simpl; [reflexivity|].
  rewrite Hr'. exact IH.
Qed.

Lemma firstMatch_cases (lowered : jsstring) :
  firstMatch profile lowered = fallbackReply profile \/
  exists r, In r (rules profile) /\ firstMatch profile lowered = reply r.
Proof.
  unfold firstMatch.
  destruct (List.find (ruleMatches lowered) (rules profile)) as [r|] eqn:E.
  - right. exists r. split; [|reflexivity]. apply find_some in E. apply E.
  - left. reflexivity.
Qed.

Lemma lit_app_nonempty (a : ascii) (s : string) (t : jsstring) :
  lit (String a s) ++ t <> [].
Proof. discriminate. Qed.

Lemma lit_nonempty (a : ascii) (s : string) : lit (String a s) <> [].
Proof. discriminate. Qed.

Lemma replies_nonempty :
  Forall (fun r => reply r <> []) (rules profile) /\ fallbackReply profile <> [].
Proof.
  split.
  - unfold rules.
    repeat (constructor; [first [apply lit_app_nonempty | apply lit_nonempty]|]).
    constructor.
  - apply lit_app_nonempty.
Qed.

Lemma fallbackReply_email :
  includes (fallbackReply profile) (email profile) = true.
Proof. apply includes_spec. unfold fallbackReply. eauto. Qed.

(** C1.  [getAutoReply] is a total function: it lower-cases the message and
    returns the reply of the first rule, in the fixed order of the table,
    one of whose keywords occurs in the lowered message; when no rule
    matches it returns the fallback reply, which contains the e-mail address
    of the profile; "Hello there" gets the greeting; the result is never
    the empty string.  (Lower-casing is the engine's; on ASCII strings it
    maps the letters A-Z to a-z.) *)
Theorem getAutoReply_spec :
  (forall s, isAscii s -> toLowerCase s = asciiToLowerCase s) ->
  (forall m, getAutoReply profile toLowerCase m = firstMatch profile (toLowerCase m)) /\
  (forall m pre r post,
      rules profile = pre ++ r :: post ->
      Forall (fun r' => ruleMatches (toLowerCase m) r' = false) pre ->
      ruleMatches (toLowerCase m) r = true ->
      getAutoReply profile toLowerCase m = reply r) /\
  (forall m,
      Forall (fun r' => ruleMatches (toLowerCase m) r' = false) (rules profile) ->
      getAutoReply profile toLowerCase m = fallbackReply profile) /\
  includes (fallbackReply profile) (email profile) = true /\
  getAutoReply profile toLowerCase (lit "Hello there") = greetingReply profile /\
  getAutoReply profile toLowerCase (lit "asdkjasd") = fallbackReply profile /\
  (forall m, getAutoReply profile toLowerCase m <> []).
Proof.
  intros Hlower.
  split; [apply getAutoReply_firstMatch|].
  split.
  { intros m pre r post Hrules Hpre Hr. rewrite getAutoReply_firstMatch.
    eapply firstMatch_first; eassumption. }
  split.
  { intros m Hnone. rewrite getAutoReply_firstMatch. apply firstMatch_none. exact Hnone. }
  split; [apply fallbackReply_email|].
  split.
  { rewrite getAutoReply_firstMatch, Hlower
      by (unfold isAscii; vm_compute; repeat constructor; discriminate).
    apply (firstMatch_first _ [] (List.tl (rules profile))
             (List.hd {| keywords := []; reply := [] |} (rules profile))).
    - reflexivity.
    - constructor.
    - vm_compute. reflexivity. }
  split.
  { rewrite getAutoReply_firstMatch, Hlower
      by (unfold isAscii; vm_compute; repeat constructor; discriminate).
    apply firstMatch_none. unfold rules, ruleMatches.
    repeat (constructor; [vm_compute; reflexivity|]). constructor. }
  intros m. rewrite getAutoReply_firstMatch.
  destruct replies_nonempty as [Hrules Hfallback].
  destruct (firstMatch_cases (toLowerCase m)) as [->|(r & Hin & ->)]; [exact Hfallback|].
  rewrite Forall_forall in Hrules. apply Hrules. apply list_elem_of_In. exact Hin.
Qed.
End MatcherFacts.

(** The statement above for the sample profile and ASCII lower-casing. *)
Lemma getAutoReply_spec_witness :
  (forall m, getAutoReply sampleProfile asciiToLowerCase m
             = firstMatch sampleProfile (asciiToLowerCase m)) /\
  (forall m pre r post,
      rules sampleProfile = pre ++ r :: post ->
      Forall (fun r' => ruleMatches (asciiToLowerCase m) r' = false) pre ->
      ruleMatches (asciiToLowerCase m) r = true ->
      getAutoReply sampleProfile asciiToLowerCase m = reply r) /\
  (forall m,
      Forall (fun r' => ruleMatches (asciiToLowerCase m) r' = false) (rules sampleProfile) ->
      getAutoReply sampleProfile asciiToLowerCase m = fallbackReply sampleProfile) /\
  includes (fallbackReply sampleProfile) (email sampleProfile) = true /\
  getAutoReply sampleProfile asciiToLowerCase (lit "Hello there") = greetingReply sampleProfile /\
  getAutoReply sampleProfile asciiToLowerCase (lit "asdkjasd") = fallbackReply sampleProfile /\
  (forall m, getAutoReply sampleProfile asciiToLowerCase m <> []).
Proof.
  apply (getAutoReply_spec sampleProfile asciiToLowerCase).
  intros s _. reflexivity.
Defined.

(* ----------------------------------------------------------------- *)
(** ** The chat session *)

Section ChatFacts.
Variable profile : Profile.
Variable toLowerCase : jsstring -> jsstring.

Lemma handleSendMessage_blank (t_id t_ts t_set : Z) (w : Widget) :
  trim (inputValue w) = [] ->
  handleSendMessage t_id t_ts t_set w = w.
Proof. unfold handleSendMessage. intros ->. reflexivity. Qed.

Lemma handleSendMessage_send (t_id t_ts t_set : Z) (w : Widget) :
  trim (inputValue w) <> [] ->
  handleSendMessage t_id t_ts t_set w =
  {| chatState :=
       {| isOpen := isOpen (chatState w);
          messages := messages (chatState w) ++
            [{| id := lit "msg-" ++ numberToString t_id;
                content := trim (inputValue w);
                sender := user;
                timestamp := t_ts |}] |};
     inputValue := [];
     timers := timers w ++ [{| due := t_set + 1000; userMessage := trim (inputValue w) |}] |}.
Proof.
  unfold handleSendMessage. intros Hne.
  destruct (trim (inputValue w)) as [|c t]; [contradiction|]. reflexivity.
Qed.

(** C2.  When the trimmed input is empty, [handleSendMessage] changes
    nothing.  Otherwise it appends exactly one message to the end of
    [messages], with sender [user] and the trimmed input as content, and
    leaves the messages that were there as they were. *)
Theorem handleSendMessage_spec (t_id t_ts t_set : Z) (w : Widget) :
  (trim (inputValue w) = [] /\ handleSendMessage t_id t_ts t_set w = w)
  \/
  (trim (inputValue w) <> [] /\
   exists m : ChatMessage,
     messages (chatState (handleSendMessage t_id t_ts t_set w)) =
       messages (chatState w) ++ [m] /\
     sender m = user /\
     content m = trim (inputValue w) /\
     id m = lit "msg-" ++ numberToString t_id /\
     timestamp m = t_ts).
Proof.
  destruct (trim (inputValue w)) as [|c t] eqn:E.
  - left. split; [reflexivity|]. apply handleSendMessage_blank. exact E.
  - right. split; [discriminate|].
    rewrite handleSendMessage_send by (rewrite E; discriminate).
    rewrite E. eexists. simpl. repeat split.
Qed.

(** A timer that is due fires, whether the widget is open or closed, and
    appends the reply. *)
Lemma step_TimerFires (s : Session) (i : nat) (tm : Timer) (t_id t_ts : Z) :
  timers (widget s) !! i = Some tm ->
  due tm <= t_id -> clock s <= t_id -> t_id <= t_ts ->
  step profile toLowerCase (TimerFires i t_id t_ts) s =
  Some {| widget :=
            {| chatState :=
                 {| isOpen := isOpen (chatState (widget s));
                    messages := messages (chatState (widget s)) ++
                      [{| id := lit "msg-" ++ numberToString t_id;
                          content := getAutoReply profile toLowerCase (userMessage tm);
                          sender := owner;
                          timestamp := t_ts |}] |};
               inputValue := inputValue (widget s);
               timers := delete i (timers (widget s)) |};
          clock := t_ts |}.
Proof.
  intros Htm H1 H2 H3. unfold step. rewrite Htm.
  destruct (Z.leb_spec (due tm) t_id), (Z.leb_spec (clock s) t_id), (Z.leb_spec t_id t_ts);
    try lia. reflexivity.
Qed.

Lemma step_TimerFires_inv (s s' : Session) (i : nat) (t_id t_ts : Z) :
  step profile toLowerCase (TimerFires i t_id t_ts) s = Some s' ->
  exists tm, timers (widget s) !! i = Some tm /\
             due tm <= t_id /\ clock s <= t_id /\ t_id <= t_ts.
Proof.
  unfold step. destruct (timers (widget s) !! i) as [tm|]; [|discriminate].
  destruct (Z.leb_spec (due tm) t_id), (Z.leb_spec (clock s) t_id), (Z.leb_spec t_id t_ts);
    try discriminate. intros _. exists tm. repeat split; assumption.
Qed.

Lemma step_Submit_inv (s s' : Session) (t_id t_ts t_set : Z) :
  step profile toLowerCase (Submit t_id t_ts t_set) s = Some s' ->
  s' = {| widget := handleSendMessage t_id t_ts t_set (widget s); clock := t_set |} /\
  clock s <= t_id /\ t_id <= t_ts /\ t_ts <= t_set.
Proof.
  unfold step.
  destruct (Z.leb_spec (clock s) t_id), (Z.leb_spec t_id t_ts), (Z.leb_spec t_ts t_set);
    try discriminate. intros [= <-]. repeat split; assumption.
Qed.

Lemma repliesMatchUsers_mount (initialMessages : list ChatMessage) :
  repliesMatchUsers profile toLowerCase initialMessages (mount initialMessages).
Proof.
  exists [], [], []. simpl. rewrite app_nil_r.
  repeat split; constructor.
Qed.

Lemma Forall2_delete_middle {A B : Type} (R : A -> B -> Prop) (l : list A) (k : list B)
    (i : nat) (b : B) :
  Forall2 R l k -> k !! i = Some b ->
  exists l1 a l2, l = l1 ++ a :: l2 /\ R a b /\ Forall2 R (l1 ++ l2) (delete i k).
Proof.
  intros H. revert i. induction H as [|a0 b0 l k Hab Hlk IH]; intros i Hi.
  - discriminate.
  - destruct i as [|i]; simpl in Hi.
    + injection Hi as ->. exists [], a0, l. repeat split; assumption.
    + destruct (IH i Hi) as (l1 & a & l2 & -> & Ha & Hrest).
      exists (a0 :: l1), a, l2. repeat split; [assumption|].
      simpl. constructor; assumption.
Qed.

(** Every step keeps the correspondence. *)
Lemma step_repliesMatchUsers (initialMessages : list ChatMessage) (e : event)
    (s s' : Session) :
  step profile toLowerCase e s = Some s' ->
  repliesMatchUsers profile toLowerCase initialMessages (widget s) ->
  repliesMatchUsers profile toLowerCase initialMessages (widget s').
Proof.
  intros Hstep (new & answered & pending & Hmsgs & Hperm & Hans & Hpend).
  destruct e as [|v|t_id t_ts t_set|i t_id t_ts].
  - injection Hstep as <-. exists new, answered, pending. simpl. auto.
  - injection Hstep as <-. exists new, answered, pending. simpl. auto.
  - apply step_Submit_inv in Hstep as (-> & Hc & Hid & Hts). simpl.
    destruct (trim (inputValue (widget s))) as [|c t] eqn:E.
    + rewrite handleSendMessage_blank by exact E.
      exists new, answered, pending. auto.
    + rewrite handleSendMessage_send by (rewrite E; discriminate). rewrite E.
      set (u := {| id := lit "msg-" ++ numberToString t_id; content := c :: t;
                   sender := user; timestamp := t_ts |}).
      exists (new ++ [u]), answered, (pending ++ [u]). simpl.
      split; [rewrite Hmsgs, app_assoc; reflexivity|].
      split; [|split].
      * rewrite filter_app, Hperm, app_assoc. reflexivity.
      * rewrite filter_app. simpl. rewrite app_nil_r. exact Hans.
      * apply Forall2_app; [exact Hpend|].
        constructor; [|constructor]. split; simpl; [reflexivity | lia].
  - destruct (step_TimerFires_inv _ _ _ _ _ Hstep) as (tm & Htm & Hdue & Hc & Hid).
    rewrite (step_TimerFires s i tm t_id t_ts Htm Hdue Hc Hid) in Hstep.
    injection Hstep as <-. simpl.
    destruct (Forall2_delete_middle _ _ _ _ _ Hpend Htm)
      as (p1 & u & p2 & -> & [Hu1 Hu2] & Hrest).
    set (r := {| id := lit "msg-" ++ numberToString t_id;
                 content := getAutoReply profile toLowerCase (userMessage tm);
                 sender := owner; timestamp := t_ts |}).
    exists (new ++ [r]), (answered ++ [u]), (p1 ++ p2). simpl.
    split; [rewrite Hmsgs, app_assoc; reflexivity|].
    split; [|split].
    * rewrite filter_app. simpl. rewrite app_nil_r, Hperm.
      rewrite <- !app_assoc. apply Permutation_app_head.
      simpl. symmetry. apply Permutation_middle.
    * rewrite filter_app. simpl. apply Forall2_app; [exact Hans|].
      constructor; [|constructor].
      split; [reflexivity|]. split; simpl; [congruence | lia].
    * exact Hrest.
Qed.

Lemma run_repliesMatchUsers (initialMessages : list ChatMessage) (es : list event)
    (s s' : Session) :
  run profile toLowerCase es s = Some s' ->
  repliesMatchUsers profile toLowerCase initialMessages (widget s) ->
  repliesMatchUsers profile toLowerCase initialMessages (widget s').
Proof.
  revert s. induction es as [|e es IH]; intros s; simpl.
  - intros [= <-]. auto.
  - destruct (step profile toLowerCase e s) as [s1|] eqn:E; [|discriminate].
    intros Hrun Hinv. apply (IH s1 Hrun). eapply step_repliesMatchUsers; eassumption.
Qed.

(** No reply is lost: from every state the pending timers can all fire,
    one after the other, and each appends its reply. *)
Lemma pending_replies_fire (s : Session) :
  exists (es : list event) (s' : Session) (added : list ChatMessage),
    run profile toLowerCase es s = Some s' /\
    timers (widget s') = [] /\
    messages (chatState (widget s')) = messages (chatState (widget s)) ++ added /\
    Forall2 (fun tm r => sender r = owner /\
                         content r = getAutoReply profile toLowerCase (userMessage tm) /\
                         due tm <= timestamp r)
            (timers (widget s)) added.
Proof.
  remember (timers (widget s)) as ts eqn:Hts. revert s Hts.
  induction ts as [|tm ts IH]; intros s Hts.
  - exists [], s, []. simpl. rewrite app_nil_r. repeat split; auto.
  - set (t := Z.max (clock s) (due tm)).
    assert (Htm : timers (widget s) !! 0%nat = Some tm) by (rewrite <- Hts; reflexivity).
    pose proof (step_TimerFires s 0 tm t t Htm) as Hstep.
    specialize (Hstep ltac:(lia) ltac:(lia) ltac:(lia)).
    match type of Hstep with _ = Some ?x => set (s1 := x) in * end.
    destruct (IH s1) as (es & s' & added & Hrun & Hnone & Hmsgs & Hall).
    { simpl. rewrite <- Hts. reflexivity. }
    exists (TimerFires 0 t t :: es), s'.
    eexists (_ :: added).
    split; [cbn [run]; rewrite Hstep; exact Hrun|].
    split; [exact Hnone|].
    split; [rewrite Hmsgs; simpl; rewrite <- app_assoc; reflexivity|].
    constructor; [|exact Hall].
    simpl. repeat split. lia.
Qed.

(** C3.  A non-blank message schedules exactly one reply, due 1000 ms
    later, and leaves the other pending replies alone; a pending reply that
    is due can fire whether the widget is open or closed, and then appends to
    the end of [messages] an owner message with the matcher's reply to the
    captured text and the time of the append as timestamp; and in every
    state that a session reaches, the owner messages appended so far answer
    user messages one to one, each stamped at least 1000 ms after the
    message it answers, while every user message not yet answered has a
    timer of its own pending; and from every state all the pending timers
    can fire, each appending its reply, so that no reply is lost. *)
Theorem autoReply_spec :
  (forall t_id t_ts t_set w,
      trim (inputValue w) <> [] ->
      timers (handleSendMessage t_id t_ts t_set w) =
      timers w ++ [{| due := t_set + 1000; userMessage := trim (inputValue w) |}]) /\
  (forall s i tm t_id t_ts,
      timers (widget s) !! i = Some tm ->
      due tm <= t_id -> clock s <= t_id -> t_id <= t_ts ->
      exists s',
        step profile toLowerCase (TimerFires i t_id t_ts) s = Some s' /\
        messages (chatState (widget s')) =
          messages (chatState (widget s)) ++
            [{| id := lit "msg-" ++ numberToString t_id;
                content := getAutoReply profile toLowerCase (userMessage tm);
                sender := owner;
                timestamp := t_ts |}] /\
        isOpen (chatState (widget s')) = isOpen (chatState (widget s)) /\
        timers (widget s') = delete i (timers (widget s))) /\
  (forall initialMessages c0 es s,
      run profile toLowerCase es {| widget := mount initialMessages; clock := c0 |} = Some s ->
      repliesMatchUsers profile toLowerCase initialMessages (widget s)) /\
  (forall s,
      exists (es : list event) (s' : Session) (added : list ChatMessage),
        run profile toLowerCase es s = Some s' /\
        timers (widget s') = [] /\
        messages (chatState (widget s')) = messages (chatState (widget s)) ++ added /\
        Forall2 (fun tm r => sender r = owner /\
                             content r = getAutoReply profile toLowerCase (userMessage tm) /\
                             due tm <= timestamp r)
                (timers (widget s)) added).
Proof.
  split; [|split; [|split; [|exact pending_replies_fire]]].
  - intros t_id t_ts t_set w Hne. rewrite handleSendMessage_send by exact Hne. reflexivity.
  - intros s i tm t_id t_ts Htm Hdue Hc Hid.
    eexists. split; [apply (step_TimerFires s i tm); assumption|].
    simpl. repeat split.
  - intros initialMessages c0 es s Hrun.
    apply (run_repliesMatchUsers initialMessages es _ s Hrun).
    apply repliesMatchUsers_mount.
Qed.

(** A reply is appended while the widget is closed. *)
Example reply_while_closed :
  (s ← run profile toLowerCase
         [Toggle; Change (lit "hello"); Submit 10 10 10; Toggle; TimerFires 0 1010 1011]
         {| widget := mount []; clock := 0 |};
   Some (isOpen (chatState (widget s)),
         map (fun m => (sender m, timestamp m)) (messages (chatState (widget s)))))
  = Some (false, [(user, 10); (owner, 1011)]).
Proof. reflexivity. Qed.

(** When no two handlers read the same millisecond (and the widget starts
    without messages), the identifiers are pairwise distinct: each one is
    "msg-" followed by a reading of the clock that is not later than the
    clock of the session. *)
Lemma message_ids_distinct_invariant (es : list event) (s s' : Session) :
  run profile toLowerCase es s = Some s' ->
  distinctReadings (clock s) es ->
  Forall (fun m => exists t, t <= clock s /\ id m = lit "msg-" ++ numberToString t)
         (messages (chatState (widget s))) ->
  NoDup (map id (messages (chatState (widget s)))) ->
  NoDup (map id (messages (chatState (widget s')))).
Proof.
  revert s. induction es as [|e es IH]; intros s Hrun Hd Hall Hnd.
  - injection Hrun as <-. exact Hnd.
  - cbn [run] in Hrun.
    destruct (step profile toLowerCase e s) as [s1|] eqn:Hstep; [|discriminate].
    assert (Hfresh : forall t m0,
               clock s < t ->
               Forall (fun m => exists t', t' <= t /\ id m = lit "msg-" ++ numberToString t')
                      (messages (chatState (widget s)) ++
                       [{| id := lit "msg-" ++ numberToString t; content := content m0;
                           sender := sender m0; timestamp := timestamp m0 |}]) /\
               NoDup (map id (messages (chatState (widget s)) ++
                       [{| id := lit "msg-" ++ numberToString t; content := content m0;
                           sender := sender m0; timestamp := timestamp m0 |}]))).
    { intros t m0 Ht. split.
      - apply Forall_app. split.
        + eapply Forall_impl; [exact Hall|]. simpl. intros m (t' & Ht' & Hm).
          exists t'. split; [lia | exact Hm].
        + constructor; [|constructor]. exists t. split; [lia | reflexivity].
      - rewrite map_app. cbn [map id]. apply NoDup_app. split; [exact Hnd|]. split.
        + intros i Hi Hi'. apply list_elem_of_singleton in Hi'. subst i.
          apply list_elem_of_fmap in Hi as (m & Hm & Hin).
          rewrite Forall_forall in Hall. destruct (Hall m Hin) as (t' & Ht' & Hid).
          rewrite Hid in Hm. apply app_inv_head in Hm.
          apply numberToString_inj in Hm. lia.
        + apply NoDup_singleton. }
    destruct e as [|v|t_id t_ts t_set|i t_id t_ts]; cbn [distinctReadings] in Hd.
    + injection Hstep as <-. apply (IH _ Hrun); assumption.
    + injection Hstep as <-. apply (IH _ Hrun); assumption.
    + apply step_Submit_inv in Hstep as (-> & Hc & Hid & Hts).
      destruct Hd as [Hlt Hd]. apply (IH _ Hrun); cbn [clock widget]; [exact Hd| |].
      * destruct (trim (inputValue (widget s))) as [|c t] eqn:E.
        -- rewrite handleSendMessage_blank by exact E.
           eapply Forall_impl; [exact Hall|]. simpl. intros m (t' & Ht' & Hm).
           exists t'. split; [lia | exact Hm].
        -- rewrite handleSendMessage_send by (rewrite E; discriminate). simpl.
           destruct (Hfresh t_id {| id := []; content := trim (inputValue (widget s));
                                    sender := user; timestamp := t_ts |} Hlt) as [H _].
           eapply Forall_impl; [exact H|]. simpl. intros m (t' & Ht' & Hm).
           exists t'. split; [lia | exact Hm].
      * destruct (trim (inputValue (widget s))) as [|c t] eqn:E.
        -- rewrite handleSendMessage_blank by exact E. exact Hnd.
        -- rewrite handleSendMessage_send by (rewrite E; discriminate). simpl.
           apply (Hfresh t_id {| id := []; content := trim (inputValue (widget s));
                                 sender := user; timestamp := t_ts |} Hlt).
    + destruct (step_TimerFires_inv _ _ _ _ _ Hstep) as (tm & Htm & Hdue & Hc & Hid).
      rewrite (step_TimerFires s i tm t_id t_ts Htm Hdue Hc Hid) in Hstep.
      injection Hstep as <-.
      destruct Hd as [Hlt Hd]. apply (IH _ Hrun); cbn [clock widget]; [exact Hd| |].
      * simpl.
        destruct (Hfresh t_id {| id := [];
                                 content := getAutoReply profile toLowerCase (userMessage tm);
                                 sender := owner; timestamp := t_ts |} Hlt) as [H _].
        eapply Forall_impl; [exact H|]. simpl. intros m (t' & Ht' & Hm).
        exists t'. split; [lia | exact Hm].
      * simpl.
        apply (Hfresh t_id {| id := [];
                              content := getAutoReply profile toLowerCase (userMessage tm);
                              sender := owner; timestamp := t_ts |} Hlt).
Qed.

Lemma message_ids_distinct (c0 : Z) (es : list event) (s : Session) :
  run profile toLowerCase es {| widget := mount []; clock := c0 |} = Some s ->
  distinctReadings c0 es ->
  NoDup (map id (messages (chatState (widget s)))).
Proof.
  intros Hrun Hd.
  apply (message_ids_distinct_invariant es _ s Hrun Hd); simpl; constructor.
Qed.

(** C4.  The identifier of a message is "msg-" followed by the reading of
    the clock, so two messages appended in the same millisecond get the
    same identifier: two messages sent in the same millisecond, or a message
    sent in the millisecond in which a reply is appended. *)
Theorem message_ids_collide :
  (s ← run profile toLowerCase
         [Change (lit "a"); Submit 5 5 5; Change (lit "b"); Submit 5 5 5]
         {| widget := mount []; clock := 0 |};
   Some (map id (messages (chatState (widget s)))))
  = Some [lit "msg-5"; lit "msg-5"] /\
  (s ← run profile toLowerCase
         [Change (lit "hi"); Submit 0 0 0; Change (lit "again");
          TimerFires 0 1000 1000; Submit 1000 1000 1000]
         {| widget := mount []; clock := 0 |};
   Some (map (fun m => (id m, sender m)) (messages (chatState (widget s)))))
  = Some [(lit "msg-0", user); (lit "msg-1000", owner); (lit "msg-1000", user)].
Proof. split; reflexivity. Qed.
End ChatFacts.

(* ================================================================= *)
(** * Part III: further properties of the code *)
(* ================================================================= *)

(* ----------------------------------------------------------------- *)
(** ** Trimming *)

Lemma trimStart_ws_prefix (pre s : jsstring) :
  Forall (fun c => isWhiteSpace c = true) pre -> trimStart (pre ++ s) = trimStart s.
Proof.
  induction 1 as [|c pre Hc _ IH]; [reflexivity|]. simpl. rewrite Hc. exact IH.
Qed.

Lemma trimStart_all_ws (s : jsstring) :
  Forall (fun c => isWhiteSpace c = true) s -> trimStart s = [].
Proof.
  intros H. rewrite <- (app_nil_r s), trimStart_ws_prefix by exact H. reflexivity.
Qed.

Lemma trimStart_keep (c : Z) (s : jsstring) :
  isWhiteSpace c = false -> trimStart (c :: s) = c :: s.
Proof. intros H. simpl. rewrite H. reflexivity. Qed.

(** [trim s] is the only way to write [s] as white space, a part that
    neither starts nor ends with white space, and white space. *)
Lemma trim_unique (pre t post : jsstring) :
  Forall (fun c => isWhiteSpace c = true) pre ->
  Forall (fun c => isWhiteSpace c = true) post ->
  match t with [] => True | c :: _ => isWhiteSpace c = false end ->
  match rev t with [] => True | c :: _ => isWhiteSpace c = false end ->
  trim (pre ++ t ++ post) = t.
Proof.
  intros Hpre Hpost Hhead Hlast. unfold trim, trimEnd.
  rewrite trimStart_ws_prefix by exact Hpre.
  destruct t as [|c t].
  - simpl. rewrite (trimStart_all_ws post Hpost). reflexivity.
  - change ((c :: t) ++ post) with (c :: (t ++ post)).
    rewrite trimStart_keep by exact Hhead.
    change (c :: (t ++ post)) with ((c :: t) ++ post).
    rewrite rev_app_distr, trimStart_ws_prefix by (apply Forall_rev; exact Hpost).
    destruct (rev (c :: t)) as [|d u] eqn:E.
    + apply (f_equal (@length Z)) in E. rewrite length_rev in E. discriminate.
    + rewrite trimStart_keep by exact Hlast. rewrite <- E. apply rev_involutive.
Qed.

(** White space around a value does not change what [trim] returns. *)
Lemma trim_pad (pre s post : jsstring) :
  Forall (fun c => isWhiteSpace c = true) pre ->
  Forall (fun c => isWhiteSpace c = true) post ->
  trim (pre ++ s ++ post) = trim s.
Proof.
  intros Hpre Hpost.
  destruct (trim_decompose s) as (p & q & Hs & Hp & Hq).
  destruct (trim_ends s) as [Hhead Hlast].
  rewrite Hs at 1.
  replace (pre ++ (p ++ trim s ++ q) ++ post) with ((pre ++ p) ++ trim s ++ (q ++ post))
    by (rewrite <- !app_assoc; reflexivity).
  apply trim_unique; try assumption; apply Forall_app; split; assumption.
Qed.

Lemma trim_idempotent (s : jsstring) : trim (trim s) = trim s.
Proof.
  destruct (trim_ends s) as [Hhead Hlast].
  rewrite <- (app_nil_r (trim s)) at 1.
  apply (trim_unique [] (trim s) []); try assumption; constructor.
Qed.

(* ----------------------------------------------------------------- *)
(** ** Form validation: the whole form, padding, messages *)

Lemma isValidEmail_valid (s : jsstring) :
  isValid (validateEmail s) = true <-> emailShape (trim s).
Proof.
  unfold validateEmail, isValidEmail.
  destruct (trim s) as [|c t] eqn:E; cbn [truthy negb].
  - simpl. split; [discriminate|].
    intros (loc & dom & tld & H & _). destruct loc; discriminate.
  - destruct (test_anchored emailRegex (c :: t)) eqn:Em; cbn [negb]; simpl.
    + split; [intros _; apply emailRegex_shape; exact Em | reflexivity].
    + split; [discriminate|]. intros H. apply emailRegex_shape in H. congruence.
Qed.

Lemma isValidEmail_wellFormed (s : jsstring) : wellFormed (validateEmail s).
Proof.
  unfold validateEmail, isValidEmail, wellFormed.
  destruct (negb (truthy (trim s))); simpl; [eauto|].
  destruct (negb (test_anchored emailRegex (trim s))); simpl; eauto.
Qed.

Lemma wellFormed_error_none (r : ValidationResult) :
  wellFormed r -> (error r = None <-> isValid r = true).
Proof.
  intros [[Hv He]|[Hv [e He]]]; rewrite Hv, He; split; congruence.
Qed.

(** X1.  [validateContactForm] runs the three validators on their own
    fields: the form is valid exactly when the trimmed name has 2 to 100
    characters, the trimmed e-mail has the shape [local@domain.tld] and the
    trimmed message has 10 to 1000 characters; the three errors are all null
    exactly when the form is valid; and the error of a field is the error of
    its own validator, whatever the other fields hold. *)
Theorem validateContactForm_spec (data : ContactFormData) :
  (fst (validateContactForm data) = true <->
     2 <= jslength (trim (form_name data)) <= 100 /\
     emailShape (trim (form_email data)) /\
     10 <= jslength (trim (form_message data)) <= 1000) /\
  (fst (validateContactForm data) = true <->
     name_error (snd (validateContactForm data)) = None /\
     email_error (snd (validateContactForm data)) = None /\
     message_error (snd (validateContactForm data)) = None) /\
  name_error (snd (validateContactForm data)) = error (validateName (form_name data)) /\
  email_error (snd (validateContactForm data)) = error (validateEmail (form_email data)) /\
  message_error (snd (validateContactForm data)) = error (validateMessage (form_message data)).
Proof.
  unfold validateContactForm. cbn [fst snd name_error email_error message_error].
  pose proof (validateName_valid (form_name data)) as Hn.
  pose proof (isValidEmail_valid (form_email data)) as He.
  pose proof (validateMessage_valid (form_message data)) as Hm.
  pose proof (wellFormed_error_none _ (validateName_wellFormed (form_name data))) as Wn.
  pose proof (wellFormed_error_none _ (isValidEmail_wellFormed (form_email data))) as We.
  pose proof (wellFormed_error_none _ (validateMessage_wellFormed (form_message data))) as Wm.
  rewrite !andb_true_iff.
  repeat split; try tauto.
Qed.

(** X2.  The validators look at the trimmed value only: white space before
    and after a value changes no result, and validating the trimmed value
    gives the result of validating the value. *)
Theorem validators_ignore_padding (pre s post : jsstring) :
  Forall (fun c => isWhiteSpace c = true) pre ->
  Forall (fun c => isWhiteSpace c = true) post ->
  validateName (pre ++ s ++ post) = validateName s /\
  validateEmail (pre ++ s ++ post) = validateEmail s /\
  validateMessage (pre ++ s ++ post) = validateMessage s /\
  validateName (trim s) = validateName s /\
  validateEmail (trim s) = validateEmail s /\
  validateMessage (trim s) = validateMessage s.
Proof.
  intros Hpre Hpost.
  unfold validateName, validateMessage, validateEmail, isValidEmail,
    required, minLength, maxLength.
  rewrite !(trim_pad pre s post Hpre Hpost), !trim_idempotent.
  repeat split; reflexivity.
Qed.

(** Three spaces before "Al" and a tab and a line feed after it. *)
Lemma validators_ignore_padding_witness :
  validateName (lit "   " ++ lit "Al" ++ [9; 10]) = validateName (lit "Al") /\
  validateEmail (lit "   " ++ lit "Al" ++ [9; 10]) = validateEmail (lit "Al") /\
  validateMessage (lit "   " ++ lit "Al" ++ [9; 10]) = validateMessage (lit "Al") /\
  validateName (trim (lit "Al")) = validateName (lit "Al") /\
  validateEmail (trim (lit "Al")) = validateEmail (lit "Al") /\
  validateMessage (trim (lit "Al")) = validateMessage (lit "Al").
Proof.
  apply (validators_ignore_padding (lit "   ") (lit "Al") [9; 10]);
    repeat constructor.
Defined.

(** X3.  The error of [validateName] and of [validateMessage] by the
    length of the trimmed value: "required" for 0, the minimum message below
    the minimum, the maximum message above the maximum, and null in the
    window.  The checks run in this order, so an empty value is reported as
    required, not as too short. *)
Theorem validate_error_messages (s : jsstring) :
  error (validateName s) =
    (if jslength (trim s) =? 0 then Some (lit "Name is required")
     else if jslength (trim s) <? 2 then Some (lit "Name must be at least 2 characters")
     else if 100 <? jslength (trim s)
          then Some (lit "Name must be no more than 100 characters")
     else None) /\
  error (validateMessage s) =
    (if jslength (trim s) =? 0 then Some (lit "Message is required")
     else if jslength (trim s) <? 10 then Some (lit "Message must be at least 10 characters")
     else if 1000 <? jslength (trim s)
          then Some (lit "Message must be no more than 1000 characters")
     else None).
Proof.
  unfold validateName, validateMessage, required, minLength, maxLength.
  destruct (trim s) as [|c t] eqn:E.
  - split; reflexivity.
  - assert (Hpos : (jslength (c :: t) =? 0) = false).
    { apply Z.eqb_neq. unfold jslength. simpl length. lia. }
    rewrite Hpos. cbn [truthy negb isValid].
    split.
    + destruct (jslength (c :: t) <? 2); cbn [negb isValid error]; [reflexivity|].
      destruct (100 <? jslength (c :: t)); reflexivity.
    + destruct (jslength (c :: t) <? 10); cbn [negb isValid error]; [reflexivity|].
      destruct (1000 <? jslength (c :: t)); reflexivity.
Qed.

(** X4.  What [validateEmail] never accepts: a valid value has, once
    trimmed, at least five characters and no white space in it, and the
    value has exactly one [@]. *)
Theorem validateEmail_valid_only (s : jsstring) :
  isValid (validateEmail s) = true ->
  5 <= jslength (trim s) /\
  Forall (fun c => isWhiteSpace c = false) (trim s) /\
  countChar 64 s = 1%nat.
Proof.
  intros Hv. apply isValidEmail_valid in Hv.
  pose proof (emailShape_one_at _ Hv) as Hat. rewrite countChar_trim in Hat.
  destruct Hv as (loc & dom & tld & Ht & Hl & Hd & Htld & Fl & Fd & Ft).
  rewrite Ht. split; [|split; [|exact Hat]].
  - unfold jslength. rewrite !length_app. simpl.
    destruct loc, dom, tld; try contradiction; simpl; lia.
  - assert (Hplain : forall u, Forall plainChar u -> Forall (fun c => isWhiteSpace c = false) u).
    { intros u Hu. eapply Forall_impl; [exact Hu|]. intros c [Hc _]. exact Hc. }
    rewrite !Forall_app. repeat split; auto; repeat constructor.
Qed.

Lemma validateEmail_valid_only_witness :
  5 <= jslength (trim (lit " a@b.c ")) /\
  Forall (fun c => isWhiteSpace c = false) (trim (lit " a@b.c ")) /\
  countChar 64 (lit " a@b.c ") = 1%nat.
Proof. apply (validateEmail_valid_only (lit " a@b.c ")). reflexivity. Defined.

(* ----------------------------------------------------------------- *)
(** ** Sorting: the result is determined *)

(** X5.  On valid start dates the result of [sortExperienceByDate] is
    determined by two requirements alone, whatever the (conforming)
    procedure of the engine: any arrangement [out] that is in
    non-increasing order of start date and that lists the entries of each
    start date in the order of the input is the content of the array that
    the function returns. *)
Theorem sortExperienceByDate_determined (sort : SortProcedure)
    (Date_parse : jsstring -> number)
    (h : store Experience) (experiences : ref) (l out : list Experience) :
  conforming sort ->
  h !! experiences = Some l ->
  Forall (validStart Date_parse) l ->
  StronglySorted (startsNoEarlier Date_parse) out ->
  (forall t : number,
      filter (fun e => Date_parse (startDate e) = t) out =
      filter (fun e => Date_parse (startDate e) = t) l) ->
  sortExperienceByDate sort Date_parse experiences h =
    Some (fresh (dom h), <[fresh (dom h) := out]> h).
Proof.
  intros Hsort Hl Hv Hs Hf.
  destruct (sortExperienceByDate_store sort Date_parse h experiences l Hl) as [_ Hrun].
  rewrite Hrun.
  rewrite <- (conforming_key_unique (fun e => Date_parse (startDate e)) _
                (compareByStartDate_key Date_parse) sort Hsort l out Hv Hs Hf).
  reflexivity.
Qed.

Lemma twoEntries_keys : NoDup (map (fun e => isoDateParse (startDate e)) twoEntries).
Proof.
  vm_compute. apply NoDup_cons. split.
  - intros H. apply elem_of_cons in H as [H|H]; [discriminate|]. inversion H.
  - apply NoDup_singleton.
Qed.

(** The two entries of the scenario, the arrangement with the later one
    first, and the procedure of V8. *)
Lemma sortExperienceByDate_determined_witness :
  sortExperienceByDate timSortShort isoDateParse 0%nat {[0%nat := twoEntries]} =
    Some (fresh (dom ({[0%nat := twoEntries]} : store Experience)),
          <[fresh (dom ({[0%nat := twoEntries]} : store Experience)) := rev twoEntries]>
            {[0%nat := twoEntries]}).
Proof.
  apply (sortExperienceByDate_determined timSortShort isoDateParse {[0%nat := twoEntries]}
           0%nat twoEntries (rev twoEntries)).
  - exact timSortShort_conforming.
  - vm_compute. reflexivity.
  - exact twoEntries_valid.
  - repeat constructor.
  - intros t. symmetry.
    apply (filter_key_perm (fun e => isoDateParse (startDate e)) t);
      [exact twoEntries_keys|].
    apply Permutation_swap.
Defined.

(** X6.  Sorting again changes nothing: on valid start dates, applying
    [sortExperienceByDate] to its own result gives one more new array with
    the same content, and the two earlier arrays are left as they were; and
    an array that is in non-increasing order already is copied as it is. *)
Theorem sortExperienceByDate_idempotent (sort : SortProcedure)
    (Date_parse : jsstring -> number)
    (h : store Experience) (experiences : ref) (l : list Experience) :
  conforming sort ->
  h !! experiences = Some l ->
  Forall (validStart Date_parse) l ->
  exists (r1 r2 : ref) (h1 h2 : store Experience) (out : list Experience),
    sortExperienceByDate sort Date_parse experiences h = Some (r1, h1) /\
    h1 !! r1 = Some out /\
    sortExperienceByDate sort Date_parse r1 h1 = Some (r2, h2) /\
    r2 <> r1 /\ r2 <> experiences /\
    h2 !! r2 = Some out /\ h2 !! r1 = Some out /\ h2 !! experiences = Some l /\
    (StronglySorted (startsNoEarlier Date_parse) l -> out = l).
Proof.
  intros Hsort Hl Hv.
  set (key := fun e : Experience => Date_parse (startDate e)).
  set (cmp := compareByStartDate Date_parse).
  destruct (sortExperienceByDate_store sort Date_parse h experiences l Hl) as [Hr1 Hrun1].
  set (r1 := fresh (dom h)) in *.
  set (h1 := <[r1 := sort _ cmp l]> h).
  assert (Hne1 : r1 <> experiences) by (intros E; rewrite E in Hr1; congruence).
  assert (Hl1 : h1 !! r1 = Some (sort _ cmp l)) by apply lookup_insert_eq.
  destruct (sortExperienceByDate_store sort Date_parse h1 r1 _ Hl1) as [Hr2 Hrun2].
  set (r2 := fresh (dom h1)) in *.
  assert (Hne2 : r2 <> r1) by (intros E; rewrite E in Hr2; congruence).
  assert (Hl1e : h1 !! experiences = Some l).
  { unfold h1. rewrite lookup_insert_ne by exact Hne1. exact Hl. }
  assert (Hne3 : r2 <> experiences) by (intros E; rewrite E in Hr2; congruence).
  assert (Hperm : sort _ cmp l ≡ₚ l) by apply Hsort.
  assert (Hsame : sort _ cmp (sort _ cmp l) = sort _ cmp l).
  { symmetry.
    apply (conforming_key_unique key cmp (compareByStartDate_key Date_parse) sort Hsort).
    - rewrite Hperm. exact Hv.
    - apply (conforming_key_sorted key cmp (compareByStartDate_key Date_parse) sort Hsort l Hv).
    - reflexivity. }
  exists r1, r2, h1, (<[r2 := sort _ cmp l]> h1), (sort _ cmp l).
  split; [exact Hrun1|]. split; [exact Hl1|].
  split; [fold cmp in Hrun2; rewrite Hrun2, Hsame; reflexivity|].
  split; [exact Hne2|]. split; [exact Hne3|].
  split; [apply lookup_insert_eq|].
  split; [rewrite lookup_insert_ne by exact Hne2; exact Hl1|].
  split; [rewrite lookup_insert_ne by exact Hne3; exact Hl1e|].
  intros Hs. symmetry.
  apply (conforming_key_unique key cmp (compareByStartDate_key Date_parse) sort Hsort);
    [exact Hv | exact Hs | reflexivity].
Qed.

Lemma sortExperienceByDate_idempotent_witness :
  exists (r1 r2 : ref) (h1 h2 : store Experience) (out : list Experience),
    sortExperienceByDate timSortShort isoDateParse 0%nat {[0%nat := twoEntries]} =
      Some (r1, h1) /\
    h1 !! r1 = Some out /\
    sortExperienceByDate timSortShort isoDateParse r1 h1 = Some (r2, h2) /\
    r2 <> r1 /\ r2 <> 0%nat /\
    h2 !! r2 = Some out /\ h2 !! r1 = Some out /\ h2 !! 0%nat = Some twoEntries /\
    (StronglySorted (startsNoEarlier isoDateParse) twoEntries -> out = twoEntries).
Proof.
  apply (sortExperienceByDate_idempotent timSortShort isoDateParse {[0%nat := twoEntries]}
           0%nat twoEntries).
  - exact timSortShort_conforming.
  - vm_compute. reflexivity.
  - exact twoEntries_valid.
Defined.

(** X7.  When the start dates are valid and pairwise distinct, the order of
    the input does not matter: two arrays with the same entries in any two
    orders are sorted to the same content.  (With equal start dates the
    result follows the input order, see C5.) *)
Theorem sortExperienceByDate_order_independent (sort : SortProcedure)
    (Date_parse : jsstring -> number)
    (h1 h2 : store Experience) (a b : ref) (l1 l2 : list Experience) :
  conforming sort ->
  h1 !! a = Some l1 -> h2 !! b = Some l2 ->
  l1 ≡ₚ l2 ->
  Forall (validStart Date_parse) l1 ->
  NoDup (map (fun e => Date_parse (startDate e)) l1) ->
  exists out : list Experience,
    sortExperienceByDate sort Date_parse a h1 =
      Some (fresh (dom h1), <[fresh (dom h1) := out]> h1) /\
    sortExperienceByDate sort Date_parse b h2 =
      Some (fresh (dom h2), <[fresh (dom h2) := out]> h2).
Proof.
  intros Hsort Ha Hb Hp Hv Hnd.
  set (key := fun e : Experience => Date_parse (startDate e)).
  destruct (sortExperienceByDate_store sort Date_parse h1 a l1 Ha) as [_ Hrun1].
  destruct (sortExperienceByDate_store sort Date_parse h2 b l2 Hb) as [_ Hrun2].
  exists (sort _ (compareByStartDate Date_parse) l1).
  split; [exact Hrun1|]. rewrite Hrun2. do 3 f_equal.
  assert (Hv2 : Forall (validStart Date_parse) l2) by (rewrite <- Hp; exact Hv).
  symmetry.
  apply (conforming_key_unique key _ (compareByStartDate_key Date_parse) sort Hsort).
  - exact Hv2.
  - apply (conforming_key_sorted key _ (compareByStartDate_key Date_parse) sort Hsort l1 Hv).
  - intros t.
    rewrite (conforming_key_stable key _ (compareByStartDate_key Date_parse) sort Hsort l1 t Hv).
    apply (filter_key_perm key t); assumption.
Qed.

Lemma sortExperienceByDate_order_independent_witness :
  exists out : list Experience,
    sortExperienceByDate timSortShort isoDateParse 0%nat {[0%nat := twoEntries]} =
      Some (fresh (dom ({[0%nat := twoEntries]} : store Experience)),
            <[fresh (dom ({[0%nat := twoEntries]} : store Experience)) := out]>
              {[0%nat := twoEntries]}) /\
    sortExperienceByDate timSortShort isoDateParse 3%nat {[3%nat := rev twoEntries]} =
      Some (fresh (dom ({[3%nat := rev twoEntries]} : store Experience)),
            <[fresh (dom ({[3%nat := rev twoEntries]} : store Experience)) := out]>
              {[3%nat := rev twoEntries]}).
Proof.
  apply (sortExperienceByDate_order_independent timSortShort isoDateParse
           {[0%nat := twoEntries]} {[3%nat := rev twoEntries]} 0%nat 3%nat
           twoEntries (rev twoEntries)).
  - exact timSortShort_conforming.
  - vm_compute. reflexivity.
  - vm_compute. reflexivity.
  - apply Permutation_swap.
  - exact twoEntries_valid.
  - exact twoEntries_keys.
Defined.

(* ----------------------------------------------------------------- *)
(** ** Formatting: which month is printed *)

Lemma monthShort_length (m : Z) : length (monthShort m) = 3%nat.
Proof.
  unfold monthShort.
  repeat match goal with
         | |- context [match ?x with _ => _ end] => destruct x
         end; reflexivity.
Qed.

Lemma monthShort_inj (a b : Z) :
  0 <= a <= 11 -> 0 <= b <= 11 -> monthShort a = monthShort b -> a = b.
Proof.
  intros Ha Hb.
  assert (Ea : a = 0 \/ a = 1 \/ a = 2 \/ a = 3 \/ a = 4 \/ a = 5 \/ a = 6 \/ a = 7
               \/ a = 8 \/ a = 9 \/ a = 10 \/ a = 11) by (clear - Ha; lia).
  assert (Eb : b = 0 \/ b = 1 \/ b = 2 \/ b = 3 \/ b = 4 \/ b = 5 \/ b = 6 \/ b = 7
               \/ b = 8 \/ b = 9 \/ b = 10 \/ b = 11) by (clear - Hb; lia).
  clear Ha Hb.
  repeat (destruct Ea as [->|Ea]); try subst a;
    repeat (destruct Eb as [->|Eb]); try subst b;
    first [reflexivity | intros H; vm_compute in H; discriminate].
Qed.

(** Two printed dates are equal only when month and year are. *)
Lemma printed_date_inj (a b y1 y2 : Z) :
  0 <= a <= 11 -> 0 <= b <= 11 ->
  monthShort a ++ lit " " ++ numberToString y1 = monthShort b ++ lit " " ++ numberToString y2 ->
  a = b /\ y1 = y2.
Proof.
  intros Ha Hb H.
  apply app_inj_1 in H as [Hm Hy]; [|rewrite !monthShort_length; reflexivity].
  split; [apply monthShort_inj; assumption|].
  apply app_inj_1 in Hy as [_ Hy]; [|reflexivity].
  apply numberToString_inj. exact Hy.
Qed.

(** X8.  When [formatDate] prints the month and year that an ISO date
    names: in every zone at or east of UTC for every day, and in every zone
    less than a day away from UTC for every day that is neither the first
    nor the last of its month.  [formatDuration] with a null end then prints
    that month and year followed by " - Present". *)
Theorem formatDate_own_month (Date_parse : jsstring -> number) (LocalTZA : Z -> Z)
    (y m d : Z) :
  (forall y m d, validYMD y m d ->
                 Date_parse (isoDate y m d) = Some (utcMidnight y (m - 1) d)) ->
  (forall t, - msPerDay <= LocalTZA t < msPerDay) ->
  validYMD y m d -> 1 <= y ->
  (forall t, 0 <= LocalTZA t) \/ (2 <= d /\ d + 1 <= DaysInMonth y (m - 1)) ->
  formatDate Date_parse LocalTZA (Some (isoDate y m d)) =
    monthShort (m - 1) ++ lit " " ++ numberToString y /\
  formatDuration Date_parse LocalTZA (isoDate y m d) None =
    monthShort (m - 1) ++ lit " " ++ numberToString y ++ lit " - Present".
Proof.
  intros Hparse Hzone Hv Hy Hcase.
  assert (Hfmt : formatDate Date_parse LocalTZA (Some (isoDate y m d)) =
                 monthShort (m - 1) ++ lit " " ++ numberToString y).
  { destruct Hcase as [Heast|[Hd1 Hd2]].
    - apply formatDate_east; try assumption.
      intros t. specialize (Hzone t). specialize (Heast t). lia.
    - apply formatDate_mid_month; assumption. }
  split; [exact Hfmt|].
  unfold formatDuration. rewrite Hfmt, <- !app_assoc. reflexivity.
Qed.

Lemma validYMD_2024_01_01 : validYMD 2024 1 1.
Proof. repeat split; vm_compute; discriminate. Qed.

(** The first of January 2024 in UTC. *)
Lemma formatDate_own_month_witness :
  formatDate isoDateParse utcZone (Some (isoDate 2024 1 1)) =
    monthShort (1 - 1) ++ lit " " ++ numberToString 2024 /\
  formatDuration isoDateParse utcZone (isoDate 2024 1 1) None =
    monthShort (1 - 1) ++ lit " " ++ numberToString 2024 ++ lit " - Present".
Proof.
  apply (formatDate_own_month isoDateParse utcZone 2024 1 1).
  - exact isoDateParse_isoDate.
  - intros t. unfold utcZone, msPerDay. lia.
  - exact validYMD_2024_01_01.
  - lia.
  - left. intros t. unfold utcZone. lia.
Defined.

(** X9.  In every zone west of UTC (less than a day behind), [formatDate]
    prints the first day of a month as the month before: the first of
    January as December of the year before, the first of any other month as
    the month before in the same year.  So the text is never the month and
    year that the date string names. *)
Theorem formatDate_first_day_west (Date_parse : jsstring -> number) (LocalTZA : Z -> Z)
    (y m : Z) :
  (forall y m d, validYMD y m d ->
                 Date_parse (isoDate y m d) = Some (utcMidnight y (m - 1) d)) ->
  (forall t, - msPerDay <= LocalTZA t < 0) ->
  2 <= y <= 9999 -> 1 <= m <= 12 ->
  formatDate Date_parse LocalTZA (Some (isoDate y m 1)) =
    (if m =? 1 then monthShort 11 ++ lit " " ++ numberToString (y - 1)
     else monthShort (m - 2) ++ lit " " ++ numberToString y) /\
  formatDate Date_parse LocalTZA (Some (isoDate y m 1)) <>
    monthShort (m - 1) ++ lit " " ++ numberToString y.
Proof.
  intros Hparse Hzone Hy Hm.
  assert (Hfmt : formatDate Date_parse LocalTZA (Some (isoDate y m 1)) =
                 (if m =? 1 then monthShort 11 ++ lit " " ++ numberToString (y - 1)
                  else monthShort (m - 2) ++ lit " " ++ numberToString y)).
  { destruct (Z.eqb_spec m 1) as [->|Hne].
    - unfold formatDate. rewrite isoDate_truthy. cbn [negb].
      assert (Hv : validYMD y 1 1) by (repeat split; try lia; vm_compute; discriminate).
      rewrite (Hparse _ _ _ Hv).
      assert (Hv' : validYMD (y - 1) 12 31)
        by (repeat split; try lia; vm_compute; discriminate).
      apply (toLocaleDateString_local LocalTZA _ (y - 1) 12 31 Hv'); [lia|].
      unfold LocalTime, utcMidnight.
      specialize (Hzone (MakeDay y (1 - 1) 1 * msPerDay)).
      replace (MakeDay y (1 - 1) 1 * msPerDay + LocalTZA (MakeDay y (1 - 1) 1 * msPerDay))
        with ((MakeDay y (1 - 1) 1 - 1) * msPerDay
              + (msPerDay + LocalTZA (MakeDay y (1 - 1) 1 * msPerDay))) by lia.
      rewrite Day_shift by lia.
      pose proof (DayFromYear_succ (y - 1)) as Hs.
      replace (y - 1 + 1) with y in Hs by lia.
      unfold MakeDay. rewrite Hs. unfold DaysInYear.
      change (12 - 1) with 11. change (1 - 1) with 0.
      unfold daysBeforeMonth. cbv beta iota zeta.
      destruct (isLeapYear (y - 1)); lia.
    - apply formatDate_west_first_day; try assumption; lia. }
  split; [exact Hfmt|].
  rewrite Hfmt. destruct (Z.eqb_spec m 1) as [->|Hne]; intros E.
  - apply printed_date_inj in E as [_ E]; lia.
  - apply printed_date_inj in E as [E _]; lia.
Qed.

(** The first of January 2024, five hours behind UTC: "Dec 2023". *)
Lemma formatDate_first_day_west_witness :
  formatDate isoDateParse fiveHoursBehind (Some (isoDate 2024 1 1)) =
    (if 1 =? 1 then monthShort 11 ++ lit " " ++ numberToString (2024 - 1)
     else monthShort (1 - 2) ++ lit " " ++ numberToString 2024) /\
  formatDate isoDateParse fiveHoursBehind (Some (isoDate 2024 1 1)) <>
    monthShort (1 - 1) ++ lit " " ++ numberToString 2024.
Proof.
  apply (formatDate_first_day_west isoDateParse fiveHoursBehind 2024 1).
  - exact isoDateParse_isoDate.
  - intros t. unfold fiveHoursBehind, msPerDay, msPerHour. lia.
  - lia.
  - lia.
Defined.

(* ----------------------------------------------------------------- *)
(** ** The experience timeline *)




(** Why the condition on the years: with one [NaN] year among the seven
    entries, the procedure of V8 puts the sixth entry of 2022 before the
    fifth. *)
Example sortExperienceByYear_NaN_year :
  Timeline.sortExperienceByYear timSortShort 0%nat {[0%nat := sevenYears]} =
    Some (1%nat,
          <[1%nat := [timelineEntry "e1" 2022 false; timelineEntry "e3" 2022 false;
                      timelineEntry "e4" 2022 false; timelineEntry "e6" 2022 false;
                      timelineEntry "e0" 2021 false;
                      {| Timeline.id := lit "x"; Timeline.title := lit "x";
                         Timeline.description := []; Timeline.year := None;
                         Timeline.isCurrent := false |};
                      timelineEntry "e5" 2022 false]]> {[0%nat := sevenYears]}) /\
  filter (fun e => Timeline.year e = Some 2022)
         [timelineEntry "e1" 2022 false; timelineEntry "e3" 2022 false;
          timelineEntry "e4" 2022 false; timelineEntry "e6" 2022 false;
          timelineEntry "e0" 2021 false;
          {| Timeline.id := lit "x"; Timeline.title := lit "x";
             Timeline.description := []; Timeline.year := None;
             Timeline.isCurrent := false |};
          timelineEntry "e5" 2022 false] <>
  filter (fun e => Timeline.year e = Some 2022) sevenYears.
Proof. split; [vm_compute; reflexivity | vm_compute; discriminate]. Qed.

(* ----------------------------------------------------------------- *)
(** ** The chat session: history, window, send button *)

Lemma Sorted_snoc_le (l : list Z) (x : Z) :
  Sorted Z.le l -> Forall (fun y => y <= x) l -> Sorted Z.le (l ++ [x]).
Proof.
  induction 1 as [|a l Hs IH Hhd]; intros Hall; simpl.
  - repeat constructor.
  - inversion Hall as [|? ? Hax Hall']; subst.
    constructor; [apply IH; exact Hall'|].
    destruct l as [|b l]; simpl; constructor; [exact Hax|].
    inversion Hhd; assumption.
Qed.

Section ChatMore.
Variable profile : Profile.
Variable toLowerCase : jsstring -> jsstring.

Lemma getAutoReply_nonempty (m : jsstring) : getAutoReply profile toLowerCase m <> [].
Proof.
  rewrite getAutoReply_firstMatch.
  destruct (replies_nonempty profile) as [Hrules Hfallback].
  destruct (firstMatch_cases profile (toLowerCase m)) as [->|(r & Hin & ->)];
    [exact Hfallback|].
  rewrite Forall_forall in Hrules. apply Hrules. apply list_elem_of_In. exact Hin.
Qed.

(** One event appends at most one message; the message has a content and
    is stamped between the readings of the clock before and after. *)
Lemma step_appends (e : event) (s s' : Session) :
  step profile toLowerCase e s = Some s' ->
  clock s <= clock s' /\
  (messages (chatState (widget s')) = messages (chatState (widget s)) \/
   exists m, messages (chatState (widget s')) = messages (chatState (widget s)) ++ [m] /\
             content m <> [] /\ clock s <= timestamp m <= clock s').
Proof.
  intros Hstep. destruct e as [|v|t_id t_ts t_set|i t_id t_ts].
  - injection Hstep as <-. simpl. split; [lia | left; reflexivity].
  - injection Hstep as <-. simpl. split; [lia | left; reflexivity].
  - apply step_Submit_inv in Hstep as (-> & Hc & Hid & Hts). simpl.
    split; [lia|].
    destruct (trim (inputValue (widget s))) as [|c t] eqn:E.
    + left. rewrite handleSendMessage_blank by exact E. reflexivity.
    + right. rewrite handleSendMessage_send by (rewrite E; discriminate).
      eexists. split; [reflexivity|]. simpl. rewrite E. split; [discriminate | lia].
  - destruct (step_TimerFires_inv _ _ _ _ _ _ _ Hstep) as (tm & Htm & Hdue & Hc & Hts).
    rewrite (step_TimerFires _ _ s i tm t_id t_ts Htm Hdue Hc Hts) in Hstep.
    injection Hstep as <-. simpl. split; [lia|].
    right. eexists. split; [reflexivity|]. simpl.
    split; [apply getAutoReply_nonempty | lia].
Qed.

Lemma step_isOpen (e : event) (s s' : Session) :
  step profile toLowerCase e s = Some s' ->
  isOpen (chatState (widget s')) =
  match e with
  | Toggle => negb (isOpen (chatState (widget s)))
  | _ => isOpen (chatState (widget s))
  end.
Proof.
  intros Hstep. destruct e as [|v|t_id t_ts t_set|i t_id t_ts].
  - injection Hstep as <-. reflexivity.
  - injection Hstep as <-. reflexivity.
  - apply step_Submit_inv in Hstep as (-> & _). simpl.
    unfold handleSendMessage. destruct (negb (truthy (trim (inputValue (widget s)))));
      reflexivity.
  - destruct (step_TimerFires_inv _ _ _ _ _ _ _ Hstep) as (tm & Htm & Hdue & Hc & Hts).
    rewrite (step_TimerFires _ _ s i tm t_id t_ts Htm Hdue Hc Hts) in Hstep.
    injection Hstep as <-. reflexivity.
Qed.

(** X11.  The history only grows: whatever happens in a session (clicks,
    edits, submissions, replies, in any order), the messages at the end are
    the messages at the start, unchanged and in the same order, followed by
    the messages added; at most one message is added per event; every added
    message has a content that is not empty and a time stamp between the
    readings of the clock at the start and at the end. *)
Theorem chat_history_append_only (es : list event) (s s' : Session) :
  run profile toLowerCase es s = Some s' ->
  exists added : list ChatMessage,
    messages (chatState (widget s')) = messages (chatState (widget s)) ++ added /\
    (length added <= length es)%nat /\
    Forall (fun m => content m <> [] /\ clock s <= timestamp m <= clock s') added /\
    clock s <= clock s'.
Proof.
  revert s. induction es as [|e es IH]; intros s Hrun; cbn [run] in Hrun.
  - injection Hrun as <-. exists []. rewrite app_nil_r.
    split; [reflexivity|]. split; [simpl; lia|]. split; [constructor | lia].
  - destruct (step profile toLowerCase e s) as [s1|] eqn:Hstep; [|discriminate].
    destruct (IH s1 Hrun) as (added & Hmsgs & Hlen & Hall & Hclock).
    destruct (step_appends e s s1 Hstep) as [Hc1 Hadd].
    assert (Hall' : Forall (fun m => content m <> [] /\ clock s <= timestamp m <= clock s')
                           added).
    { eapply Forall_impl; [exact Hall|]. simpl. intros m [Hm Hts]. split; [exact Hm | lia]. }
    destruct Hadd as [Hsame|(m & Hm & Hcontent & Hts)].
    + exists added. rewrite Hmsgs, Hsame.
      split; [reflexivity|]. split; [simpl; lia|]. split; [exact Hall' | lia].
    + exists (m :: added). rewrite Hmsgs, Hm, <- app_assoc.
      split; [reflexivity|]. split; [simpl; lia|].
      split; [|lia]. constructor; [|exact Hall']. split; [exact Hcontent | lia].
Qed.

(** X12.  The window: the chat button toggles [isOpen] and nothing else
    does, so after a session the window is open exactly when the number of
    clicks has changed its parity; a click touches neither the messages, the
    input nor the pending replies, and two clicks restore the state. *)
Theorem chat_open_parity (es : list event) (s s' : Session) :
  run profile toLowerCase es s = Some s' ->
  isOpen (chatState (widget s')) =
    xorb (isOpen (chatState (widget s))) (Nat.odd (toggles es)) /\
  (forall w, messages (chatState (toggleChat w)) = messages (chatState w) /\
             inputValue (toggleChat w) = inputValue w /\
             timers (toggleChat w) = timers w /\
             toggleChat (toggleChat w) = w).
Proof.
  intros Hrun. split.
  - revert s Hrun. induction es as [|e es IH]; intros s Hrun; cbn [run] in Hrun.
    + injection Hrun as <-. simpl. rewrite xorb_false_r. reflexivity.
    + destruct (step profile toLowerCase e s) as [s1|] eqn:Hstep; [|discriminate].
      rewrite (IH s1 Hrun), (step_isOpen e s s1 Hstep).
      destruct e; try reflexivity.
      cbn [toggles]. rewrite Nat.odd_succ, <- Nat.negb_odd.
      destruct (isOpen (chatState (widget s))), (Nat.odd (toggles es)); reflexivity.
  - intros [[o ms] v ts]. unfold toggleChat, setChatState. simpl.
    rewrite negb_involutive. repeat split; reflexivity.
Qed.

(** X13.  The send button and [handleSendMessage] agree: the button is
    disabled exactly when submitting would change nothing; after a
    submission the input is empty, so the button is disabled and a second
    submission (a double click, Enter twice) adds nothing. *)
Theorem sendButtonDisabled_spec (t_id t_ts t_set : Z) (w : Widget) :
  (sendButtonDisabled w = true <-> handleSendMessage t_id t_ts t_set w = w) /\
  sendButtonDisabled (handleSendMessage t_id t_ts t_set w) = true /\
  (forall t_id' t_ts' t_set',
      handleSendMessage t_id' t_ts' t_set' (handleSendMessage t_id t_ts t_set w)
      = handleSendMessage t_id t_ts t_set w).
Proof.
  assert (Hafter : sendButtonDisabled (handleSendMessage t_id t_ts t_set w) = true).
  { unfold sendButtonDisabled, handleSendMessage.
    destruct (trim (inputValue w)) as [|c t] eqn:E; cbn [truthy negb].
    - rewrite E. reflexivity.
    - reflexivity. }
  split; [|split; [exact Hafter|]].
  - unfold sendButtonDisabled. split.
    + intros H. apply negb_true_iff, truthy_false in H.
      apply handleSendMessage_blank. exact H.
    + intros H. destruct (trim (inputValue w)) as [|c t] eqn:E; [reflexivity|].
      exfalso. apply (f_equal (fun w' => length (messages (chatState w')))) in H.
      rewrite handleSendMessage_send in H by (rewrite E; discriminate).
      simpl in H. rewrite length_app in H. simpl in H. lia.
  - intros t_id' t_ts' t_set'. apply handleSendMessage_blank.
    unfold sendButtonDisabled in Hafter.
    apply negb_true_iff, truthy_false in Hafter. exact Hafter.
Qed.

(** X14.  The history is in chronological order: when the messages at the
    start are in non-decreasing order of time stamp and none is stamped
    later than the clock reads, the same holds at the end of every session,
    replies included (a reply is stamped when it is appended, not when its
    message was sent). *)
Theorem chat_timestamps_chronological (es : list event) (s s' : Session) :
  run profile toLowerCase es s = Some s' ->
  Sorted Z.le (map timestamp (messages (chatState (widget s)))) ->
  Forall (fun m => timestamp m <= clock s) (messages (chatState (widget s))) ->
  Sorted Z.le (map timestamp (messages (chatState (widget s')))) /\
  Forall (fun m => timestamp m <= clock s') (messages (chatState (widget s'))).
Proof.
  revert s. induction es as [|e es IH]; intros s Hrun Hs Hall; cbn [run] in Hrun.
  - injection Hrun as <-. split; assumption.
  - destruct (step profile toLowerCase e s) as [s1|] eqn:Hstep; [|discriminate].
    destruct (step_appends e s s1 Hstep) as [Hc1 Hadd].
    assert (Hall1 : Forall (fun m => timestamp m <= clock s1)
                           (messages (chatState (widget s)))).
    { eapply Forall_impl; [exact Hall|]. simpl. intros m Hm. lia. }
    apply (IH s1 Hrun).
    + destruct Hadd as [->|(m & -> & _ & Hts)]; [exact Hs|].
      rewrite map_app. apply Sorted_snoc_le; [exact Hs|].
      apply Forall_map. eapply Forall_impl; [exact Hall|]. simpl. intros m' Hm'. lia.
    + destruct Hadd as [->|(m & -> & _ & Hts)]; [exact Hall1|].
      apply Forall_app. split; [exact Hall1|]. constructor; [lia | constructor].
Qed.


(** X16.  White space around the text typed is dropped before anything
    else: submitting [pre ++ v ++ post] with white space [pre] and [post]
    gives the messages and the pending replies that submitting [v] gives. *)
Theorem handleSendMessage_ignores_padding (t_id t_ts t_set : Z) (pre v post : jsstring)
    (w : Widget) :
  Forall (fun c => isWhiteSpace c = true) pre ->
  Forall (fun c => isWhiteSpace c = true) post ->
  chatState (handleSendMessage t_id t_ts t_set (setInputValue (pre ++ v ++ post) w)) =
  chatState (handleSendMessage t_id t_ts t_set (setInputValue v w)) /\
  timers (handleSendMessage t_id t_ts t_set (setInputValue (pre ++ v ++ post) w)) =
  timers (handleSendMessage t_id t_ts t_set (setInputValue v w)).
Proof.
  intros Hpre Hpost. unfold handleSendMessage, setInputValue. cbn [inputValue].
  rewrite (trim_pad pre v post Hpre Hpost).
  destruct (negb (truthy (trim v))); split; reflexivity.
Qed.
End ChatMore.

(** The short session with the sample profile. *)
Lemma chat_history_append_only_witness :
  exists s' : Session,
    run sampleProfile asciiToLowerCase shortSession mounted = Some s' /\
    exists added : list ChatMessage,
      messages (chatState (widget s')) = messages (chatState (widget mounted)) ++ added /\
      (length added <= length shortSession)%nat /\
      Forall (fun m => content m <> [] /\ clock mounted <= timestamp m <= clock s') added /\
      clock mounted <= clock s'.
Proof.
  eexists. split; [vm_compute; reflexivity|].
  apply (chat_history_append_only sampleProfile asciiToLowerCase shortSession mounted).
  vm_compute. reflexivity.
Defined.

Lemma chat_open_parity_witness :
  exists s' : Session,
    run sampleProfile asciiToLowerCase shortSession mounted = Some s' /\
    isOpen (chatState (widget s')) =
      xorb (isOpen (chatState (widget mounted))) (Nat.odd (toggles shortSession)) /\
    (forall w, messages (chatState (toggleChat w)) = messages (chatState w) /\
               inputValue (toggleChat w) = inputValue w /\
               timers (toggleChat w) = timers w /\
               toggleChat (toggleChat w) = w).
Proof.
  eexists. split; [vm_compute; reflexivity|].
  apply (chat_open_parity sampleProfile asciiToLowerCase shortSession mounted).
  vm_compute. reflexivity.
Defined.

Lemma chat_timestamps_chronological_witness :
  exists s' : Session,
    run sampleProfile asciiToLowerCase shortSession mounted = Some s' /\
    Sorted Z.le (map timestamp (messages (chatState (widget s')))) /\
    Forall (fun m => timestamp m <= clock s') (messages (chatState (widget s'))).
Proof.
  eexists. split; [vm_compute; reflexivity|].
  apply (chat_timestamps_chronological sampleProfile asciiToLowerCase shortSession mounted).
  - vm_compute. reflexivity.
  - constructor.
  - constructor.
Defined.


(** Two spaces before "hi" and a line feed after it. *)
Lemma handleSendMessage_ignores_padding_witness :
  chatState (handleSendMessage 1 1 1 (setInputValue (lit "  " ++ lit "hi" ++ [10]) (mount []))) =
  chatState (handleSendMessage 1 1 1 (setInputValue (lit "hi") (mount []))) /\
  timers (handleSendMessage 1 1 1 (setInputValue (lit "  " ++ lit "hi" ++ [10]) (mount []))) =
  timers (handleSendMessage 1 1 1 (setInputValue (lit "hi") (mount []))).
Proof.
  apply (handleSendMessage_ignores_padding 1 1 1 (lit "  ") (lit "hi") [10] (mount []));
    repeat constructor.
Defined.

(* ----------------------------------------------------------------- *)
(** ** The matcher: letter case, keywords that never decide *)

Lemma includes_weaken (s a b : jsstring) :
  includes s (a ++ b) = true -> includes s a = true.
Proof.
  rewrite !includes_spec. intros (x & y & ->).
  exists x, (b ++ y). rewrite <- !app_assoc. reflexivity.
Qed.

Lemma asciiToLowerCase_idempotent (s : jsstring) :
  asciiToLowerCase (asciiToLowerCase s) = asciiToLowerCase s.
Proof.
  unfold asciiToLowerCase. rewrite map_map. apply map_ext. intros c.
  unfold asciiLower.
  destruct (Z.leb_spec 65 c), (Z.leb_spec c 90); cbn [andb];
    repeat match goal with
           | |- context [Z.leb ?a ?b] => destruct (Z.leb_spec a b)
           end; cbn [andb]; lia.
Qed.

Lemma asciiToLowerCase_isAscii (s : jsstring) : isAscii s -> isAscii (asciiToLowerCase s).
Proof.
  unfold isAscii, asciiToLowerCase. intros H. apply Forall_map.
  eapply Forall_impl; [exact H|]. simpl. intros c Hc. unfold asciiLower.
  destruct (Z.leb_spec 65 c), (Z.leb_spec c 90); cbn [andb]; lia.
Qed.

(** When a rule of the table matches, the search stops at it or before. *)
Lemma find_within {A : Type} (P : A -> bool) (pre post : list A) (r : A) :
  P r = true ->
  exists r', List.find P (pre ++ r :: post) = Some r' /\ In r' (pre ++ [r]).
Proof.
  intros Hr. induction pre as [|x pre IH]; simpl.
  - rewrite Hr. exists r. auto.
  - destruct (P x) eqn:Hx.
    + exists x. auto.
    + destruct IH as (r' & Hfind & Hin). exists r'. auto.
Qed.

Section MatcherMore.
Variable profile : Profile.
Variable toLowerCase : jsstring -> jsstring.

(** X17.  Keywords that never decide.  The rules are tried in order and a
    keyword matches as a substring, so a keyword that contains a keyword of
    an earlier rule cannot select its own rule: "hire" (rule 23, hiring)
    and "history" (rule 26, experience) contain "hi", and every message
    with one of them gets the greeting of rule 0; "want to work", "work
    together" and "work with you" (rule 36) contain "work" of rule 22, and
    every message with one of them gets the reply of one of the rules 0 to
    22. *)
Theorem getAutoReply_shadowed_keywords (m : jsstring) :
  (exists r23 r26 r36 r22 r0,
      rules profile !! 23%nat = Some r23 /\ In (lit "hire") (keywords r23) /\
      rules profile !! 26%nat = Some r26 /\ In (lit "history") (keywords r26) /\
      rules profile !! 36%nat = Some r36 /\
      In (lit "want to work") (keywords r36) /\ In (lit "work together") (keywords r36) /\
      In (lit "work with you") (keywords r36) /\
      rules profile !! 22%nat = Some r22 /\ In (lit "work") (keywords r22) /\
      rules profile !! 0%nat = Some r0 /\ In (lit "hi") (keywords r0) /\
      reply r0 = greetingReply profile) /\
  (includes (toLowerCase m) (lit "hire") = true \/
   includes (toLowerCase m) (lit "history") = true ->
   getAutoReply profile toLowerCase m = greetingReply profile) /\
  (includes (toLowerCase m) (lit "want to work") = true \/
   includes (toLowerCase m) (lit "work together") = true \/
   includes (toLowerCase m) (lit "work with you") = true ->
   exists r, In r (take 23 (rules profile)) /\
             getAutoReply profile toLowerCase m = reply r).
Proof.
  split; [|split].
  - do 5 eexists.
    repeat (split; [first [reflexivity | cbn [In keywords]; tauto]|]).
    reflexivity.
  - intros H.
    assert (Hhi : includes (toLowerCase m) (lit "hi") = true).
    { destruct H as [H|H].
      - apply (includes_weaken _ (lit "hi") (lit "re")). exact H.
      - apply (includes_weaken _ (lit "hi") (lit "story")). exact H. }
    rewrite getAutoReply_firstMatch.
    apply (firstMatch_first profile _ [] (List.tl (rules profile))
             (List.hd {| keywords := []; reply := [] |} (rules profile))).
    + reflexivity.
    + constructor.
    + unfold ruleMatches, rules. cbn [List.hd keywords existsb].
      rewrite Hhi. reflexivity.
  - intros H.
    assert (Hwork : includes (toLowerCase m) (lit "work") = true).
    { destruct H as [H|[H|H]].
      - rewrite includes_spec in H. destruct H as (x & y & Hm).
        apply includes_spec. exists (x ++ lit "want to "), y.
        rewrite Hm, <- !app_assoc. reflexivity.
      - apply (includes_weaken _ (lit "work") (lit " together")). exact H.
      - apply (includes_weaken _ (lit "work") (lit " with you")). exact H. }
    rewrite getAutoReply_firstMatch. unfold firstMatch.
    set (r22 := nth 22 (rules profile) {| keywords := []; reply := [] |}).
    assert (Hsplit : rules profile = take 22 (rules profile) ++ r22 :: drop 23 (rules profile))
      by reflexivity.
    assert (H22 : ruleMatches (toLowerCase m) r22 = true).
    { unfold ruleMatches, r22, rules. cbn [nth keywords existsb].
      rewrite Hwork. rewrite orb_true_r. reflexivity. }
    destruct (find_within (ruleMatches (toLowerCase m)) (take 22 (rules profile))
                (drop 23 (rules profile)) r22 H22) as (r' & Hfind & Hin).
    rewrite <- Hsplit in Hfind. rewrite Hfind.
    exists r'. split; [|reflexivity].
    replace (take 23 (rules profile)) with (take 22 (rules profile) ++ [r22])
      by reflexivity.
    exact Hin.
Qed.

(** X18.  The matcher ignores letter case: two ASCII messages that differ
    only in the case of their letters get the same reply, and a message
    gets the reply of its lower-case form.  (Lower-casing is the engine's;
    on ASCII strings it maps A-Z to a-z.) *)
Theorem getAutoReply_ignores_case (m1 m2 : jsstring) :
  (forall s, isAscii s -> toLowerCase s = asciiToLowerCase s) ->
  isAscii m1 -> isAscii m2 ->
  asciiToLowerCase m1 = asciiToLowerCase m2 ->
  getAutoReply profile toLowerCase m1 = getAutoReply profile toLowerCase m2 /\
  getAutoReply profile toLowerCase m1 =
    getAutoReply profile toLowerCase (asciiToLowerCase m1).
Proof.
  intros Hlower H1 H2 Heq.
  rewrite !getAutoReply_firstMatch.
  rewrite (Hlower m1 H1), (Hlower m2 H2),
    (Hlower _ (asciiToLowerCase_isAscii m1 H1)), asciiToLowerCase_idempotent, Heq.
  split; reflexivity.
Qed.
End MatcherMore.

Lemma getAutoReply_ignores_case_witness :
  getAutoReply sampleProfile asciiToLowerCase (lit "HELLO There") =
    getAutoReply sampleProfile asciiToLowerCase (lit "hello tHERE") /\
  getAutoReply sampleProfile asciiToLowerCase (lit "HELLO There") =
    getAutoReply sampleProfile asciiToLowerCase (asciiToLowerCase (lit "HELLO There")).
Proof.
  apply (getAutoReply_ignores_case sampleProfile asciiToLowerCase).
  - intros s _. reflexivity.
  - unfold isAscii. vm_compute. repeat constructor; discriminate.
  - unfold isAscii. vm_compute. repeat constructor; discriminate.
  - vm_compute. reflexivity.
Defined.

(* ----------------------------------------------------------------- *)
(** ** The word count of the biography ([About.tsx]) *)

Lemma countRuns_ws (b : bool) (s : jsstring) :
  Forall (fun c => isWhiteSpace c = true) s -> countRuns b s = 0%nat.
Proof.
  intros H. revert b. induction H as [|c s Hc _ IH]; intros b; simpl; [reflexivity|].
  rewrite Hc. apply IH.
Qed.

Lemma countRuns_ws_prefix (pre s : jsstring) :
  Forall (fun c => isWhiteSpace c = true) pre ->
  countRuns false (pre ++ s) = countRuns false s.
Proof.
  induction 1 as [|c pre Hc _ IH]; simpl; [reflexivity|].
  rewrite Hc. exact IH.
Qed.

Lemma countRuns_ws_suffix (b : bool) (s post : jsstring) :
  Forall (fun c => isWhiteSpace c = true) post ->
  countRuns b (s ++ post) = countRuns b s.
Proof.
  intros Hpost. revert b. induction s as [|c s IH]; intros b; simpl.
  - rewrite countRuns_ws by exact Hpost. destruct post; reflexivity.
  - rewrite !IH. reflexivity.
Qed.

Lemma countRuns_trim (s : jsstring) : countRuns false (trim s) = countRuns false s.
Proof.
  destruct (trim_decompose s) as (p & q & Hs & Hp & Hq).
  rewrite Hs at 2.
  rewrite countRuns_ws_prefix by exact Hp.
  rewrite countRuns_ws_suffix by exact Hq. reflexivity.
Qed.

Lemma nonempty_rev (piece : jsstring) : (0 <? jslength (rev piece)) = truthy piece.
Proof.
  unfold jslength. rewrite length_rev. destruct piece; [reflexivity|].
  apply Z.ltb_lt. simpl length. lia.
Qed.

(** The pieces of [split] that are not empty are the runs of characters
    that are not white space. *)
Lemma splitRuns_count (s : jsstring) (inRun : bool) (piece : jsstring) :
  (inRun = true -> piece = []) ->
  length (List.filter (fun word => 0 <? jslength word) (splitRuns inRun piece s)) =
  (countRuns (truthy piece) s + (if truthy piece then 1 else 0))%nat.
Proof.
  revert inRun piece. induction s as [|c s IH]; intros inRun piece Hinv.
  - cbn [splitRuns List.filter countRuns]. rewrite nonempty_rev.
    destruct (truthy piece); reflexivity.
  - cbn [splitRuns countRuns]. destruct (isWhiteSpace c) eqn:Hc.
    + destruct inRun.
      * rewrite (Hinv eq_refl). rewrite (IH true []) by reflexivity. reflexivity.
      * cbn [List.filter]. rewrite nonempty_rev.
        destruct (truthy piece); cbn [length];
          rewrite (IH true []) by reflexivity; cbn [truthy]; lia.
    + rewrite (IH false (c :: piece)) by discriminate. cbn [truthy].
      destruct (truthy piece); lia.
Qed.

Lemma wordCount_countRuns (text : jsstring) :
  wordCount text = Z.of_nat (countRuns false text).
Proof.
  unfold wordCount, splitWhiteSpace.
  rewrite (splitRuns_count (trim text) false []) by discriminate.
  cbn [truthy]. rewrite countRuns_trim. f_equal. lia.
Qed.

Lemma countRuns_word (w rest : jsstring) :
  Forall (fun c => isWhiteSpace c = false) w ->
  countRuns true (w ++ rest) = countRuns true rest.
Proof.
  induction 1 as [|c w Hc _ IH]; simpl; [reflexivity|].
  rewrite Hc. exact IH.
Qed.

Lemma countRuns_first_word (w rest : jsstring) :
  w <> [] -> Forall (fun c => isWhiteSpace c = false) w ->
  countRuns false (w ++ rest) = S (countRuns true rest).
Proof.
  intros Hne Hw. destruct w as [|c w]; [contradiction|].
  inversion Hw as [|? ? Hc Hw']; subst. simpl. rewrite Hc.
  rewrite countRuns_word by exact Hw'. reflexivity.
Qed.

Lemma countRuns_joinSpace (words : list jsstring) :
  Forall (fun w => w <> [] /\ Forall (fun c => isWhiteSpace c = false) w) words ->
  countRuns false (joinSpace words) = length words.
Proof.
  induction 1 as [|w ws [Hne Hw] Hws IH]; [reflexivity|].
  destruct ws as [|w2 ws].
  - cbn [joinSpace length]. rewrite <- (app_nil_r w).
    rewrite countRuns_first_word by assumption. reflexivity.
  - change (joinSpace (w :: w2 :: ws)) with (w ++ [32] ++ joinSpace (w2 :: ws)).
    rewrite countRuns_first_word by assumption.
    change (countRuns true ([32] ++ joinSpace (w2 :: ws)))
      with (countRuns false (joinSpace (w2 :: ws))).
    rewrite IH. reflexivity.
Qed.

(** X19.  [isValidBioWordCount] counts words as the maximal runs of
    characters that are not white space: the count made by trimming,
    splitting at white space and dropping empty pieces is the number of such
    runs; white space around the text changes nothing; and for words (not
    empty, free of white space) joined by single spaces the count is the
    number of words, so such a text is valid exactly when it has 100 to 300
    words. *)
Theorem isValidBioWordCount_spec (text : jsstring) :
  wordCount text = Z.of_nat (countRuns false text) /\
  isValidBioWordCount text =
    (100 <=? Z.of_nat (countRuns false text)) && (Z.of_nat (countRuns false text) <=? 300) /\
  (forall pre post,
      Forall (fun c => isWhiteSpace c = true) pre ->
      Forall (fun c => isWhiteSpace c = true) post ->
      isValidBioWordCount (pre ++ text ++ post) = isValidBioWordCount text) /\
  (forall words,
      Forall (fun w => w <> [] /\ Forall (fun c => isWhiteSpace c = false) w) words ->
      wordCount (joinSpace words) = Z.of_nat (length words) /\
      isValidBioWordCount (joinSpace words) =
        (100 <=? Z.of_nat (length words)) && (Z.of_nat (length words) <=? 300)).
Proof.
  split; [apply wordCount_countRuns|].
  split; [unfold isValidBioWordCount; cbv zeta; rewrite wordCount_countRuns; reflexivity|].
  split.
  - intros pre post Hpre Hpost. unfold isValidBioWordCount, wordCount.
    rewrite (trim_pad pre text post Hpre Hpost). reflexivity.
  - intros words Hwords.
    assert (Hcount : wordCount (joinSpace words) = Z.of_nat (length words)).
    { rewrite wordCount_countRuns, countRuns_joinSpace by exact Hwords. reflexivity. }
    split; [exact Hcount|].
    unfold isValidBioWordCount. cbv zeta. rewrite Hcount. reflexivity.
Qed.
